(** * GOFSM: goal-oriented finite state machine engine

    A shallow embedding of [src/gofsm.h] and [src/gofsm.c] and the proofs of
    the properties stated about them.

    Conventions of the embedding:
    - [uint8_t] values (node indices, counters, capacities) are integers in
      [Z]; every increment or decrement of a [uint8_t] variable is written
      with its wrap-around [u8].
    - a [GOFSM_Transition_t*] is an address; the transitions themselves live
      in a heap owned by the caller, so that the registry, the cached
      transition and the caller all alias the same record.
    - C arrays are lists; an access outside the allocated block, or through
      a null or dangling pointer, is undefined behaviour and is reported as
      [Fault] (or [Undefined] inside loops).
    - [GOFSM_ASSERT] expands to [((void)0)]: [GOFSM_ASSERT_ENABLED] is
      commented out in the header, so assertions have no effect.
    - what [malloc] returns is not decided by the program: the two results
      are arguments of [GOFSM_Init], [NULL] or a block with unspecified
      contents.
    - an action routine acts on an external world and reports success or
      failure; the world is threaded explicitly through [GOFSM_OnTick]. *)

From stdpp Require Import base numbers option list gmap.

Local Open Scope Z_scope.

(** ** Data model ([gofsm.h]) *)

Abbreviation ptr := positive (only parsing).

Definition u8 (z : Z) : Z := z mod 256.

Inductive GOFSM_Transition_Result_t :=
  | GOFSM_Transition_Result_Failure
  | GOFSM_Transition_Result_Success.

Inductive GOFSM_Transition_State_t :=
  | GOFSM_Transition_State_Blocked
  | GOFSM_Transition_State_Available.

Inductive GOFSM_Error_t :=
  | GOFSM_Error_No
  | GOFSM_Error_OwerstackTransitions
  | GOFSM_Error_NotRegisteredTransition.

(** Result of a computation that may run into undefined behaviour; [Timeout]
    only arises from the fuel of the search loop. *)
Inductive run (A : Type) :=
  | Done (a : A)
  | Fault
  | Timeout.
Arguments Done {A} a.
Arguments Fault {A}.
Arguments Timeout {A}.

Global Instance run_bind : MBind run := λ A B k m,
  match m with
  | Done a => k a
  | Fault => Fault
  | Timeout => Timeout
  end.

(** Result of one pass of a loop body that may leave the enclosing function
    with [return transition]. *)
Inductive outcome (St : Type) :=
  | Next (s : St)
  | Return (t : ptr) (s : St)
  | Undefined.
Arguments Next {St} s.
Arguments Return {St} t s.
Arguments Undefined {St}.

(** [for (uint8_t i = 0; i < n; i++) body]: the counter stays below the
    [uint8_t] bound [n], so its increment never wraps. *)
Fixpoint for_loop {St} (body : Z → St → outcome St) (n : nat) (i : Z)
    (s : St) : outcome St :=
  match n with
  | O => Next s
  | S n' =>
      match body i s with
      | Next s' => for_loop body n' (i + 1) s'
      | Return t s' => Return t s'
      | Undefined => Undefined
      end
  end.

Section Engine.

Context {World : Type}.

(** [GOFSM_Transition_Function_t]: called with the transition's address. *)
Definition GOFSM_Transition_Function_t : Type :=
  ptr → World → GOFSM_Transition_Result_t * World.

Record GOFSM_Transition_t := mkTransition {
  source_node_index : Z;
  destination_node_index : Z;
  function : option GOFSM_Transition_Function_t;
  state : GOFSM_Transition_State_t
}.

Abbreviation heap := (gmap positive GOFSM_Transition_t).

Record GOFSM_t := mkGOFSM {
  nodes_capacity : Z;
  transitions_count : Z;
  transitions_capacity : Z;
  transitions : list (option ptr);
  transition_current : option ptr;
  current_node_index : Z;
  target_node_index : Z;
  alg_nodes_buffer : list Z;
  is_target_change : bool;
  is_transition_failure : bool;
  is_graph_reconfigured : bool;
  is_dyn : bool
}.

(** Field assignments. *)
Definition set_transitions_count (v : Z) (g : GOFSM_t) : GOFSM_t :=
  mkGOFSM (nodes_capacity g) v (transitions_capacity g) (transitions g)
    (transition_current g) (current_node_index g) (target_node_index g)
    (alg_nodes_buffer g) (is_target_change g) (is_transition_failure g)
    (is_graph_reconfigured g) (is_dyn g).

Definition set_transitions (v : list (option ptr)) (g : GOFSM_t) : GOFSM_t :=
  mkGOFSM (nodes_capacity g) (transitions_count g) (transitions_capacity g) v
    (transition_current g) (current_node_index g) (target_node_index g)
    (alg_nodes_buffer g) (is_target_change g) (is_transition_failure g)
    (is_graph_reconfigured g) (is_dyn g).

Definition set_transition_current (v : option ptr) (g : GOFSM_t) : GOFSM_t :=
  mkGOFSM (nodes_capacity g) (transitions_count g) (transitions_capacity g)
    (transitions g) v (current_node_index g) (target_node_index g)
    (alg_nodes_buffer g) (is_target_change g) (is_transition_failure g)
    (is_graph_reconfigured g) (is_dyn g).

Definition set_current_node_index (v : Z) (g : GOFSM_t) : GOFSM_t :=
  mkGOFSM (nodes_capacity g) (transitions_count g) (transitions_capacity g)
    (transitions g) (transition_current g) v (target_node_index g)
    (alg_nodes_buffer g) (is_target_change g) (is_transition_failure g)
    (is_graph_reconfigured g) (is_dyn g).

Definition set_target_node_index (v : Z) (g : GOFSM_t) : GOFSM_t :=
  mkGOFSM (nodes_capacity g) (transitions_count g) (transitions_capacity g)
    (transitions g) (transition_current g) (current_node_index g) v
    (alg_nodes_buffer g) (is_target_change g) (is_transition_failure g)
    (is_graph_reconfigured g) (is_dyn g).

Definition set_alg_nodes_buffer (v : list Z) (g : GOFSM_t) : GOFSM_t :=
  mkGOFSM (nodes_capacity g) (transitions_count g) (transitions_capacity g)
    (transitions g) (transition_current g) (current_node_index g)
    (target_node_index g) v (is_target_change g) (is_transition_failure g)
    (is_graph_reconfigured g) (is_dyn g).

Definition set_is_target_change (v : bool) (g : GOFSM_t) : GOFSM_t :=
  mkGOFSM (nodes_capacity g) (transitions_count g) (transitions_capacity g)
    (transitions g) (transition_current g) (current_node_index g)
    (target_node_index g) (alg_nodes_buffer g) v (is_transition_failure g)
    (is_graph_reconfigured g) (is_dyn g).

Definition set_is_transition_failure (v : bool) (g : GOFSM_t) : GOFSM_t :=
  mkGOFSM (nodes_capacity g) (transitions_count g) (transitions_capacity g)
    (transitions g) (transition_current g) (current_node_index g)
    (target_node_index g) (alg_nodes_buffer g) (is_target_change g) v
    (is_graph_reconfigured g) (is_dyn g).

Definition set_is_graph_reconfigured (v : bool) (g : GOFSM_t) : GOFSM_t :=
  mkGOFSM (nodes_capacity g) (transitions_count g) (transitions_capacity g)
    (transitions g) (transition_current g) (current_node_index g)
    (target_node_index g) (alg_nodes_buffer g) (is_target_change g)
    (is_transition_failure g) v (is_dyn g).

(** ** The search ([GOFSM_SearchNextStep]) *)

(** The local variables of the search that the loops update: the scratch
    buffer and the two [uint8_t] lengths. *)
Record scratch := mkScratch {
  buf : list Z;
  planned_length : Z;
  visited_length : Z
}.

(** [for (k = 0; k < visited_length; k++) if (visited[k] == prev_node) ...]
    with [visited = alg_nodes_buffer]. *)
Fixpoint is_visited (visited : list Z) (prev_node : Z) (n : nat) (k : Z)
  : option bool :=
  match n with
  | O => Some false
  | S n' =>
      match visited !! Z.to_nat k with
      | None => None
      | Some v =>
          if v =? prev_node then Some true
          else is_visited visited prev_node n' (k + 1)
      end
  end.

(** Body of the loop over [j] once [transition = gofsm->transitions[j]] is
    read; [planned] is the offset of the pointer [planned] in the buffer. *)
Definition scan_slot (h : heap) (current node planned : Z)
    (transition : option ptr) (s : scratch) : outcome scratch :=
  match transition with
  | Some transition =>
      match h !! transition with
      | Some tr =>
          if destination_node_index tr =? node then
            match state tr with
            | GOFSM_Transition_State_Available =>
                let prev_node := source_node_index tr in
                if prev_node =? current then Return transition s
                else
                  match is_visited (buf s) prev_node
                          (Z.to_nat (visited_length s)) 0 with
                  | None => Undefined
                  | Some true => Next s
                  | Some false =>
                      let slot := planned + planned_length s in
                      if slot <? Z.of_nat (length (buf s)) then
                        Next (mkScratch
                                (<[Z.to_nat slot := prev_node]> (buf s))
                                (u8 (planned_length s + 1))
                                (u8 (visited_length s + 1)))
                      else Undefined
                  end
            | GOFSM_Transition_State_Blocked => Next s
            end
          else Next s
      | None => Undefined
      end
  | None => Undefined
  end.

(** Body of the loop over [j]. *)
Definition scan_transition (h : heap) (g : GOFSM_t) (current node planned : Z)
    (j : Z) (s : scratch) : outcome scratch :=
  match transitions g !! Z.to_nat j with
  | Some transition => scan_slot h current node planned transition s
  | None => Undefined
  end.

(** Body of the loop over [i]; [working] is the offset of the pointer
    [working] in the buffer. *)
Definition scan_node (h : heap) (g : GOFSM_t) (current working planned : Z)
    (i : Z) (s : scratch) : outcome scratch :=
  match buf s !! Z.to_nat (working + i) with
  | Some node =>
      for_loop (scan_transition h g current node planned)
        (Z.to_nat (transitions_count g)) 0 s
  | None => Undefined
  end.

(** [while (planned_length) { ... }], one unit of fuel per evaluation of the
    loop condition. *)
Fixpoint search_loop (fuel : nat) (h : heap) (g : GOFSM_t) (current : Z)
    (index_planned : Z) (s : scratch) : run (option ptr * scratch) :=
  match fuel with
  | O => Timeout
  | S fuel' =>
      if planned_length s =? 0 then Done (None, s)
      else
        let working := index_planned in
        let working_length := planned_length s in
        let planned := index_planned + planned_length s in
        let s0 := mkScratch (buf s) 0 (visited_length s) in
        let index_planned' := u8 (index_planned + working_length) in
        match for_loop (scan_node h g current working planned)
                (Z.to_nat working_length) 0 s0 with
        | Next s' => search_loop fuel' h g current index_planned' s'
        | Return t s' => Done (Some t, s')
        | Undefined => Fault
        end
  end.

Definition search_from (fuel : nat) (h : heap) (g : GOFSM_t)
  : run (option ptr * scratch) :=
  let target := target_node_index g in
  let current := current_node_index g in
  let index_planned := 0 in
  let planned_length := 1 in
  let visited_length := 1 in
  if index_planned <? Z.of_nat (length (alg_nodes_buffer g)) then
    search_loop fuel h g current index_planned
      (mkScratch (<[Z.to_nat index_planned := target]> (alg_nodes_buffer g))
         planned_length visited_length)
  else Fault.

(** The loop condition is evaluated at most 256 times when the buffer has at
    most 255 slots (see [search_never_times_out]). *)
Definition search_fuel : nat := 256%nat.

(** Returns the transition (or [None] for [NULL]) and the engine with the
    scratch buffer as the search left it. *)
Definition GOFSM_SearchNextStep (h : heap) (g : GOFSM_t)
  : run (option ptr * GOFSM_t) :=
  '(t, s) ← search_from search_fuel h g;
  Done (t, set_alg_nodes_buffer (buf s) g).

(** ** Construction ([GOFSM_InitStatic], [GOFSM_Init]) *)

(** [for (i = 0; i < transitions_capacity; i++) transitions[i] = 0]. *)
Fixpoint clear_slots (slots : list (option ptr)) (n : nat) (i : Z)
  : run (list (option ptr)) :=
  match n with
  | O => Done slots
  | S n' =>
      if i <? Z.of_nat (length slots) then
        clear_slots (<[Z.to_nat i := None]> slots) n' (i + 1)
      else Fault
  end.

(** The instance comes from [GOFSM_STATIC_ALLOCATE] (or from [GOFSM_Init]):
    capacities and the two arrays are in place, [target_node_index] is
    left as it is. *)
Definition GOFSM_InitStatic (g : GOFSM_t) : run GOFSM_t :=
  slots ← clear_slots (transitions g)
             (Z.to_nat (transitions_capacity g)) 0;
  Done (mkGOFSM (nodes_capacity g) 0 (transitions_capacity g) slots None
          0 (target_node_index g) (alg_nodes_buffer g) true false true
          (is_dyn g)).

(** What a call of [malloc] hands back is decided by the allocator, not by
    the program: [None] stands for [NULL], [Some block] for a block, whose
    contents are whatever the allocator left there. *)
Definition malloc_result (A : Type) : Type := option (list A).

(** [malloc], asked for [n] elements, returns [NULL] or a block of [n]
    elements. *)
Definition malloc_returns {A} (n : Z) (r : malloc_result A) : Prop :=
  match r with
  | Some block => length block = Z.to_nat n
  | None => True
  end.

(** The array behind the pointer that [malloc] returned. Behind [NULL]
    there is no slot: every access through it is a fault. *)
Definition allocated {A} (r : malloc_result A) : list A :=
  match r with
  | Some block => block
  | None => []
  end.

(** The results of the two calls of [malloc] are arguments, in the order of
    the calls. Neither is compared with [NULL], and the scratch buffer is
    not cleared: only [GOFSM_InitStatic] writes, to the transition slots. *)
Definition GOFSM_Init (g : GOFSM_t) (transitions_capacity nodes_capacity : Z)
    (malloc_transitions : malloc_result (option ptr))
    (malloc_alg_nodes_buffer : malloc_result Z)
  : run GOFSM_t :=
  GOFSM_InitStatic
    (mkGOFSM nodes_capacity (transitions_count g) transitions_capacity
       (allocated malloc_transitions)
       (transition_current g) (current_node_index g) (target_node_index g)
       (allocated malloc_alg_nodes_buffer)
       (is_target_change g) (is_transition_failure g)
       (is_graph_reconfigured g) true).

(** ** Transitions and the registry *)

Definition GOFSM_Transition_Init (h : heap) (transition : ptr)
    (source_node_index destination_node_index : Z)
    (function : option GOFSM_Transition_Function_t) : heap :=
  <[transition := mkTransition source_node_index destination_node_index
                    function GOFSM_Transition_State_Available]> h.

Definition GOFSM_Transition_SetState (h : heap) (g : GOFSM_t)
    (transition : ptr) (state : GOFSM_Transition_State_t)
  : run (heap * GOFSM_t) :=
  match h !! transition with
  | Some tr =>
      Done (<[transition := mkTransition (source_node_index tr)
                              (destination_node_index tr) (function tr)
                              state]> h,
            set_is_graph_reconfigured true g)
  | None => Fault
  end.

Definition GOFSM_AddTransition (g : GOFSM_t) (transition : ptr)
  : run (GOFSM_Error_t * GOFSM_t) :=
  if transitions_count g =? transitions_capacity g then
    Done (GOFSM_Error_OwerstackTransitions, g)
  else if decide (0 ≤ transitions_count g
                  < Z.of_nat (length (transitions g))) then
    Done (GOFSM_Error_No,
          set_is_graph_reconfigured true
            (set_transitions_count (u8 (transitions_count g + 1))
               (set_transitions
                  (<[Z.to_nat (transitions_count g) := Some transition]>
                     (transitions g)) g)))
  else Fault.

(** [memmove(a + dst, a + src, n * sizeof *a)] inside one array. *)
Definition memmove {A} (a : list A) (dst src n : Z) : run (list A) :=
  if decide (0 ≤ dst ∧ 0 ≤ src ∧ 0 ≤ n
             ∧ dst + n ≤ Z.of_nat (length a)
             ∧ src + n ≤ Z.of_nat (length a)) then
    Done (take (Z.to_nat dst) a
          ++ take (Z.to_nat n) (drop (Z.to_nat src) a)
          ++ drop (Z.to_nat (dst + n)) a)
  else Fault.

(** The loop of [GOFSM_RemoveTransition], [n] iterations left from [i]. *)
Fixpoint remove_scan (g : GOFSM_t) (transition : ptr) (n : nat) (i : Z)
  : run (GOFSM_Error_t * GOFSM_t) :=
  match n with
  | O => Done (GOFSM_Error_NotRegisteredTransition, g)
  | S n' =>
      match transitions g !! Z.to_nat i with
      | Some slot =>
          if decide (slot = Some transition) then
            let remaining := transitions_count g - i - 1 in
            slots ← memmove (transitions g) i (i + 1) remaining;
            Done (GOFSM_Error_No,
                  set_transitions_count (u8 (transitions_count g - 1))
                    (set_transitions slots g))
          else remove_scan g transition n' (i + 1)
      | None => Fault
      end
  end.

Definition GOFSM_RemoveTransition (g : GOFSM_t) (transition : ptr)
  : run (GOFSM_Error_t * GOFSM_t) :=
  remove_scan g transition (Z.to_nat (transitions_count g)) 0.

(** ** Goal and position *)

Definition GOFSM_SetCurrent (g : GOFSM_t) (node_index : Z) : GOFSM_t :=
  set_is_target_change true (set_current_node_index node_index g).

Definition GOFSM_SetTarget (g : GOFSM_t) (node_index : Z) : GOFSM_t :=
  set_is_target_change true (set_target_node_index node_index g).

(** ** The tick ([GOFSM_OnTick]) *)

(** What a tick does besides updating the engine, in order: calls of the
    search with what they returned, and attempts of a transition with their
    result (the action's, or success when the transition has no action). *)
Inductive event :=
  | EvSearch (found : option ptr)
  | EvAttempt (transition : ptr) (result : GOFSM_Transition_Result_t).

(** [!result] *)
Definition result_not (r : GOFSM_Transition_Result_t) : bool :=
  match r with
  | GOFSM_Transition_Result_Failure => true
  | GOFSM_Transition_Result_Success => false
  end.

(** The condition of line 142:
    [!is_transition_failure || is_target_change || is_graph_reconfigured]. *)
Definition replans (g : GOFSM_t) : bool :=
  negb (is_transition_failure g) || is_target_change g
  || is_graph_reconfigured g.

(** Lines 142-147: the cached transition is refreshed unless the last
    attempt failed and neither goal nor graph changed. *)
Definition tick_plan (h : heap) (g : GOFSM_t) : run (GOFSM_t * list event) :=
  if replans g then
    '(found, g1) ← GOFSM_SearchNextStep h g;
    Done (set_is_graph_reconfigured false
            (set_is_target_change false
               (set_transition_current found g1)),
          [EvSearch found])
  else Done (g, []).

(** Lines 149 and 155-157: the action is called if there is one, and the
    result is success otherwise. *)
Definition attempt (tr : GOFSM_Transition_t) (transition : ptr) (w : World)
  : GOFSM_Transition_Result_t * World :=
  match function tr with
  | Some f => f transition w
  | None => (GOFSM_Transition_Result_Success, w)
  end.

(** Lines 148-162: the cached transition is attempted. *)
Definition tick_attempt (h : heap) (w : World) (g : GOFSM_t)
  : run (GOFSM_t * World * list event) :=
  match transition_current g with
  | None => Done (set_is_transition_failure false g, w, [])
  | Some transition =>
      match h !! transition with
      | Some tr =>
          let '(result, w') := attempt tr transition w in
          let g1 := set_is_transition_failure (result_not result) g in
          match result with
          | GOFSM_Transition_Result_Success =>
              Done (set_current_node_index (destination_node_index tr) g1,
                    w', [EvAttempt transition result])
          | GOFSM_Transition_Result_Failure =>
              Done (g1, w', [EvAttempt transition result])
          end
      | None => Fault
      end
  end.

Definition GOFSM_OnTick (h : heap) (w : World) (g : GOFSM_t)
  : run (GOFSM_t * World * list event) :=
  if current_node_index g =? target_node_index g then Done (g, w, [])
  else
    '(g1, searched) ← tick_plan h g;
    '(g2, w', attempted) ← tick_attempt h w g1;
    Done (g2, w', searched ++ attempted).

(** [void GOFSM_OnTick]: what the call itself hands back to the caller. *)
Definition GOFSM_OnTick_returned (h : heap) (w : World) (g : GOFSM_t)
  : run unit :=
  _ ← GOFSM_OnTick h w g; Done tt.

(** [n] ticks in a row, nothing else in between. *)
Fixpoint ticks (n : nat) (h : heap) (w : World) (g : GOFSM_t)
  : run (GOFSM_t * World * list event) :=
  match n with
  | O => Done (g, w, [])
  | S n' =>
      '(g1, w1, tr1) ← GOFSM_OnTick h w g;
      '(g2, w2, tr2) ← ticks n' h w1 g1;
      Done (g2, w2, tr1 ++ tr2)
  end.

(** The next [n] attempts of the transition fail, starting in world [w]. *)
Fixpoint keeps_failing (tr : GOFSM_Transition_t) (transition : ptr)
    (n : nat) (w : World) : Prop :=
  match n with
  | O => True
  | S n' =>
      (attempt tr transition w).1 = GOFSM_Transition_Result_Failure
      ∧ keeps_failing tr transition n' (attempt tr transition w).2
  end.

(** The world after [n] attempts of the transition. *)
Fixpoint world_after (tr : GOFSM_Transition_t) (transition : ptr)
    (n : nat) (w : World) : World :=
  match n with
  | O => w
  | S n' => world_after tr transition n' (attempt tr transition w).2
  end.

(** ** The public operations as calls on one engine *)

Record machine := mkMachine {
  m_heap : heap;
  m_world : World;
  m_engine : GOFSM_t
}.

Inductive call :=
  | Call_Transition_Init (transition : ptr) (source destination : Z)
      (function : option GOFSM_Transition_Function_t)
  | Call_Transition_SetState (transition : ptr)
      (state : GOFSM_Transition_State_t)
  | Call_AddTransition (transition : ptr)
  | Call_RemoveTransition (transition : ptr)
  | Call_SetCurrent (node_index : Z)
  | Call_SetTarget (node_index : Z)
  | Call_OnTick.

Definition exec (c : call) (m : machine) : run machine :=
  match c with
  | Call_Transition_Init t src dst f =>
      Done (mkMachine (GOFSM_Transition_Init (m_heap m) t src dst f)
              (m_world m) (m_engine m))
  | Call_Transition_SetState t st =>
      '(h, g) ← GOFSM_Transition_SetState (m_heap m) (m_engine m) t st;
      Done (mkMachine h (m_world m) g)
  | Call_AddTransition t =>
      '(_, g) ← GOFSM_AddTransition (m_engine m) t;
      Done (mkMachine (m_heap m) (m_world m) g)
  | Call_RemoveTransition t =>
      '(_, g) ← GOFSM_RemoveTransition (m_engine m) t;
      Done (mkMachine (m_heap m) (m_world m) g)
  | Call_SetCurrent n =>
      Done (mkMachine (m_heap m) (m_world m) (GOFSM_SetCurrent (m_engine m) n))
  | Call_SetTarget n =>
      Done (mkMachine (m_heap m) (m_world m) (GOFSM_SetTarget (m_engine m) n))
  | Call_OnTick =>
      '(g, w, _) ← GOFSM_OnTick (m_heap m) (m_world m) (m_engine m);
      Done (mkMachine (m_heap m) w g)
  end.

Fixpoint exec_all (cs : list call) (m : machine) : run machine :=
  match cs with
  | [] => Done m
  | c :: cs' => m' ← exec c m; exec_all cs' m'
  end.

(** ** The registry as a graph *)

(** The live part of the array [transitions]. *)
Definition registered (g : GOFSM_t) : list (option ptr) :=
  take (Z.to_nat (transitions_count g)) (transitions g).

Definition resolve (h : heap) (slot : option ptr)
  : option (ptr * GOFSM_Transition_t) :=
  p ← slot; tr ← h !! p; Some (p, tr).

(** The registered transitions in registration order, each with the record
    its address points to; [None] when a slot is null or dangling. *)
Definition graph (h : heap) (g : GOFSM_t)
  : option (list (ptr * GOFSM_Transition_t)) :=
  mapM (resolve h) (registered g).

Abbreviation edges := (list (positive * GOFSM_Transition_t)).

Definition Available (tr : GOFSM_Transition_t) : Prop :=
  state tr = GOFSM_Transition_State_Available.

Definition is_available (e : ptr * GOFSM_Transition_t) : bool :=
  match state e.2 with
  | GOFSM_Transition_State_Available => true
  | GOFSM_Transition_State_Blocked => false
  end.

(** The registered transitions without the Blocked ones. *)
Definition enabled_edges (es : edges) : edges :=
  List.filter is_available es.

(** An enabled transition from [u] to [v]. *)
Definition edge (es : edges) (u v : Z) : Prop :=
  ∃ p tr, (p, tr) ∈ es ∧ Available tr
          ∧ source_node_index tr = u ∧ destination_node_index tr = v.

(** [path_to es T n v]: [n] enabled transitions lead from [v] to [T]. *)
Inductive path_to (es : edges) (T : Z) : nat → Z → Prop :=
  | path_here : path_to es T 0 T
  | path_step n u v : edge es u v → path_to es T n v → path_to es T (S n) u.

Definition reachable (es : edges) (T C : Z) : Prop := ∃ n, path_to es T n C.

(** ** The search as the specification words it (section 4.2)

    A frontier, a visited set and the next frontier, all kept as lists in
    the order in which nodes entered them. *)

(** One frontier node [n]: the transitions are enumerated in registration
    order; an enabled transition into [n] whose source is [C] is returned at
    once, another source not yet visited joins the visited set and the next
    frontier. *)
Fixpoint spec_scan (es : edges) (C n : Z) (visited next : list Z)
  : option ptr * (list Z * list Z) :=
  match es with
  | [] => (None, (visited, next))
  | (p, tr) :: es' =>
      if destination_node_index tr =? n then
        match state tr with
        | GOFSM_Transition_State_Available =>
            if source_node_index tr =? C then (Some p, (visited, next))
            else if bool_decide (source_node_index tr ∈ visited) then
              spec_scan es' C n visited next
            else
              spec_scan es' C n (visited ++ [source_node_index tr])
                (next ++ [source_node_index tr])
        | GOFSM_Transition_State_Blocked => spec_scan es' C n visited next
        end
      else spec_scan es' C n visited next
  end.

(** One layer: the frontier nodes in the order they entered the frontier. *)
Fixpoint spec_layer (es : edges) (C : Z) (frontier visited next : list Z)
  : option ptr * (list Z * list Z) :=
  match frontier with
  | [] => (None, (visited, next))
  | n :: frontier' =>
      match spec_scan es C n visited next with
      | (Some p, vn) => (Some p, vn)
      | (None, (visited', next')) => spec_layer es C frontier' visited' next'
      end
  end.

(** Layer after layer until one produces no new frontier; the result comes
    with the visited set at that point. *)
Fixpoint spec_search (fuel : nat) (es : edges) (C : Z)
    (frontier visited : list Z) : option (option ptr * list Z) :=
  match fuel with
  | O => None
  | S fuel' =>
      match frontier with
      | [] => Some (None, visited)
      | _ =>
          match spec_layer es C frontier visited [] with
          | (Some p, (visited', _)) => Some (Some p, visited')
          | (None, (visited', next')) => spec_search fuel' es C next' visited'
          end
      end
  end.

Definition spec_search_from (fuel : nat) (es : edges) (C T : Z)
  : option (option ptr * list Z) :=
  spec_search fuel es C [T] [T].

(** ** Standing assumptions of the data model *)

Definition is_u8 (z : Z) : Prop := 0 ≤ z < 256.

(** The instance is configured: the arrays have the sizes the capacities
    say, and the [uint8_t] fields hold [uint8_t] values. *)
Definition configured (g : GOFSM_t) : Prop :=
  is_u8 (nodes_capacity g) ∧ is_u8 (transitions_capacity g)
  ∧ length (transitions g) = Z.to_nat (transitions_capacity g)
  ∧ length (alg_nodes_buffer g) = Z.to_nat (nodes_capacity g)
  ∧ 0 ≤ transitions_count g ≤ transitions_capacity g.

(** Every node of a registered transition is below [capacity]: the scratch
    region is at least as large as the node domain. *)
Definition node_domain_fits (es : edges) (capacity : Z) : Prop :=
  ∀ p tr, (p, tr) ∈ es →
    0 ≤ source_node_index tr < capacity
    ∧ 0 ≤ destination_node_index tr < capacity.

(** ** Auxiliary notions for the proofs *)

(** A loop over the elements of a list, with the same early exits as
    [for_loop]. *)
Fixpoint for_each {A St} (f : A → St → outcome St) (l : list A) (s : St)
  : outcome St :=
  match l with
  | [] => Next s
  | x :: l' =>
      match f x s with
      | Next s' => for_each f l' s'
      | Return t s' => Return t s'
      | Undefined => Undefined
      end
  end.

(** The scratch variables [s] hold the visited list [V] in the first slots
    of the buffer and count the next frontier [N], which sits at offset
    [planned]. *)
Definition Rep (planned : Z) (s : scratch) (V N : list Z) : Prop :=
  V `prefix_of` buf s
  ∧ visited_length s = Z.of_nat (length V)
  ∧ planned_length s = Z.of_nat (length N)
  ∧ 0 ≤ planned
  ∧ planned + Z.of_nat (length N) = Z.of_nat (length V)
  ∧ (length (buf s) ≤ 255)%nat.

(** The counters of the search agree with each other and with the
    buffer the search started from: the next frontier starts at offset
    [planned] and ends where the visited nodes end, and the slots after
    the visited nodes are as they were. *)
Definition scratch_ok (planned : Z) (buffer : list Z) (s : scratch) : Prop :=
  planned + planned_length s = visited_length s
  ∧ 0 ≤ planned_length s
  ∧ visited_length s ≤ Z.of_nat (length buffer)
  ∧ length (buf s) = length buffer
  ∧ drop (Z.to_nat (visited_length s)) (buf s)
    = drop (Z.to_nat (visited_length s)) buffer.

(** The failure flag is only set while a transition is cached. *)
Definition cached_when_failed (g : GOFSM_t) : Prop :=
  is_transition_failure g = true → transition_current g ≠ None.

(** The registered-transition count is within the capacity. *)
Definition count_within_capacity (g : GOFSM_t) : Prop :=
  0 ≤ transitions_count g ≤ transitions_capacity g.

(** The state of the specification's search when it starts layer [k]: the
    visited nodes are those at most [k] transitions away from [T], the
    frontier holds those exactly [k] away and no nearer, and [C] is not
    among the visited. *)
Definition bfs_inv (es : edges) (T C : Z) (k : nat) (F V : list Z) : Prop :=
  (∀ v, v ∈ V ↔ ∃ m, (m ≤ k)%nat ∧ path_to es T m v)
  ∧ (∀ v, v ∈ F → path_to es T k v)
  ∧ (∀ v, path_to es T k v → v ∈ F ∨ ∃ m, (m < k)%nat ∧ path_to es T m v)
  ∧ C ∉ V.

(** The visited list is either just the target or made of nodes of the
    node domain. *)
Definition in_capacity (capacity T : Z) (V : list Z) : Prop :=
  V = [T] ∨ ∀ v, v ∈ V → 0 ≤ v < capacity.

(** ** Notions for the properties of whole runs *)

(** The engine is ready to tick on heap [h]: its registry resolves to
    [es], it is configured, the node domain fits the scratch region, and
    the cached transition, if any, is a live record. *)
Definition well_formed (h : heap) (g : GOFSM_t) (es : edges) : Prop :=
  graph h g = Some es
  ∧ configured g
  ∧ node_domain_fits es (nodes_capacity g)
  ∧ 1 ≤ nodes_capacity g
  ∧ ∀ t, transition_current g = Some t → is_Some (h !! t).

(** Every attempt of a registered transition succeeds, in every world. *)
Definition always_succeeds (es : edges) : Prop :=
  ∀ p tr (w : World),
    (p, tr) ∈ es → (attempt tr p w).1 = GOFSM_Transition_Result_Success.

(** [d] is the least number of enabled transitions from [v] to [T]. *)
Definition distance (es : edges) (T : Z) (d : nat) (v : Z) : Prop :=
  path_to es T d v ∧ ∀ m, path_to es T m v → (d ≤ m)%nat.

(** The number of attempts in a trace. *)
Definition count_attempts (tr : list event) : nat :=
  length (List.filter (λ e, match e with EvAttempt _ _ => true
                                   | EvSearch _ => false end) tr).

(** The number of calls of the search in a trace. *)
Definition count_searches (tr : list event) : nat :=
  length (List.filter (λ e, match e with EvSearch _ => true
                                   | EvAttempt _ _ => false end) tr).

End Engine.

Arguments GOFSM_Transition_t : clear implicits.
Arguments GOFSM_Transition_Function_t : clear implicits.
Arguments machine : clear implicits.
Arguments call : clear implicits.

(** ** Concrete engines

    The world counts the calls of action routines. Nodes are 0, 1, 2 and
    3; the transitions live at addresses 1 to 4. *)
Module Demo.

Definition jam : GOFSM_Transition_Function_t nat :=
  λ _ w, (GOFSM_Transition_Result_Failure, S w).

Definition pass : GOFSM_Transition_Function_t nat :=
  λ _ w, (GOFSM_Transition_Result_Success, S w).

(** A: 0 -> 1 with an action that fails; B: 1 -> 2 without action. *)
Definition A : GOFSM_Transition_t nat :=
  mkTransition 0 1 (Some jam) GOFSM_Transition_State_Available.

Definition B : GOFSM_Transition_t nat :=
  mkTransition 1 2 None GOFSM_Transition_State_Available.

Definition B_blocked : GOFSM_Transition_t nat :=
  mkTransition 1 2 None GOFSM_Transition_State_Blocked.

Definition heap_AB : gmap positive (GOFSM_Transition_t nat) :=
  <[1%positive := A]> (<[2%positive := B]> ∅).

Definition heap_AB_blocked : gmap positive (GOFSM_Transition_t nat) :=
  <[1%positive := A]> (<[2%positive := B_blocked]> ∅).

Definition edges_AB : list (positive * GOFSM_Transition_t nat) :=
  [(1%positive, A); (2%positive, B)].

(** After [GOFSM_Init (4, 3)], two [GOFSM_AddTransition] and
    [GOFSM_SetTarget 2]: at node 0, heading for node 2. *)
Definition engine_AB : GOFSM_t :=
  mkGOFSM 3 2 4 [Some 1%positive; Some 2%positive; None; None] None
    0 2 [0; 0; 0] true false true true.

(** The same engine placed at node 1. *)
Definition engine_AB_at_1 : GOFSM_t := GOFSM_SetCurrent engine_AB 1.

(** The same engine already at its target. *)
Definition engine_AB_at_2 : GOFSM_t := GOFSM_SetCurrent engine_AB 2.

(** [engine_AB] once a tick has planned: A is cached. *)
Definition engine_AB_planned : GOFSM_t :=
  mkGOFSM 3 2 4 [Some 1%positive; Some 2%positive; None; None]
    (Some 1%positive) 0 2 [2; 1; 0] false false false true.

(** [engine_AB_at_1] once a tick has planned with B blocked: nothing is
    cached. *)
Definition engine_AB_stuck : GOFSM_t :=
  mkGOFSM 3 2 4 [Some 1%positive; Some 2%positive; None; None]
    None 1 2 [2; 0; 0] false false false true.

(** Only A registered, heading for node 1. *)
Definition engine_A : GOFSM_t :=
  mkGOFSM 3 1 4 [Some 1%positive; None; None; None] None
    0 1 [0; 0; 0] true false true true.

(** [engine_A] after one tick: the action of A has failed. *)
Definition engine_A_failed : GOFSM_t :=
  mkGOFSM 3 1 4 [Some 1%positive; None; None; None] (Some 1%positive)
    0 1 [1; 0; 0] false true false true.

(** A full registry: capacity 1, A registered. *)
Definition engine_full : GOFSM_t :=
  mkGOFSM 3 1 1 [Some 1%positive] None 0 1 [0; 0; 0] true false true true.

(** An instance as [GOFSM_STATIC_ALLOCATE] leaves it before
    [GOFSM_InitStatic], with room for 4 transitions and 3 nodes. *)
Definition engine_raw : GOFSM_t :=
  mkGOFSM 3 0 4 [None; None; None; None] None 0 0 [0; 0; 0]
    false false false false.

(** An engine without any node: both capacities are 0. *)
Definition engine_zero : GOFSM_t :=
  mkGOFSM 0 0 0 [] None 1 0 [] true false true true.

(** X: 0 -> 1 and Y: 0 -> 1, two parallel transitions, X registered
    first. *)
Definition X : GOFSM_Transition_t nat :=
  mkTransition 0 1 None GOFSM_Transition_State_Available.

Definition Y : GOFSM_Transition_t nat :=
  mkTransition 0 1 (Some pass) GOFSM_Transition_State_Available.

Definition heap_XY : gmap positive (GOFSM_Transition_t nat) :=
  <[1%positive := X]> (<[2%positive := Y]> ∅).

Definition edges_XY : list (positive * GOFSM_Transition_t nat) :=
  [(1%positive, X); (2%positive, Y)].

Definition engine_XY : GOFSM_t :=
  mkGOFSM 3 2 4 [Some 1%positive; Some 2%positive; None; None] None
    0 1 [0; 0; 0] true false true true.

(** Two ways from 0 to 3, through 1 and through 2. First registered are
    P2: 2 -> 3 and P1: 1 -> 3, so that node 2 enters the frontier before
    node 1; then Q1: 0 -> 1 and Q2: 0 -> 2. *)
Definition P2 : GOFSM_Transition_t nat :=
  mkTransition 2 3 None GOFSM_Transition_State_Available.

Definition P1 : GOFSM_Transition_t nat :=
  mkTransition 1 3 None GOFSM_Transition_State_Available.

Definition Q1 : GOFSM_Transition_t nat :=
  mkTransition 0 1 None GOFSM_Transition_State_Available.

Definition Q2 : GOFSM_Transition_t nat :=
  mkTransition 0 2 None GOFSM_Transition_State_Available.

Definition heap_diamond : gmap positive (GOFSM_Transition_t nat) :=
  <[1%positive := P2]> (<[2%positive := P1]>
    (<[3%positive := Q1]> (<[4%positive := Q2]> ∅))).

Definition edges_diamond : list (positive * GOFSM_Transition_t nat) :=
  [(1%positive, P2); (2%positive, P1); (3%positive, Q1); (4%positive, Q2)].

Definition engine_diamond : GOFSM_t :=
  mkGOFSM 4 4 4
    [Some 1%positive; Some 2%positive; Some 3%positive; Some 4%positive]
    None 0 3 [0; 0; 0; 0] true false true true.

(** A with an action that succeeds, and B as before. *)
Definition A_pass : GOFSM_Transition_t nat :=
  mkTransition 0 1 (Some pass) GOFSM_Transition_State_Available.

Definition heap_pass : gmap positive (GOFSM_Transition_t nat) :=
  <[1%positive := A_pass]> (<[2%positive := B]> ∅).

Definition edges_pass : list (positive * GOFSM_Transition_t nat) :=
  [(1%positive, A_pass); (2%positive, B)].

(** A registered twice with B in between, in a registry of four slots. *)
Definition engine_ABA : GOFSM_t :=
  mkGOFSM 3 3 4 [Some 1%positive; Some 2%positive; Some 1%positive; None]
    None 0 2 [0; 0; 0] true false true true.

End Demo.

(** * Properties *)

Section Properties.

Context {World : Type}.

Implicit Types (h : gmap positive (GOFSM_Transition_t World)) (g : GOFSM_t).
Implicit Types (es : list (positive * GOFSM_Transition_t World)).
Implicit Types (s : scratch) (V N F : list Z).

(** ** Loops over arrays are loops over their elements *)

Lemma for_loop_for_each {A St} (body : Z → St → outcome St)
    (f : A → St → outcome St) (l : list A) (i : Z) (st : St) :
  (∀ (k : nat) x (st' : St),
     l !! k = Some x → body (i + Z.of_nat k) st' = f x st') →
  for_loop body (length l) i st = for_each f l st.
Proof.
  revert i st. induction l as [|x l IH]; intros i st Hbody; [done|].
  cbn [length for_loop for_each].
  rewrite <- (Hbody 0%nat x st eq_refl), Z.add_0_r.
  destruct (body i st); [|done..].
  apply IH. intros k y st' Hk.
  rewrite <- (Hbody (S k) y st' Hk). f_equal. lia.
Qed.

Lemma scan_transition_slot h g current node planned j slot s :
  transitions g !! Z.to_nat j = Some slot →
  scan_transition h g current node planned j s
  = scan_slot h current node planned slot s.
Proof.
  intros Hj. unfold scan_transition. by rewrite Hj.
Qed.

Lemma registered_length g :
  0 ≤ transitions_count g →
  (Z.to_nat (transitions_count g) ≤ length (transitions g))%nat →
  length (registered g) = Z.to_nat (transitions_count g).
Proof. intros ? ?. unfold registered. rewrite length_take. lia. Qed.

Lemma scan_loop_registered h g current node planned s :
  0 ≤ transitions_count g →
  (Z.to_nat (transitions_count g) ≤ length (transitions g))%nat →
  for_loop (scan_transition h g current node planned)
    (Z.to_nat (transitions_count g)) 0 s
  = for_each (scan_slot h current node planned) (registered g) s.
Proof.
  intros H0 Hlen. rewrite <- (registered_length g H0 Hlen).
  apply for_loop_for_each. intros k slot s' Hk.
  apply scan_transition_slot.
  unfold registered in Hk. apply lookup_take_Some in Hk as [Hk _].
  replace (Z.to_nat (0 + Z.of_nat k)) with k by lia. exact Hk.
Qed.

(** ** The search ends within its fuel and writes a prefix of the buffer *)

Lemma for_loop_inv {St} (P : St → Prop) (body : Z → St → outcome St) :
  (∀ i (st : St), P st →
     match body i st with
     | Next st' | Return _ st' => P st'
     | Undefined => True
     end) →
  ∀ n i (st : St), P st →
    match for_loop body n i st with
    | Next st' | Return _ st' => P st'
    | Undefined => True
    end.
Proof.
  intros Hbody. induction n as [|n IH]; intros i st HP; cbn; [done|].
  specialize (Hbody i st HP).
  destruct (body i st) as [st1|t st1|]; [|done..].
  by apply IH.
Qed.

Lemma scan_slot_ok h current node planned buffer slot s :
  (length buffer ≤ 255)%nat → 0 ≤ planned →
  scratch_ok planned buffer s →
  match scan_slot h current node planned slot s with
  | Next s' | Return _ s' => scratch_ok planned buffer s'
  | Undefined => True
  end.
Proof.
  intros HL Hp Hok. pose proof Hok as (Hoff & Hpl & Hvl & Hlen & Hdrop).
  unfold scan_slot.
  destruct slot as [t|]; [|done]. destruct (h !! t) as [tr|]; [|done].
  destruct (destination_node_index tr =? node); [|done].
  destruct (state tr); [done|].
  destruct (source_node_index tr =? current); [done|].
  destruct (is_visited _ _ _ _) as [[]|]; [done| |done].
  cbn zeta.
  destruct (Z.ltb_spec (planned + planned_length s)
              (Z.of_nat (length (buf s)))); [|done].
  unfold scratch_ok, u8. cbn. rewrite length_insert.
  rewrite !Z.mod_small by lia. split_and!; try lia.
  rewrite Hoff.
  replace (Z.to_nat (visited_length s + 1))
    with (Z.to_nat (visited_length s) + 1)%nat by lia.
  rewrite drop_insert_lt by lia.
  by rewrite <- !drop_drop, Hdrop.
Qed.

Lemma scan_node_ok h g current working planned buffer i s :
  (length buffer ≤ 255)%nat → 0 ≤ planned →
  scratch_ok planned buffer s →
  match scan_node h g current working planned i s with
  | Next s' | Return _ s' => scratch_ok planned buffer s'
  | Undefined => True
  end.
Proof.
  intros HL Hp Hok. unfold scan_node.
  destruct (buf s !! Z.to_nat (working + i)) as [node|]; [|done].
  apply for_loop_inv; [|done].
  intros j st Hst. unfold scan_transition.
  destruct (transitions g !! Z.to_nat j) as [slot|]; [|done].
  by apply scan_slot_ok.
Qed.

Lemma search_loop_ok h g current buffer :
  (length buffer ≤ 255)%nat →
  ∀ fuel index_planned s,
    0 ≤ index_planned →
    scratch_ok index_planned buffer s →
    match search_loop fuel h g current index_planned s with
    | Done (_, s') => ∃ planned, 0 ≤ planned ∧ scratch_ok planned buffer s'
    | Fault => True
    | Timeout => Z.of_nat fuel ≤ Z.of_nat (length buffer) - index_planned
    end.
Proof.
  intros HL. induction fuel as [|fuel IH]; intros index_planned s Hip Hok.
  { cbn. destruct Hok as (? & ? & ? & _). lia. }
  cbn [search_loop].
  destruct (Z.eqb_spec (planned_length s) 0) as [|Hne].
  { by exists index_planned. }
  pose proof Hok as (Hoff & Hpl & Hvl & Hlen & Hdrop).
  pose proof (for_loop_inv
                (scratch_ok (index_planned + planned_length s) buffer)
                (scan_node h g current index_planned
                   (index_planned + planned_length s))
                (λ i st, scan_node_ok h g current index_planned
                           (index_planned + planned_length s) buffer i st
                           HL ltac:(lia))
                (Z.to_nat (planned_length s)) 0
                (mkScratch (buf s) 0 (visited_length s))) as Hloop.
  destruct (for_loop _ _ _ _) as [s'|t s'|]; [| |done].
  - unfold u8. rewrite Z.mod_small by lia.
    specialize (IH (index_planned + planned_length s) s').
    destruct (search_loop fuel h g current _ s') as [[r s'']| |].
    + apply IH; [lia|]. apply Hloop. unfold scratch_ok. cbn.
      split_and!; try done; lia.
    + done.
    + assert (Z.of_nat fuel
              ≤ Z.of_nat (length buffer)
                - (index_planned + planned_length s)); [|lia].
      apply IH; [lia|]. apply Hloop. unfold scratch_ok. cbn.
      split_and!; try done; lia.
  - exists (index_planned + planned_length s). split; [lia|].
    apply Hloop. unfold scratch_ok. cbn. split_and!; try done; lia.
Qed.

(** Whatever the engine and the heap hold, the fuel of
    [GOFSM_SearchNextStep] is enough for a buffer of at most 255 slots,
    the most a [uint8_t] capacity can announce. *)
Lemma search_never_times_out h g :
  (length (alg_nodes_buffer g) ≤ 255)%nat →
  search_from search_fuel h g ≠ Timeout
  ∧ GOFSM_SearchNextStep h g ≠ Timeout.
Proof.
  intros Hlen.
  assert (search_from search_fuel h g ≠ Timeout) as Hfrom.
  { unfold search_from.
    destruct (Z.ltb_spec 0 (Z.of_nat (length (alg_nodes_buffer g))));
      [|done].
    pose proof (search_loop_ok h g (current_node_index g)
                  (alg_nodes_buffer g) Hlen search_fuel 0
                  (mkScratch
                     (<[Z.to_nat 0 := target_node_index g]>
                        (alg_nodes_buffer g)) 1 1)) as Hok.
    destruct (search_loop _ _ _ _ _ _) as [[r s']| |]; [done..|].
    unfold search_fuel in Hok. exfalso.
    assert (Z.of_nat 256 ≤ Z.of_nat (length (alg_nodes_buffer g)) - 0);
      [|lia].
    apply Hok; [lia|]. unfold scratch_ok. cbn. rewrite length_insert.
    split_and!; try done; try lia.
    by rewrite drop_insert_lt by lia. }
  split; [done|]. unfold GOFSM_SearchNextStep.
  by destruct (search_from search_fuel h g) as [[t s]| |].
Qed.

(** A search that returns has written the first [visited_length] slots of
    the buffer and no other. *)
Lemma search_writes_prefix fuel h g r s' :
  (length (alg_nodes_buffer g) ≤ 255)%nat →
  search_from fuel h g = Done (r, s') →
  0 ≤ visited_length s' ≤ Z.of_nat (length (alg_nodes_buffer g))
  ∧ length (buf s') = length (alg_nodes_buffer g)
  ∧ drop (Z.to_nat (visited_length s')) (buf s')
    = drop (Z.to_nat (visited_length s')) (alg_nodes_buffer g).
Proof.
  intros Hlen. unfold search_from.
  destruct (Z.ltb_spec 0 (Z.of_nat (length (alg_nodes_buffer g))));
    [|done].
  intros Hrun.
  pose proof (search_loop_ok h g (current_node_index g)
                (alg_nodes_buffer g) Hlen fuel 0
                (mkScratch
                   (<[Z.to_nat 0 := target_node_index g]>
                      (alg_nodes_buffer g)) 1 1)) as Hok.
  rewrite Hrun in Hok.
  destruct Hok as (planned & Hp & Hoff & Hpl & Hvl & Hl & Hdrop).
  { lia. }
  { unfold scratch_ok. cbn. rewrite length_insert.
    split_and!; try done; try lia.
    by rewrite drop_insert_lt by lia. }
  split_and!; try done; lia.
Qed.

(** ** The visited test reads the visited list *)

Lemma is_visited_middle (V1 V2 rest : list Z) (x : Z) :
  is_visited (V1 ++ V2 ++ rest) x (length V2) (Z.of_nat (length V1))
  = Some (bool_decide (x ∈ V2)).
Proof.
  revert V1. induction V2 as [|y V2 IH]; intros V1.
  - cbn. rewrite bool_decide_eq_false_2; [done|]. apply not_elem_of_nil.
  - cbn [length is_visited]. rewrite Nat2Z.id.
    change ((y :: V2) ++ rest) with (y :: (V2 ++ rest)).
    rewrite (list_lookup_middle V1 (V2 ++ rest) y (length V1) eq_refl).
    destruct (Z.eqb_spec y x) as [->|Hne].
    + rewrite bool_decide_eq_true_2; [done|]. left.
    + replace (Z.of_nat (length V1) + 1) with (Z.of_nat (length (V1 ++ [y])))
        by (rewrite length_app; cbn; lia).
      replace (V1 ++ y :: V2 ++ rest) with ((V1 ++ [y]) ++ V2 ++ rest)
        by (rewrite <- app_assoc; reflexivity).
      rewrite IH. f_equal. apply bool_decide_ext.
      rewrite elem_of_cons. intuition congruence.
Qed.

Lemma is_visited_prefix (V rest : list Z) (x : Z) :
  is_visited (V ++ rest) x (length V) 0 = Some (bool_decide (x ∈ V)).
Proof. exact (is_visited_middle [] V rest x). Qed.

(** ** The specification-level search only extends its lists *)

Lemma spec_scan_grows es C n V N r V' N' :
  spec_scan es C n V N = (r, (V', N')) →
  ∃ added, V' = V ++ added ∧ N' = N ++ added.
Proof.
  revert V N. induction es as [|[p tr] es IH]; intros V N H; cbn in H.
  - exists []. rewrite !app_nil_r. by simplify_eq.
  - destruct (destination_node_index tr =? n); [|by apply IH].
    destruct (state tr); [by apply IH|].
    destruct (source_node_index tr =? C).
    { exists []. rewrite !app_nil_r. by simplify_eq. }
    destruct (bool_decide _); [by apply IH|].
    apply IH in H as (added & -> & ->).
    exists (source_node_index tr :: added).
    by rewrite <- !app_assoc.
Qed.

Lemma spec_layer_grows es C F V N r V' N' :
  spec_layer es C F V N = (r, (V', N')) →
  ∃ added, V' = V ++ added ∧ N' = N ++ added.
Proof.
  revert V N. induction F as [|n F IH]; intros V N H; cbn in H.
  - exists []. rewrite !app_nil_r. by simplify_eq.
  - destruct (spec_scan es C n V N) as [[p|] [V1 N1]] eqn:Hscan;
      apply spec_scan_grows in Hscan as (a1 & -> & ->).
    + simplify_eq. by exists a1.
    + apply IH in H as (a2 & -> & ->).
      exists (a1 ++ a2). by rewrite !app_assoc.
Qed.

Lemma spec_search_grows fuel es C F V r V' :
  spec_search fuel es C F V = Some (r, V') → ∃ added, V' = V ++ added.
Proof.
  revert F V. induction fuel as [|fuel IH]; intros F V H; [done|].
  cbn in H. destruct F as [|n F].
  { exists []. rewrite app_nil_r. by simplify_eq. }
  destruct (spec_layer es C (n :: F) V []) as [[p|] [V1 N1]] eqn:Hl;
    apply spec_layer_grows in Hl as (a1 & -> & ->).
  - simplify_eq. by exists a1.
  - apply IH in H as (a2 & ->). exists (a1 ++ a2). by rewrite app_assoc.
Qed.

(** ** The buffer implements the lists *)

Ltac solve_app :=
  cbn [app]; repeat (rewrite <- app_assoc; cbn [app]); reflexivity.

Lemma Rep_push planned s V N x :
  Rep planned s V N →
  (length V < length (buf s))%nat →
  Rep planned
    (mkScratch (<[Z.to_nat (planned + planned_length s) := x]> (buf s))
       (u8 (planned_length s + 1)) (u8 (visited_length s + 1)))
    (V ++ [x]) (N ++ [x]).
Proof.
  intros ([rest Hbuf] & Hvl & Hpl & Hpos & Hoff & Hcap) Hlt.
  rewrite Hbuf in Hlt, Hcap. rewrite length_app in Hlt, Hcap.
  destruct rest as [|y rest]; [cbn in Hlt; lia|]. cbn in Hcap.
  assert (length N ≤ length V)%nat by lia.
  unfold Rep; cbn [buf planned_length visited_length].
  rewrite Hpl, Hvl, Hoff, Nat2Z.id, !length_app, length_insert.
  cbn [length]. unfold u8.
  rewrite !Z.mod_small by lia.
  split_and!; try lia.
  - exists rest. rewrite Hbuf.
    rewrite insert_app_r_alt by lia.
    rewrite Nat.sub_diag. cbn. by rewrite <- app_assoc.
  - rewrite Hbuf, length_app. cbn. lia.
Qed.

Lemma scan_sim h current node planned slots es :
  Forall2 (λ slot e, resolve h slot = Some e) slots es →
  ∀ s V N r V' N',
    Rep planned s V N →
    spec_scan es current node V N = (r, (V', N')) →
    (length V' ≤ length (buf s))%nat →
    ∃ s',
      for_each (scan_slot h current node planned) slots s
      = match r with Some p => Return p s' | None => Next s' end
      ∧ Rep planned s' V' N' ∧ length (buf s') = length (buf s).
Proof.
  induction 1 as [|slot [p tr] slots es Hres _ IH];
    intros s V N r V' N' HR Hspec Hcap; cbn in Hspec.
  { simplify_eq. by exists s. }
  unfold resolve in Hres. destruct slot as [q|]; [|done].
  cbn in Hres. destruct (h !! q) as [tr'|] eqn:Hq; [|done].
  cbn in Hres. simplify_eq.
  cbn [for_each]. unfold scan_slot at 1. rewrite Hq.
  destruct (destination_node_index tr =? node); [|by eapply IH].
  destruct (state tr); [by eapply IH|].
  destruct (source_node_index tr =? current).
  { simplify_eq. by exists s. }
  pose proof HR as ([rest Hbuf] & Hvl & Hpl & Hpos & Hoff & Hlen).
  assert (is_visited (buf s) (source_node_index tr)
            (Z.to_nat (visited_length s)) 0
          = Some (bool_decide (source_node_index tr ∈ V))) as ->.
  { rewrite Hvl, Nat2Z.id, Hbuf. apply is_visited_prefix. }
  destruct (bool_decide (source_node_index tr ∈ V)); [by eapply IH|].
  pose proof Hspec as Hgrow.
  apply spec_scan_grows in Hgrow as (added & -> & _).
  rewrite !length_app in Hcap. cbn in Hcap.
  assert (length V < length (buf s))%nat as Hlt by lia.
  cbn zeta.
  destruct (Z.ltb_spec (planned + planned_length s)
              (Z.of_nat (length (buf s)))) as [_|Hge]; [|lia].
  edestruct IH as (s' & Hrun & HR' & Hlen');
    [by apply (Rep_push _ _ _ _ (source_node_index tr) HR Hlt)
    |exact Hspec| |].
  { cbn. rewrite length_insert, !length_app. cbn. lia. }
  exists s'. split_and!; [done..|].
  rewrite Hlen'. cbn. by rewrite length_insert.
Qed.

Lemma layer_sim h g current es B :
  graph h g = Some es →
  0 ≤ transitions_count g →
  (Z.to_nat (transitions_count g) ≤ length (transitions g))%nat →
  ∀ F2 F1 s N r V' N',
    let planned := Z.of_nat (length (B ++ F1 ++ F2)) in
    Rep planned s (B ++ F1 ++ F2 ++ N) N →
    spec_layer es current F2 (B ++ F1 ++ F2 ++ N) N = (r, (V', N')) →
    (length V' ≤ length (buf s))%nat →
    ∃ s',
      for_loop (scan_node h g current (Z.of_nat (length B)) planned)
        (length F2) (Z.of_nat (length F1)) s
      = match r with Some p => Return p s' | None => Next s' end
      ∧ Rep planned s' V' N' ∧ length (buf s') = length (buf s).
Proof.
  intros Hgraph Hcount Hslots.
  apply mapM_Some in Hgraph.
  induction F2 as [|n F2 IH]; intros F1 s N r V' N' planned HR Hspec Hcap;
    cbn in Hspec.
  { simplify_eq. by exists s. }
  change (B ++ F1 ++ (n :: F2) ++ N) with (B ++ F1 ++ n :: F2 ++ N) in *.
  cbn [length for_loop]. unfold scan_node at 1.
  pose proof HR as ([rest Hbuf] & _).
  assert (buf s !! Z.to_nat (Z.of_nat (length B) + Z.of_nat (length F1))
          = Some n) as ->.
  { rewrite Hbuf.
    replace (Z.to_nat (Z.of_nat (length B) + Z.of_nat (length F1)))
      with (length (B ++ F1)) by (rewrite length_app; lia).
    replace ((B ++ F1 ++ n :: F2 ++ N) ++ rest)
      with ((B ++ F1) ++ n :: (F2 ++ N ++ rest))
      by solve_app.
    by apply list_lookup_middle. }
  rewrite scan_loop_registered by done.
  destruct (spec_scan es current n (B ++ F1 ++ n :: F2 ++ N) N)
    as [r1 [V1 N1]] eqn:Hscan.
  pose proof Hscan as (a1 & HV1 & HN1)%spec_scan_grows.
  assert (length V1 ≤ length V')%nat as Hmono.
  { destruct r1; [by simplify_eq|].
    apply spec_layer_grows in Hspec as (a2 & -> & _).
    rewrite length_app. lia. }
  destruct (scan_sim h current n planned _ _ Hgraph _ _ _ _ _ _ HR Hscan)
    as (s1 & -> & HR1 & Hlen1); [lia|].
  destruct r1 as [p|].
  { simplify_eq. by exists s1. }
  subst V1 N1.
  replace ((B ++ F1 ++ n :: F2 ++ N) ++ a1)
    with (B ++ (F1 ++ [n]) ++ F2 ++ N ++ a1) in *
    by solve_app.
  replace (Z.of_nat (length F1) + 1) with (Z.of_nat (length (F1 ++ [n])))
    by (rewrite length_app; cbn; lia).
  assert (planned = Z.of_nat (length (B ++ (F1 ++ [n]) ++ F2))) as Hpl.
  { unfold planned. f_equal. f_equal. solve_app. }
  rewrite Hpl in HR1 |- *.
  edestruct (IH (F1 ++ [n]) s1 (N ++ a1)) as (s' & Hrun & HR' & Hlen');
    [exact HR1|exact Hspec|lia|].
  exists s'. split_and!; [done..|congruence].
Qed.

Lemma search_sim h g current es :
  graph h g = Some es →
  0 ≤ transitions_count g →
  (Z.to_nat (transitions_count g) ≤ length (transitions g))%nat →
  ∀ fuel B F s r Vf,
    Rep (Z.of_nat (length B)) s (B ++ F) F →
    spec_search fuel es current F (B ++ F) = Some (r, Vf) →
    (length Vf ≤ length (buf s))%nat →
    ∃ s',
      search_loop fuel h g current (Z.of_nat (length B)) s = Done (r, s')
      ∧ Vf `prefix_of` buf s'
      ∧ visited_length s' = Z.of_nat (length Vf)
      ∧ length (buf s') = length (buf s).
Proof.
  intros Hgraph Hcount Hslots.
  induction fuel as [|fuel IH]; intros B F s r Vf HR Hspec Hcap; [done|].
  cbn in Hspec. cbn [search_loop].
  pose proof HR as (Hpre & Hvl & Hpl & Hpos & Hoff & Hlen).
  destruct F as [|n F].
  { rewrite Hpl. cbn. simplify_eq. by exists s. }
  destruct (Z.eqb_spec (planned_length s) 0) as [H0|_].
  { rewrite Hpl in H0. cbn in H0. lia. }
  set (F0 := n :: F) in *.
  destruct (spec_layer es current F0 (B ++ F0) []) as [r1 [V1 N1]] eqn:Hl.
  pose proof Hl as (a1 & HV1 & HN1)%spec_layer_grows.
  cbn in HN1. subst V1 N1.
  assert (length ((B ++ F0) ++ a1) ≤ length Vf)%nat as Hmono.
  { destruct r1; [by simplify_eq|].
    apply spec_search_grows in Hspec as (a2 & ->).
    rewrite (length_app _ a2). lia. }
  assert (length (B ++ F0) ≤ 255)%nat as Hsmall.
  { rewrite length_app in Hmono. lia. }
  edestruct (layer_sim h g current es B Hgraph Hcount Hslots F0 []
               (mkScratch (buf s) 0 (visited_length s)) [])
    as (s1 & Hrun & HR1 & Hlen1).
  { cbn [app]. rewrite app_nil_r. unfold Rep. cbn.
    split_and!; try done; lia. }
  { cbn [app]. rewrite app_nil_r. exact Hl. }
  { cbn. lia. }
  cbn [app length] in Hrun, HR1.
  rewrite Hpl.
  replace (Z.of_nat (length B) + Z.of_nat (length F0))
    with (Z.of_nat (length (B ++ F0))) by (rewrite length_app; lia).
  rewrite Nat2Z.id. change (Z.of_nat 0) with 0 in Hrun.
  rewrite Hrun. cbn in Hlen1.
  destruct r1 as [p|].
  { simplify_eq. exists s1.
    destruct HR1 as (? & ? & _). by split_and!. }
  unfold u8. rewrite Z.mod_small by lia.
  edestruct (IH (B ++ F0) a1 s1) as (s' & Hrun' & ? & ? & Hlen');
    [exact HR1|exact Hspec|lia|].
  exists s'. split_and!; [done..|congruence].
Qed.

(** The search of the source returns what the specification's search
    returns, whenever the visited list fits the scratch buffer. *)
Lemma search_from_refines fuel h g es r Vf :
  graph h g = Some es →
  0 ≤ transitions_count g →
  (Z.to_nat (transitions_count g) ≤ length (transitions g))%nat →
  (length (alg_nodes_buffer g) ≤ 255)%nat →
  spec_search_from fuel es (current_node_index g) (target_node_index g)
  = Some (r, Vf) →
  (length Vf ≤ length (alg_nodes_buffer g))%nat →
  ∃ s',
    search_from fuel h g = Done (r, s')
    ∧ Vf `prefix_of` buf s'
    ∧ visited_length s' = Z.of_nat (length Vf)
    ∧ length (buf s') = length (alg_nodes_buffer g).
Proof.
  intros Hgraph Hcount Hslots Hlen Hspec Hcap.
  unfold spec_search_from in Hspec. unfold search_from.
  pose proof Hspec as (a & ->)%spec_search_grows.
  cbn in Hcap.
  destruct (alg_nodes_buffer g) as [|b0 rest] eqn:Hbuf; [cbn in Hcap; lia|].
  cbn [length]. destruct (Z.ltb_spec 0 (Z.of_nat (S (length rest))));
    [|lia].
  edestruct (search_sim h g (current_node_index g) es Hgraph Hcount Hslots
               fuel [] [target_node_index g]
               (mkScratch (<[Z.to_nat 0 := target_node_index g]> (b0 :: rest))
                  1 1))
    as (s' & Hrun & ? & ? & Hlen'); [|exact Hspec| |].
  - unfold Rep. cbn. split_and!; try done; try lia. by exists rest.
  - exact Hcap.
  - exists s'. by split_and!.
Qed.

(** ** What one scan and one layer of the specification's search find *)

(** A returned transition is the first one, in registration order, that
    is enabled, leads into [n] and starts at [C]. *)
Lemma spec_scan_found es C n V N p V' N' :
  spec_scan es C n V N = (Some p, (V', N')) →
  ∃ es1 tr es2,
    es = es1 ++ (p, tr) :: es2
    ∧ Available tr ∧ source_node_index tr = C
    ∧ destination_node_index tr = n
    ∧ ∀ q tq, (q, tq) ∈ es1 →
        ¬ (Available tq ∧ source_node_index tq = C
           ∧ destination_node_index tq = n).
Proof.
  revert V N. induction es as [|[q tq] es IH]; intros V N H; cbn in H;
    [done|].
  assert (∀ V N, spec_scan es C n V N = (Some p, (V', N')) →
            ¬ (Available tq ∧ source_node_index tq = C
               ∧ destination_node_index tq = n) →
            ∃ es1 tr es2,
              (q, tq) :: es = es1 ++ (p, tr) :: es2
              ∧ Available tr ∧ source_node_index tr = C
              ∧ destination_node_index tr = n
              ∧ ∀ q' tq', (q', tq') ∈ es1 →
                  ¬ (Available tq' ∧ source_node_index tq' = C
                     ∧ destination_node_index tq' = n)) as Hskip.
  { intros V0 N0 H0 Hno.
    destruct (IH _ _ H0) as (es1 & tr & es2 & -> & ? & ? & ? & Hfirst).
    exists ((q, tq) :: es1), tr, es2. split_and!; try done.
    intros q' tq' [?|?]%elem_of_cons; [by simplify_eq|by eapply Hfirst]. }
  unfold Available in *.
  destruct (Z.eqb_spec (destination_node_index tq) n) as [Hd|Hd];
    [|eapply Hskip; [done|tauto]].
  destruct (state tq) eqn:Hst; [eapply Hskip; [done|]; intros (? & _); done|].
  destruct (Z.eqb_spec (source_node_index tq) C) as [Hs|Hs].
  { simplify_eq. exists [], tq, es. split_and!; try done.
    intros ? ? ?%elem_of_nil. done. }
  destruct (bool_decide _); (eapply Hskip; [done|tauto]).
Qed.

(** Without a return, no enabled transition into [n] starts at [C], and
    the source of each of them is visited afterwards. *)
Lemma spec_scan_none es C n V N V' N' :
  spec_scan es C n V N = (None, (V', N')) →
  ∀ v, edge es v n → v ≠ C ∧ v ∈ V'.
Proof.
  revert V N. induction es as [|[q tq] es IH]; intros V N H v;
    intros (p & tr & Hin & Hav & Hsrc & Hdst).
  { by apply elem_of_nil in Hin. }
  cbn in H.
  assert (∀ V0 N0, spec_scan es C n V0 N0 = (None, (V', N')) →
            (p, tr) ∈ es → v ≠ C ∧ v ∈ V') as Hrec.
  { intros V0 N0 H0 Hin'. eapply IH; [done|]. by exists p, tr. }
  assert (∀ V0 N0, spec_scan es C n V0 N0 = (None, (V', N')) →
            v ∈ V0 → v ∈ V') as Hkeep.
  { intros V0 N0 (a & -> & _)%spec_scan_grows ?. apply elem_of_app. by left. }
  apply elem_of_cons in Hin as [Heq|Hin].
  - injection Heq as -> ->. subst v n. unfold Available in Hav.
    rewrite Z.eqb_refl, Hav in H.
    destruct (Z.eqb_spec (source_node_index tq) C); [done|].
    split; [done|].
    case_bool_decide; eapply Hkeep; [done..|].
    apply elem_of_app. right. left.
  - destruct (destination_node_index tq =? n); [|by eapply Hrec].
    destruct (state tq); [by eapply Hrec|].
    destruct (source_node_index tq =? C); [done|].
    destruct (bool_decide _); by eapply Hrec.
Qed.

(** What a scan adds are new nodes, sources of enabled transitions into
    [n]. *)
Lemma spec_scan_added es C n V N r V' N' :
  spec_scan es C n V N = (r, (V', N')) →
  ∃ added,
    V' = V ++ added ∧ N' = N ++ added
    ∧ (∀ v, v ∈ added → edge es v n)
    ∧ (NoDup V → NoDup V').
Proof.
  revert V N. induction es as [|[q tq] es IH]; intros V N H; cbn in H.
  { exists []. rewrite !app_nil_r. simplify_eq. split_and!; try done.
    intros ? ?%elem_of_nil. done. }
  assert (∀ V0 N0 pre,
            V0 = V ++ pre → N0 = N ++ pre →
            (∀ v, v ∈ pre → edge ((q, tq) :: es) v n) →
            (NoDup V → NoDup V0) →
            spec_scan es C n V0 N0 = (r, (V', N')) →
            ∃ added,
              V' = V ++ added ∧ N' = N ++ added
              ∧ (∀ v, v ∈ added → edge ((q, tq) :: es) v n)
              ∧ (NoDup V → NoDup V')) as Hrec.
  { intros V0 N0 pre -> -> Hpre Hnd (a & -> & -> & Ha & Hnd')%IH.
    exists (pre ++ a). rewrite !app_assoc. split_and!; try done; [|tauto].
    intros v [?|Hv]%elem_of_app; [by apply Hpre|].
    destruct (Ha v Hv) as (p & tr & ? & ?).
    exists p, tr. split; [by right|done]. }
  assert (∀ V0 N0, V0 = V → N0 = N →
            spec_scan es C n V0 N0 = (r, (V', N')) →
            ∃ added,
              V' = V ++ added ∧ N' = N ++ added
              ∧ (∀ v, v ∈ added → edge ((q, tq) :: es) v n)
              ∧ (NoDup V → NoDup V')) as Hsame.
  { intros V0 N0 -> -> H0. apply (Hrec V N []); rewrite ?app_nil_r; try done.
    intros ? ?%elem_of_nil. done. }
  destruct (Z.eqb_spec (destination_node_index tq) n) as [Hd|Hd];
    [|by eapply Hsame].
  destruct (state tq) eqn:Hst; [by eapply Hsame|].
  destruct (Z.eqb_spec (source_node_index tq) C) as [Hs|Hs].
  { exists []. rewrite !app_nil_r. simplify_eq. split_and!; try done.
    intros ? ?%elem_of_nil. done. }
  case_bool_decide as Hvis; [by eapply Hsame|].
  eapply (Hrec _ _ [source_node_index tq]); [done|done| | |exact H].
  - intros v ->%list_elem_of_singleton. exists q, tq.
    split_and!; try done. left.
  - intros Hnd. apply NoDup_app. split_and!; try done.
    + intros x Hx ->%list_elem_of_singleton. done.
    + apply NoDup_singleton.
Qed.

(** A layer returns the first hit in scan order: frontier nodes in the
    order of the frontier, and for each node the transitions in
    registration order. *)
Lemma spec_layer_found es C F V N p V' N' :
  spec_layer es C F V N = (Some p, (V', N')) →
  ∃ F1 n F2 es1 tr es2,
    F = F1 ++ n :: F2 ∧ es = es1 ++ (p, tr) :: es2
    ∧ Available tr ∧ source_node_index tr = C
    ∧ destination_node_index tr = n
    ∧ (∀ m, m ∈ F1 → ¬ edge es C m)
    ∧ (∀ q tq, (q, tq) ∈ es1 →
         ¬ (Available tq ∧ source_node_index tq = C
            ∧ destination_node_index tq = n)).
Proof.
  revert V N. induction F as [|m F IH]; intros V N H; cbn in H; [done|].
  destruct (spec_scan es C m V N) as [[q|] [V1 N1]] eqn:Hscan.
  - simplify_eq.
    apply spec_scan_found in Hscan as (es1 & tr & es2 & ? & ? & ? & ? & ?).
    exists [], m, F, es1, tr, es2. split_and!; try done.
    intros ? ?%elem_of_nil. done.
  - apply IH in H as (F1 & n & F2 & es1 & tr & es2 & -> & ? & ? & ? & ? & Hno
                      & ?).
    exists (m :: F1), n, F2, es1, tr, es2. split_and!; try done.
    intros m' [->|?]%elem_of_cons; [|by apply Hno].
    intros Hedge. by destruct (spec_scan_none _ _ _ _ _ _ _ Hscan C Hedge).
Qed.

Lemma spec_layer_none es C F V N V' N' :
  spec_layer es C F V N = (None, (V', N')) →
  ∀ m v, m ∈ F → edge es v m → v ≠ C ∧ v ∈ V'.
Proof.
  revert V N. induction F as [|n F IH]; intros V N H m v Hm Hedge; cbn in H.
  { by apply elem_of_nil in Hm. }
  destruct (spec_scan es C n V N) as [[q|] [V1 N1]] eqn:Hscan; [done|].
  apply elem_of_cons in Hm as [->|Hm]; [|by eapply IH].
  destruct (spec_scan_none _ _ _ _ _ _ _ Hscan v Hedge) as [? Hin].
  split; [done|].
  apply spec_layer_grows in H as (a & -> & _). apply elem_of_app. by left.
Qed.

Lemma spec_layer_added es C F V N r V' N' :
  spec_layer es C F V N = (r, (V', N')) →
  ∃ added,
    V' = V ++ added ∧ N' = N ++ added
    ∧ (∀ v, v ∈ added → ∃ m, m ∈ F ∧ edge es v m)
    ∧ (NoDup V → NoDup V').
Proof.
  revert V N. induction F as [|n F IH]; intros V N H; cbn in H.
  { exists []. rewrite !app_nil_r. simplify_eq. split_and!; try done.
    intros ? ?%elem_of_nil. done. }
  destruct (spec_scan es C n V N) as [r1 [V1 N1]] eqn:Hscan.
  apply spec_scan_added in Hscan as (a1 & -> & -> & Ha1 & Hnd1).
  assert (∀ v, v ∈ a1 → ∃ m, m ∈ n :: F ∧ edge es v m) as Ha1'.
  { intros v Hv. exists n. split; [left|by apply Ha1]. }
  destruct r1 as [q|].
  { simplify_eq. by exists a1. }
  apply IH in H as (a2 & -> & -> & Ha2 & Hnd2).
  exists (a1 ++ a2). rewrite !app_assoc. split_and!; try done; [|tauto].
  intros v [?|Hv]%elem_of_app; [by apply Ha1'|].
  destruct (Ha2 v Hv) as (m & ? & ?). exists m. split; [by right|done].
Qed.

(** ** The specification's search finds a first step of a shortest path *)

Lemma bfs_inv_init es T C : C ≠ T → bfs_inv es T C 0 [T] [T].
Proof.
  intros Hne. split_and!.
  - intros v. rewrite list_elem_of_singleton. split.
    + intros ->. exists 0%nat. split; [lia|constructor].
    + intros (m & Hm & Hp). assert (m = 0%nat) as -> by lia.
      by inversion Hp.
  - intros v ->%list_elem_of_singleton. constructor.
  - intros v Hp. left. inversion Hp. apply list_elem_of_singleton. done.
  - by intros ->%list_elem_of_singleton.
Qed.

Lemma bfs_inv_step es T C k F V V' N' :
  bfs_inv es T C k F V →
  spec_layer es C F V [] = (None, (V', N')) →
  bfs_inv es T C (S k) N' V'.
Proof.
  intros (I1 & I2 & I3 & I4) Hl.
  pose proof (spec_layer_none _ _ _ _ _ _ _ Hl) as Hnone.
  apply spec_layer_added in Hl as (a & -> & HN & Ha & _).
  cbn in HN. subst N'.
  assert (∀ v, v ∈ a → path_to es T (S k) v) as Hnew.
  { intros v (m & Hm & Hedge)%Ha. econstructor; [done|]. by apply I2. }
  assert (∀ v, path_to es T (S k) v → v ∈ V ++ a) as Hfar.
  { intros v Hp. inversion Hp as [|k' u w Hedge Hw]; subst.
    destruct (I3 w Hw) as [HwF|(m & Hm & Hpm)].
    - by apply (Hnone w v).
    - apply elem_of_app. left. apply I1. exists (S m).
      split; [lia|]. by econstructor. }
  split_and!.
  - intros v. rewrite elem_of_app. split.
    + intros [(m & ? & ?)%I1|?%Hnew].
      * exists m. split; [lia|done].
      * by exists (S k).
    + intros (m & Hm & Hp).
      destruct (decide (m = S k)) as [->|].
      * by apply elem_of_app, Hfar.
      * left. apply I1. exists m. split; [lia|done].
  - exact Hnew.
  - intros v Hp. apply Hfar in Hp.
    apply elem_of_app in Hp as [(m & ? & ?)%I1|?]; [|by left].
    right. exists m. split; [lia|done].
  - intros [?|Hin]%elem_of_app; [done|].
    destruct (Ha C Hin) as (m & Hm & Hedge).
    by destruct (Hnone m C Hm Hedge).
Qed.

(** When the frontier is empty no node is farther than the visited ones,
    so [C], which is not visited, cannot reach [T]. *)
Lemma bfs_inv_exhausted es T C k V :
  bfs_inv es T C k [] V → ¬ reachable es T C.
Proof.
  intros (I1 & _ & I3 & I4) [m Hp].
  assert (∀ m v, path_to es T m v → ∃ m', (m' < k)%nat ∧ path_to es T m' v)
    as Hnear.
  { clear m Hp. assert (∀ j v, j = k → path_to es T j v →
                          ∃ m', (m' < k)%nat ∧ path_to es T m' v) as Hk.
    { intros j v -> Hp. destruct (I3 v Hp) as [?%elem_of_nil|?]; done. }
    induction m as [|m IH]; intros v Hp.
    - destruct k; [by apply (Hk 0%nat)|]. exists 0%nat. split; [lia|done].
    - inversion Hp as [|m1 u w Hedge Hw]; subst.
      destruct (IH w Hw) as (m' & Hm' & Hpm').
      assert (path_to es T (S m') v) as Hp' by by econstructor.
      destruct (decide (S m' = k)) as [Heq|].
      + by apply (Hk (S m')).
      + exists (S m'). split; [lia|done]. }
  destruct (Hnear m C Hp) as (m' & ? & ?).
  apply I4, I1. exists m'. split; [lia|done].
Qed.

Lemma spec_search_correct es T C fuel :
  ∀ k F V r Vf,
    bfs_inv es T C k F V →
    spec_search fuel es C F V = Some (r, Vf) →
    match r with
    | Some p =>
        ∃ tr n,
          (p, tr) ∈ es ∧ Available tr ∧ source_node_index tr = C
          ∧ path_to es T n (destination_node_index tr)
          ∧ ∀ m, path_to es T m C → (S n ≤ m)%nat
    | None => ¬ reachable es T C
    end.
Proof.
  induction fuel as [|fuel IH]; intros k F V r Vf Hinv H; [done|].
  cbn in H. destruct F as [|n F].
  { simplify_eq. by eapply bfs_inv_exhausted. }
  destruct (spec_layer es C (n :: F) V []) as [[p|] [V1 N1]] eqn:Hl.
  - simplify_eq.
    apply spec_layer_found in Hl
      as (F1 & n' & F2 & es1 & tr & es2 & HF & -> & ? & ? & Hd & _).
    destruct Hinv as (I1 & I2 & _ & I4).
    exists tr, k. split_and!; try done.
    + apply elem_of_app. right. left.
    + apply I2. rewrite HF, Hd. apply elem_of_app. right. left.
    + intros m Hp. destruct (decide (m ≤ k)%nat); [|lia].
      exfalso. apply I4, I1. by exists m.
  - eapply IH; [|exact H]. by eapply bfs_inv_step.
Qed.

(** ** The visited list fits the scratch region *)

Lemma NoDup_bounded_length (V : list Z) (capacity : Z) :
  NoDup V → (∀ v, v ∈ V → 0 ≤ v < capacity) →
  Z.of_nat (length V) ≤ Z.max 0 capacity.
Proof.
  intros Hnd Hin.
  assert (V ⊆+ seqZ 0 capacity) as Hsub.
  { apply NoDup_submseteq; [done|]. intros v Hv.
    apply elem_of_seqZ. specialize (Hin v Hv). lia. }
  apply submseteq_length in Hsub. rewrite length_seqZ in Hsub. lia.
Qed.

Lemma in_capacity_length capacity T (V : list Z) :
  1 ≤ capacity → NoDup V → in_capacity capacity T V →
  Z.of_nat (length V) ≤ capacity.
Proof.
  intros Hcap Hnd [->|Hin]; [cbn; lia|].
  pose proof (NoDup_bounded_length V capacity Hnd Hin). lia.
Qed.

Lemma in_capacity_added es capacity T (F V added : list Z) :
  node_domain_fits es capacity →
  in_capacity capacity T V →
  (∀ m, m ∈ F → m ∈ V) →
  (∀ v, v ∈ added → ∃ m, m ∈ F ∧ edge es v m) →
  in_capacity capacity T (V ++ added).
Proof.
  intros Hfits HV HF Hadd.
  destruct added as [|v0 added]; [by rewrite app_nil_r|].
  right.
  assert (∀ v, v ∈ V → 0 ≤ v < capacity) as HV'.
  { destruct HV as [->|HV]; [|done].
    destruct (Hadd v0) as (m & Hm & p & tr & Hin & _ & _ & Hd); [left|].
    apply HF, list_elem_of_singleton in Hm. subst m.
    intros v ->%list_elem_of_singleton. rewrite <- Hd.
    by apply (Hfits p tr). }
  intros v [?|Hv]%elem_of_app; [by apply HV'|].
  destruct (Hadd v Hv) as (m & _ & p & tr & Hin & _ & Hs & _).
  rewrite <- Hs. by apply (Hfits p tr).
Qed.

(** With the node domain inside the capacity the specification's search
    ends within [capacity + 1] evaluations of its loop condition, and its
    visited list has no duplicates and fits. *)
Lemma spec_search_total es C T capacity :
  node_domain_fits es capacity → 1 ≤ capacity →
  ∀ fuel B F,
    NoDup (B ++ F) → in_capacity capacity T (B ++ F) →
    capacity < Z.of_nat fuel + Z.of_nat (length B) →
    ∃ r Vf,
      spec_search fuel es C F (B ++ F) = Some (r, Vf)
      ∧ NoDup Vf ∧ in_capacity capacity T Vf.
Proof.
  intros Hfits Hcap. induction fuel as [|fuel IH]; intros B F Hnd HV Hfuel.
  { pose proof (in_capacity_length _ _ _ Hcap Hnd HV) as Hlen.
    rewrite length_app in Hlen. lia. }
  cbn [spec_search]. destruct F as [|n F].
  { by exists None, (B ++ []). }
  set (F0 := n :: F) in *.
  destruct (spec_layer es C F0 (B ++ F0) []) as [r1 [V1 N1]] eqn:Hl.
  apply spec_layer_added in Hl as (a & -> & HN & Ha & Hnd').
  cbn in HN. subst N1.
  assert (in_capacity capacity T ((B ++ F0) ++ a)) as HV'.
  { eapply in_capacity_added; [done..| |done].
    intros m Hm. apply elem_of_app. by right. }
  destruct r1 as [p|].
  { exists (Some p), ((B ++ F0) ++ a). split_and!; [done|tauto|done]. }
  apply (IH (B ++ F0) a); [tauto|done|].
  rewrite length_app. cbn [F0 length]. lia.
Qed.

(** ** The search of the source on a configured engine *)

Lemma configured_bounds g :
  configured g →
  0 ≤ transitions_count g
  ∧ (Z.to_nat (transitions_count g) ≤ length (transitions g))%nat
  ∧ (length (alg_nodes_buffer g) ≤ 255)%nat
  ∧ Z.of_nat (length (alg_nodes_buffer g)) = nodes_capacity g.
Proof. unfold configured, is_u8. lia. Qed.

(** The search ends without fault or timeout, agrees with the
    specification's search, and leaves the visited list, free of
    duplicates, in the first [visited_length] slots of the buffer. *)
Lemma search_from_spec h g es :
  graph h g = Some es →
  configured g →
  node_domain_fits es (nodes_capacity g) →
  1 ≤ nodes_capacity g →
  ∃ r s' Vf,
    search_from search_fuel h g = Done (r, s')
    ∧ spec_search_from search_fuel es (current_node_index g)
        (target_node_index g) = Some (r, Vf)
    ∧ NoDup Vf
    ∧ Vf `prefix_of` buf s'
    ∧ visited_length s' = Z.of_nat (length Vf)
    ∧ length (buf s') = length (alg_nodes_buffer g).
Proof.
  intros Hgraph Hconf Hfits Hcap.
  destruct (configured_bounds g Hconf) as (Hcount & Hslots & Hlen & Hnc).
  destruct (spec_search_total es (current_node_index g) (target_node_index g)
              (nodes_capacity g) Hfits Hcap search_fuel []
              [target_node_index g]) as (r & Vf & Hspec & Hnd & HVf).
  { apply NoDup_singleton. }
  { by left. }
  { unfold search_fuel. cbn. lia. }
  pose proof (in_capacity_length _ _ _ Hcap Hnd HVf) as HlenV.
  destruct (search_from_refines search_fuel h g es r Vf Hgraph Hcount Hslots
              Hlen Hspec) as (s' & Hrun & Hpre & Hvl & Hlen'); [lia|].
  exists r, s', Vf. by split_and!.
Qed.

Lemma graph_elem h g es t tr :
  graph h g = Some es → (t, tr) ∈ es →
  Some t ∈ registered g ∧ h !! t = Some tr.
Proof.
  intros Hgraph%mapM_Some Hin.
  apply list_elem_of_lookup in Hin as [i Hi].
  destruct (Forall2_lookup_r _ _ _ _ _ Hgraph Hi) as (slot & Hslot & Hres).
  unfold resolve in Hres. destruct slot as [q|]; [|done].
  cbn in Hres. destruct (h !! q) as [tr'|] eqn:Hq; [|done].
  cbn in Hres. simplify_eq. split; [|done].
  apply list_elem_of_lookup. by exists i.
Qed.

Lemma search_next_step_spec h g es :
  graph h g = Some es →
  configured g →
  node_domain_fits es (nodes_capacity g) →
  1 ≤ nodes_capacity g →
  ∃ r b Vf,
    GOFSM_SearchNextStep h g = Done (r, set_alg_nodes_buffer b g)
    ∧ length b = length (alg_nodes_buffer g)
    ∧ spec_search_from search_fuel es (current_node_index g)
        (target_node_index g) = Some (r, Vf).
Proof.
  intros Hgraph Hconf Hfits Hcap.
  destruct (search_from_spec h g es Hgraph Hconf Hfits Hcap)
    as (r & s' & Vf & Hrun & Hspec & _ & _ & _ & Hlen).
  exists r, (buf s'), Vf. unfold GOFSM_SearchNextStep. rewrite Hrun.
  by split_and!.
Qed.

(** ** Blocked transitions are invisible to the search *)

Lemma spec_scan_enabled es C n V N :
  spec_scan (enabled_edges es) C n V N = spec_scan es C n V N.
Proof.
  revert V N. induction es as [|[p tr] es IH]; intros V N; [done|].
  unfold enabled_edges in *. cbn. unfold is_available at 1. cbn.
  destruct (state tr) eqn:Hst.
  - rewrite IH. by destruct (destination_node_index tr =? n).
  - cbn. rewrite Hst, !IH. reflexivity.
Qed.

Lemma spec_layer_enabled es C F V N :
  spec_layer (enabled_edges es) C F V N = spec_layer es C F V N.
Proof.
  revert V N. induction F as [|n F IH]; intros V N; [done|].
  cbn. rewrite spec_scan_enabled.
  destruct (spec_scan es C n V N) as [[p|] [V1 N1]]; [done|apply IH].
Qed.

Lemma spec_search_enabled fuel es C F V :
  spec_search fuel (enabled_edges es) C F V = spec_search fuel es C F V.
Proof.
  revert F V. induction fuel as [|fuel IH]; intros F V; [done|].
  cbn. destruct F as [|n F]; [done|]. rewrite spec_layer_enabled.
  destruct (spec_layer es C (n :: F) V []) as [[p|] [V1 N1]]; [done|apply IH].
Qed.

(** ** C3: the search returns the first step of a shortest path *)

(** C3. On a configured engine whose registry is valid and whose node
    domain fits the scratch region, with current node [C] different from
    target node [T]: if [T] can be reached from [C] through Available
    transitions, [GOFSM_SearchNextStep] returns a registered Available
    transition that starts at [C] and whose destination is [n] transitions
    away from [T], while no path from [C] to [T] has fewer than [n + 1]
    transitions; if [T] cannot be reached it returns [NULL]; whatever it
    returns is registered and Available; and an engine that differs only
    in its Blocked transitions gets the same answer. *)
Theorem search_returns_shortest_first_step h g es :
  graph h g = Some es →
  configured g →
  node_domain_fits es (nodes_capacity g) →
  1 ≤ nodes_capacity g →
  current_node_index g ≠ target_node_index g →
  (reachable es (target_node_index g) (current_node_index g) →
   ∃ t tr n g',
     GOFSM_SearchNextStep h g = Done (Some t, g')
     ∧ Some t ∈ registered g ∧ h !! t = Some tr
     ∧ Available tr
     ∧ source_node_index tr = current_node_index g
     ∧ path_to es (target_node_index g) n (destination_node_index tr)
     ∧ ∀ m, path_to es (target_node_index g) m (current_node_index g) →
         (S n ≤ m)%nat)
  ∧ (¬ reachable es (target_node_index g) (current_node_index g) →
     ∃ g', GOFSM_SearchNextStep h g = Done (None, g'))
  ∧ (∀ t g',
       GOFSM_SearchNextStep h g = Done (Some t, g') →
       ∃ tr, Some t ∈ registered g ∧ h !! t = Some tr ∧ Available tr)
  ∧ (∀ h2 g2 es2 r g' r2 g2',
       graph h2 g2 = Some es2 →
       configured g2 →
       node_domain_fits es2 (nodes_capacity g2) →
       1 ≤ nodes_capacity g2 →
       current_node_index g2 = current_node_index g →
       target_node_index g2 = target_node_index g →
       enabled_edges es2 = enabled_edges es →
       GOFSM_SearchNextStep h g = Done (r, g') →
       GOFSM_SearchNextStep h2 g2 = Done (r2, g2') →
       r2 = r).
Proof.
  intros Hgraph Hconf Hfits Hcap Hne.
  destruct (search_next_step_spec h g es Hgraph Hconf Hfits Hcap)
    as (r & b & Vf & Hrun & _ & Hspec).
  pose proof (spec_search_correct es (target_node_index g)
                (current_node_index g) search_fuel 0 _ _ r Vf
                (bfs_inv_init es _ _ Hne) Hspec) as Hcorrect.
  rewrite Hrun.
  assert (∀ h2 g2 es2 r' g' r2 g2',
            graph h2 g2 = Some es2 →
            configured g2 →
            node_domain_fits es2 (nodes_capacity g2) →
            1 ≤ nodes_capacity g2 →
            current_node_index g2 = current_node_index g →
            target_node_index g2 = target_node_index g →
            enabled_edges es2 = enabled_edges es →
            Done (r, set_alg_nodes_buffer b g) = Done (r', g') →
            GOFSM_SearchNextStep h2 g2 = Done (r2, g2') →
            r2 = r') as Hblocked.
  { intros h2 g2 es2 r' g' r2 g2' Hgraph2 Hconf2 Hfits2 Hcap2 HC HT Hen
      [= <- <-] Hrun2.
    destruct (search_next_step_spec h2 g2 es2 Hgraph2 Hconf2 Hfits2 Hcap2)
      as (r3 & b3 & Vf3 & Hrun3 & _ & Hspec3).
    rewrite Hrun3 in Hrun2. injection Hrun2 as <- <-.
    unfold spec_search_from in *.
    rewrite <- spec_search_enabled, Hen, spec_search_enabled, HC, HT in Hspec3.
    congruence. }
  destruct r as [p|].
  - destruct Hcorrect as (tr & n & Hin & Hav & Hsrc & Hpath & Hmin).
    destruct (graph_elem h g es p tr Hgraph Hin) as [Hreg Hp].
    split_and!; [| | |exact Hblocked].
    + intros _. exists p, tr, n, (set_alg_nodes_buffer b g). by split_and!.
    + intros Hno. exfalso. apply Hno. exists (S n).
      econstructor; [|exact Hpath]. by exists p, tr.
    + intros t g' [= <- <-]. by exists tr.
  - split_and!; [done| |done|exact Hblocked].
    intros _. by exists (set_alg_nodes_buffer b g).
Qed.

(** ** C7: the scratch region is large enough *)

(** C7 (amended). When every source and destination node of a registered
    transition is below [nodes_capacity] and [nodes_capacity] is at least
    1, one pass of the search ends without any access outside the arrays;
    it has written the first [visited_length] slots of the scratch region
    and no other; the nodes in these slots are pairwise distinct, and
    their number is at most [nodes_capacity]. *)
Theorem search_stays_in_scratch h g es :
  graph h g = Some es →
  configured g →
  node_domain_fits es (nodes_capacity g) →
  1 ≤ nodes_capacity g →
  ∃ r s',
    search_from search_fuel h g = Done (r, s')
    ∧ GOFSM_SearchNextStep h g = Done (r, set_alg_nodes_buffer (buf s') g)
    ∧ 0 ≤ visited_length s' ≤ nodes_capacity g
    ∧ length (buf s') = length (alg_nodes_buffer g)
    ∧ drop (Z.to_nat (visited_length s')) (buf s')
      = drop (Z.to_nat (visited_length s')) (alg_nodes_buffer g)
    ∧ NoDup (take (Z.to_nat (visited_length s')) (buf s')).
Proof.
  intros Hgraph Hconf Hfits Hcap.
  destruct (search_from_spec h g es Hgraph Hconf Hfits Hcap)
    as (r & s' & Vf & Hrun & Hspec & Hnd & [rest Hpre] & Hvl & Hlen).
  destruct (configured_bounds g Hconf) as (_ & _ & Hsmall & Hnc).
  destruct (search_writes_prefix search_fuel h g r s' Hsmall Hrun)
    as (_ & _ & Hdrop).
  exists r, s'. split_and!; try done.
  - unfold GOFSM_SearchNextStep. by rewrite Hrun.
  - lia.
  - rewrite <- Hnc, <- Hlen, Hvl, Hpre, length_app. lia.
  - rewrite Hvl, Nat2Z.id, Hpre, take_app_length. exact Hnd.
Qed.

(** ** C6: the scan order decides between candidate transitions *)

(** A transition returned by the specification's search is the first one
    in registration order among the enabled transitions from [C] into the
    frontier node at which the search stops. *)
Lemma spec_search_first fuel es C :
  ∀ F V p Vf,
    spec_search fuel es C F V = Some (Some p, Vf) →
    ∃ n es1 tr es2,
      es = es1 ++ (p, tr) :: es2
      ∧ Available tr ∧ source_node_index tr = C
      ∧ destination_node_index tr = n
      ∧ ∀ q tq, (q, tq) ∈ es1 →
          ¬ (Available tq ∧ source_node_index tq = C
             ∧ destination_node_index tq = n).
Proof.
  induction fuel as [|fuel IH]; intros F V p Vf H; [done|].
  cbn in H. destruct F as [|n F]; [done|].
  destruct (spec_layer es C (n :: F) V []) as [[q|] [V1 N1]] eqn:Hl.
  - simplify_eq.
    apply spec_layer_found in Hl
      as (F1 & n' & F2 & es1 & tr & es2 & _ & ? & ? & ? & ? & _ & ?).
    by exists n', es1, tr, es2.
  - by eapply IH.
Qed.

Lemma resolve_Some h slot p tr :
  resolve h slot = Some (p, tr) ↔ slot = Some p ∧ h !! p = Some tr.
Proof.
  unfold resolve. destruct slot as [q|]; cbn.
  - destruct (h !! q) as [tr'|] eqn:Hq; cbn; split.
    + by intros [= <- <-].
    + intros [[= ->] ?]. congruence.
    + done.
    + intros [[= ->] ?]. congruence.
  - split; [done|]. by intros [? _].
Qed.

(** C6 (amended). On a configured engine whose registry is valid and whose
    node domain fits the scratch region, [GOFSM_SearchNextStep] returns what
    the search written after the specification returns: frontier nodes in
    the order they entered the frontier, for each node the transitions in
    registration order, the first enabled one from the current node being
    returned. Hence the answer depends on the registered transitions, their
    order, the current and the target node only. Registration order
    decides between the transitions into one frontier node, and only
    between them: of two distinct Available transitions X and Y with the
    same source and the same destination, X being registered before any
    registration of Y, the search never returns Y; and a search that
    returns a transition into the destination of X returns X, when X is
    Available, starts at the current node and no Available transition from
    the current node into that destination is registered before it. *)
Theorem search_scan_order h g es :
  graph h g = Some es →
  configured g →
  node_domain_fits es (nodes_capacity g) →
  1 ≤ nodes_capacity g →
  (∃ r g' Vf,
     GOFSM_SearchNextStep h g = Done (r, g')
     ∧ spec_search_from search_fuel es (current_node_index g)
         (target_node_index g) = Some (r, Vf))
  ∧ (∀ h2 g2 r g' r2 g2',
       graph h2 g2 = Some es →
       configured g2 →
       node_domain_fits es (nodes_capacity g2) →
       1 ≤ nodes_capacity g2 →
       current_node_index g2 = current_node_index g →
       target_node_index g2 = target_node_index g →
       GOFSM_SearchNextStep h g = Done (r, g') →
       GOFSM_SearchNextStep h2 g2 = Done (r2, g2') →
       r2 = r)
  ∧ (∀ X Y trX trY before after g',
       registered g = before ++ Some X :: after →
       Some Y ∉ before →
       X ≠ Y →
       h !! X = Some trX → h !! Y = Some trY →
       Available trX → Available trY →
       source_node_index trX = source_node_index trY →
       destination_node_index trX = destination_node_index trY →
       GOFSM_SearchNextStep h g ≠ Done (Some Y, g'))
  ∧ (∀ X trX before after t tr g',
       registered g = before ++ Some X :: after →
       h !! X = Some trX →
       Available trX →
       source_node_index trX = current_node_index g →
       (∀ q tq,
          Some q ∈ before → h !! q = Some tq →
          ¬ (Available tq
             ∧ source_node_index tq = current_node_index g
             ∧ destination_node_index tq = destination_node_index trX)) →
       GOFSM_SearchNextStep h g = Done (Some t, g') →
       h !! t = Some tr →
       destination_node_index tr = destination_node_index trX →
       t = X).
Proof.
  intros Hgraph Hconf Hfits Hcap.
  destruct (search_next_step_spec h g es Hgraph Hconf Hfits Hcap)
    as (r & b & Vf & Hrun & _ & Hspec).
  split_and!.
  - by exists r, (set_alg_nodes_buffer b g), Vf.
  - intros h2 g2 r' g' r2 g2' Hgraph2 Hconf2 Hfits2 Hcap2 HC HT Hr Hr2.
    destruct (search_next_step_spec h2 g2 es Hgraph2 Hconf2 Hfits2 Hcap2)
      as (r3 & b3 & Vf3 & Hrun3 & _ & Hspec3).
    rewrite HC, HT in Hspec3. congruence.
  - intros X Y trX trY before after g' Hreg HY Hne HX HYh HavX HavY Hsrc Hdst
      Hres.
    rewrite Hrun in Hres. injection Hres as -> _.
    apply spec_search_first
      in Hspec as (n & es1 & tr & es2 & Hes & Hav & Hs & Hd & Hfirst).
    apply mapM_Some in Hgraph.
    assert (es !! length es1 = Some (Y, tr)) as HesY.
    { rewrite Hes. by apply list_lookup_middle. }
    destruct (Forall2_lookup_r _ _ _ _ _ Hgraph HesY)
      as (slot & HslotY & [-> HtrY]%resolve_Some).
    assert (tr = trY) as -> by congruence.
    assert (registered g !! length before = Some (Some X)) as HregX.
    { rewrite Hreg. by apply list_lookup_middle. }
    destruct (lt_eq_lt_dec (length es1) (length before)) as [[Hlt|Heq]|Hgt].
    + apply HY. apply list_elem_of_lookup. exists (length es1).
      rewrite Hreg, lookup_app_l in HslotY by done. exact HslotY.
    + rewrite Heq in HslotY. congruence.
    + destruct (Forall2_lookup_l _ _ _ _ _ Hgraph HregX)
        as ([q tq] & HesX & [[= <-] HtrX]%resolve_Some).
      assert (tq = trX) as -> by congruence.
      apply (Hfirst X trX).
      * rewrite Hes, lookup_app_l in HesX by done.
        apply list_elem_of_lookup. by exists (length before).
      * split_and!; [done|congruence|congruence].
  - intros X trX before after t tr g' Hreg HX HavX HsrcX Hbefore Hres Ht
      Hdst.
    rewrite Hrun in Hres. injection Hres as -> _.
    apply spec_search_first
      in Hspec as (n & es1 & tr' & es2 & Hes & Hav & Hs & Hd & Hfirst).
    apply mapM_Some in Hgraph.
    assert (es !! length es1 = Some (t, tr')) as Hest.
    { rewrite Hes. by apply list_lookup_middle. }
    destruct (Forall2_lookup_r _ _ _ _ _ Hgraph Hest)
      as (slot & Hslot & [-> Htr']%resolve_Some).
    assert (tr' = tr) as -> by congruence.
    assert (registered g !! length before = Some (Some X)) as HregX.
    { rewrite Hreg. by apply list_lookup_middle. }
    destruct (lt_eq_lt_dec (length es1) (length before)) as [[Hlt|Heq]|Hgt].
    + exfalso. apply (Hbefore t tr); [|done|by split_and!].
      apply list_elem_of_lookup. exists (length es1).
      rewrite Hreg, lookup_app_l in Hslot by done. exact Hslot.
    + rewrite Heq in Hslot. congruence.
    + exfalso.
      destruct (Forall2_lookup_l _ _ _ _ _ Hgraph HregX)
        as ([q tq] & HesX & [[= <-] HtrX]%resolve_Some).
      assert (tq = trX) as -> by congruence.
      apply (Hfirst X trX).
      * rewrite Hes, lookup_app_l in HesX by done.
        apply list_elem_of_lookup. by exists (length before).
      * split_and!; [done|done|congruence].
Qed.

(** ** The tick *)

Lemma run_bind_Done {A B} (m : run A) (k : A → run B) (b : B) :
  m ≫= k = Done b → ∃ a, m = Done a ∧ k a = Done b.
Proof. destruct m as [a| |]; cbn; [by exists a|done..]. Qed.

(** Planning touches the cached transition, the scratch buffer and the two
    flags it clears, nothing else. *)
Lemma tick_plan_keeps h g g1 searched :
  tick_plan h g = Done (g1, searched) →
  current_node_index g1 = current_node_index g
  ∧ target_node_index g1 = target_node_index g
  ∧ is_transition_failure g1 = is_transition_failure g
  ∧ transitions_count g1 = transitions_count g
  ∧ transitions_capacity g1 = transitions_capacity g
  ∧ transitions g1 = transitions g
  ∧ nodes_capacity g1 = nodes_capacity g
  ∧ (∀ t r, EvAttempt t r ∉ searched).
Proof.
  unfold tick_plan, GOFSM_SearchNextStep. destruct (replans g).
  - intros ([t g2] & (([t' s'] & _ & [= <- <-])%run_bind_Done
                      & [= <- <-]))%run_bind_Done.
    cbn. split_and!; try done.
    intros t0 r [?|?%elem_of_nil]%elem_of_cons; done.
  - intros [= <- <-]. split_and!; try done. intros t r ?%elem_of_nil. done.
Qed.

(** ** C9: a tick at the target does nothing *)

(** C9. When the current node equals the target node, [GOFSM_OnTick]
    returns the engine and the world exactly as they were - current node,
    target node, registered transitions, cached transition, the three flags
    and everything else - and neither searches nor attempts a
    transition. *)
Theorem idle_tick_changes_nothing h (w : World) g :
  current_node_index g = target_node_index g →
  GOFSM_OnTick h w g = Done (g, w, []).
Proof. intros Heq. unfold GOFSM_OnTick. by rewrite Heq, Z.eqb_refl. Qed.

(** ** C5: the outcome of an attempt *)

Lemma tick_unfold h (w : World) g g1 searched :
  current_node_index g ≠ target_node_index g →
  tick_plan h g = Done (g1, searched) →
  GOFSM_OnTick h w g
  = '(g2, w', attempted) ← tick_attempt h w g1;
    Done (g2, w', searched ++ attempted).
Proof.
  intros Hne Hplan. unfold GOFSM_OnTick.
  destruct (Z.eqb_spec (current_node_index g) (target_node_index g));
    [done|].
  by rewrite Hplan.
Qed.

Lemma tick_attempt_cached h (w : World) g t tr :
  transition_current g = Some t →
  h !! t = Some tr →
  tick_attempt h w g
  = Done (match (attempt tr t w).1 with
          | GOFSM_Transition_Result_Success =>
              set_current_node_index (destination_node_index tr)
                (set_is_transition_failure false g)
          | GOFSM_Transition_Result_Failure =>
              set_is_transition_failure true g
          end,
          (attempt tr t w).2,
          [EvAttempt t (attempt tr t w).1]).
Proof.
  intros Hc Ht. unfold tick_attempt. rewrite Hc, Ht.
  by destruct (attempt tr t w) as [[] w'].
Qed.

(** C5. Let a tick away from the target reach its attempt with transition
    [t] cached (after replanning, if it replans). If [t] has no action, the
    attempt is a success: no action runs, the world is untouched, the
    current node becomes the destination of [t] and the failure flag is
    cleared. If [t] has an action, the tick calls it once, on [t] and the
    world as it is, and goes by what the action reports: when it reports
    success the current node becomes the destination of [t] and the failure
    flag is cleared; when it reports failure the failure flag is set and
    the current node is the one before the tick. The world after the tick
    is the one the action left, and in every case [t] is the cached
    transition after the tick. *)
Theorem attempt_outcome h (w : World) g g1 searched t tr :
  current_node_index g ≠ target_node_index g →
  tick_plan h g = Done (g1, searched) →
  transition_current g1 = Some t →
  h !! t = Some tr →
  (function tr = None →
   ∃ g',
     GOFSM_OnTick h w g
     = Done (g', w,
             searched ++ [EvAttempt t GOFSM_Transition_Result_Success])
     ∧ transition_current g' = Some t
     ∧ current_node_index g' = destination_node_index tr
     ∧ is_transition_failure g' = false)
  ∧ (∀ f w1,
       function tr = Some f →
       f t w = (GOFSM_Transition_Result_Success, w1) →
       ∃ g',
         GOFSM_OnTick h w g
         = Done (g', w1,
                 searched ++ [EvAttempt t GOFSM_Transition_Result_Success])
         ∧ transition_current g' = Some t
         ∧ current_node_index g' = destination_node_index tr
         ∧ is_transition_failure g' = false)
  ∧ (∀ f w1,
       function tr = Some f →
       f t w = (GOFSM_Transition_Result_Failure, w1) →
       ∃ g',
         GOFSM_OnTick h w g
         = Done (g', w1,
                 searched ++ [EvAttempt t GOFSM_Transition_Result_Failure])
         ∧ transition_current g' = Some t
         ∧ current_node_index g' = current_node_index g
         ∧ is_transition_failure g' = true).
Proof.
  intros Hne Hplan Hc Ht.
  rewrite (tick_unfold h w g g1 searched Hne Hplan).
  rewrite (tick_attempt_cached h w g1 t tr Hc Ht). unfold attempt.
  destruct (tick_plan_keeps h g g1 searched Hplan) as (Hcur & _).
  split_and!.
  - intros ->. cbn. eexists. split; [reflexivity|]. by split_and!.
  - intros f w1 -> ->. cbn. eexists. split; [reflexivity|]. by split_and!.
  - intros f w1 -> ->. cbn. eexists. split; [reflexivity|]. by split_and!.
Qed.

(** ** C4: a failed attempt is retried without a search *)

Lemma set_is_transition_failure_same g :
  is_transition_failure g = true → set_is_transition_failure true g = g.
Proof. destruct g; cbn. by intros ->. Qed.

(** The engine right after a tick whose attempt failed. *)
Lemma tick_failed_state h (w0 w : World) g0 g tr0 t :
  GOFSM_OnTick h w0 g0 = Done (g, w, tr0) →
  EvAttempt t GOFSM_Transition_Result_Failure ∈ tr0 →
  current_node_index g ≠ target_node_index g
  ∧ is_transition_failure g = true
  ∧ is_target_change g = false
  ∧ is_graph_reconfigured g = false
  ∧ transition_current g = Some t
  ∧ ∃ tr, h !! t = Some tr.
Proof.
  unfold GOFSM_OnTick.
  destruct (Z.eqb_spec (current_node_index g0) (target_node_index g0))
    as [|Hne].
  { intros [= <- <- <-] ?%elem_of_nil. done. }
  intros ([g1 searched] & Hplan & Hrest)%run_bind_Done Hin.
  apply run_bind_Done in Hrest as ([[g2 w'] attempted] & Hatt & [= <- <- <-]).
  destruct (tick_plan_keeps h g0 g1 searched Hplan)
    as (Hcur & Htgt & Hfail & _ & _ & _ & _ & Hnoatt).
  apply elem_of_app in Hin as [Hin|Hin]; [by apply Hnoatt in Hin|].
  assert (is_target_change g1 = false ∧ is_graph_reconfigured g1 = false
          ∧ (replans g0 = false → is_transition_failure g1 = true))
    as (Hg & Ht & _).
  { unfold tick_plan, GOFSM_SearchNextStep in Hplan.
    destruct (replans g0) eqn:Hre.
    - apply run_bind_Done in Hplan as ([t' g3] & _ & [= <- <-]). done.
    - injection Hplan as <- <-. unfold replans in Hre.
      destruct (is_transition_failure g0), (is_target_change g0),
        (is_graph_reconfigured g0); done. }
  unfold tick_attempt in Hatt.
  destruct (transition_current g1) as [t'|] eqn:Hc.
  2:{ injection Hatt as <- <- <-. by apply elem_of_nil in Hin. }
  destruct (h !! t') as [tr|] eqn:Ht'; [|done].
  destruct (attempt tr t' w0) as [[] w1]; injection Hatt as <- <- <-;
    apply list_elem_of_singleton in Hin; [|done].
  injection Hin as ->. cbn. split_and!; try done; [congruence|by exists tr].
Qed.

(** One retry: no search, one attempt of the cached transition. *)
Lemma retry_tick h (w : World) g t tr :
  current_node_index g ≠ target_node_index g →
  is_transition_failure g = true →
  is_target_change g = false →
  is_graph_reconfigured g = false →
  transition_current g = Some t →
  h !! t = Some tr →
  replans g = false
  ∧ GOFSM_OnTick h w g
    = Done (match (attempt tr t w).1 with
            | GOFSM_Transition_Result_Success =>
                set_current_node_index (destination_node_index tr)
                  (set_is_transition_failure false g)
            | GOFSM_Transition_Result_Failure => g
            end,
            (attempt tr t w).2,
            [EvAttempt t (attempt tr t w).1]).
Proof.
  intros Hne Hf Hg Hr Hc Ht.
  assert (replans g = false) as Hre by (unfold replans; by rewrite Hf, Hg, Hr).
  split; [done|].
  rewrite (tick_unfold h w g g []) by (done || unfold tick_plan; by rewrite Hre).
  rewrite (tick_attempt_cached h w g t tr Hc Ht). cbn.
  by rewrite (set_is_transition_failure_same g Hf).
Qed.

Lemma retry_ticks h g t tr :
  current_node_index g ≠ target_node_index g →
  is_transition_failure g = true →
  is_target_change g = false →
  is_graph_reconfigured g = false →
  transition_current g = Some t →
  h !! t = Some tr →
  ∀ n (w : World),
    keeps_failing tr t n w →
    ticks n h w g
    = Done (g, world_after tr t n w,
            replicate n (EvAttempt t GOFSM_Transition_Result_Failure)).
Proof.
  intros Hne Hf Hg Hr Hc Ht. induction n as [|n IH]; intros w Hkeep; [done|].
  destruct Hkeep as [Hfail Hkeep]. cbn [ticks world_after replicate].
  destruct (retry_tick h w g t tr Hne Hf Hg Hr Hc Ht) as [_ ->].
  rewrite Hfail. cbn. rewrite (IH _ Hkeep). reflexivity.
Qed.

(** C4. After a tick whose attempt of transition [t] failed, the failure
    flag is set, the goal-changed and topology-changed flags are clear and
    [t] is cached. In any engine in that condition away from its target -
    this one, or one reached from it without setting either flag - the
    replanning condition is false and a tick consists of one attempt of
    [t] and no call of the search. With nothing but ticks in between, as
    long as the action keeps failing every tick leaves the engine as it
    was, and after any number [n] of such failures the next tick again
    attempts [t] without a search. *)
Theorem failed_attempt_is_retried h (w0 w : World) g0 g tr0 t :
  GOFSM_OnTick h w0 g0 = Done (g, w, tr0) →
  EvAttempt t GOFSM_Transition_Result_Failure ∈ tr0 →
  (is_transition_failure g = true
   ∧ is_target_change g = false
   ∧ is_graph_reconfigured g = false
   ∧ transition_current g = Some t
   ∧ current_node_index g ≠ target_node_index g)
  ∧ (∀ h2 (w2 : World) g2 tr2,
       is_transition_failure g2 = true →
       is_target_change g2 = false →
       is_graph_reconfigured g2 = false →
       transition_current g2 = Some t →
       current_node_index g2 ≠ target_node_index g2 →
       h2 !! t = Some tr2 →
       replans g2 = false
       ∧ ∃ g',
           GOFSM_OnTick h2 w2 g2
           = Done (g', (attempt tr2 t w2).2,
                   [EvAttempt t (attempt tr2 t w2).1]))
  ∧ ∃ tr,
      h !! t = Some tr
      ∧ ∀ n,
          keeps_failing tr t n w →
          ticks n h w g
          = Done (g, world_after tr t n w,
                  replicate n (EvAttempt t GOFSM_Transition_Result_Failure))
          ∧ ∃ g',
              GOFSM_OnTick h (world_after tr t n w) g
              = Done (g', (attempt tr t (world_after tr t n w)).2,
                      [EvAttempt t (attempt tr t (world_after tr t n w)).1]).
Proof.
  intros Htick Hin.
  destruct (tick_failed_state h w0 w g0 g tr0 t Htick Hin)
    as (Hne & Hf & Hg & Hr & Hc & tr & Ht).
  split; [by split_and!|]. split.
  { intros h2 w2 g2 tr2 Hf2 Hg2 Hr2 Hc2 Hne2 Ht2.
    destruct (retry_tick h2 w2 g2 t tr2 Hne2 Hf2 Hg2 Hr2 Hc2 Ht2)
      as [Hre ->].
    split; [done|]. by eexists. }
  exists tr. split; [done|].
  intros n Hkeep. split.
  { by apply retry_ticks. }
  destruct (retry_tick h (world_after tr t n w) g t tr Hne Hf Hg Hr Hc Ht)
    as [_ ->].
  by eexists.
Qed.

(** ** C2: a tick without a path *)

(** C2 (amended). When a tick away from the target ends its planning with
    no cached transition - the search found none, or none was cached - the
    tick completes: it attempts nothing, hands nothing back to the caller,
    leaves the world and the current node as they were and clears the
    failure flag; the cached transition stays [NULL]. *)
Theorem no_path_tick_is_silent h (w : World) g g1 searched :
  current_node_index g ≠ target_node_index g →
  tick_plan h g = Done (g1, searched) →
  transition_current g1 = None →
  ∃ g',
    GOFSM_OnTick h w g = Done (g', w, searched)
    ∧ GOFSM_OnTick_returned h w g = Done tt
    ∧ (∀ t r, EvAttempt t r ∉ searched)
    ∧ current_node_index g' = current_node_index g
    ∧ transition_current g' = None
    ∧ is_transition_failure g' = false.
Proof.
  intros Hne Hplan Hc.
  destruct (tick_plan_keeps h g g1 searched Hplan)
    as (Hcur & _ & _ & _ & _ & _ & _ & Hnoatt).
  assert (GOFSM_OnTick h w g
          = Done (set_is_transition_failure false g1, w, searched)) as Htick.
  { rewrite (tick_unfold h w g g1 searched Hne Hplan).
    unfold tick_attempt. rewrite Hc. cbn. by rewrite app_nil_r. }
  exists (set_is_transition_failure false g1). split_and!; try done.
  unfold GOFSM_OnTick_returned. by rewrite Htick.
Qed.

(** ** What the public operations keep *)

Lemma u8_le z : 0 ≤ z → 0 ≤ u8 z ≤ z.
Proof.
  intros Hz. unfold u8. split; [apply Z.mod_pos_bound; lia|].
  apply Z.mod_le; lia.
Qed.

Lemma tick_keeps h (w w' : World) g g' tr :
  GOFSM_OnTick h w g = Done (g', w', tr) →
  transitions_count g' = transitions_count g
  ∧ transitions_capacity g' = transitions_capacity g
  ∧ transitions g' = transitions g
  ∧ nodes_capacity g' = nodes_capacity g
  ∧ target_node_index g' = target_node_index g.
Proof.
  unfold GOFSM_OnTick.
  destruct (current_node_index g =? target_node_index g).
  { by intros [= <- <- <-]. }
  intros ([g1 searched] & Hplan & Hrest)%run_bind_Done.
  apply run_bind_Done in Hrest as ([[g2 w2] attempted] & Hatt & [= <- <- <-]).
  destruct (tick_plan_keeps h g g1 searched Hplan)
    as (_ & <- & _ & <- & <- & <- & <- & _).
  unfold tick_attempt in Hatt.
  destruct (transition_current g1) as [t|]; [|by injection Hatt as <- <- <-].
  destruct (h !! t) as [tr|]; [|done].
  by destruct (attempt tr t w) as [[] w1]; injection Hatt as <- <- <-.
Qed.

Lemma tick_cached_when_failed h (w w' : World) g g' tr :
  cached_when_failed g →
  GOFSM_OnTick h w g = Done (g', w', tr) →
  cached_when_failed g'.
Proof.
  intros Hinv. unfold GOFSM_OnTick.
  destruct (current_node_index g =? target_node_index g).
  { by intros [= <- <- <-]. }
  intros ([g1 searched] & Hplan & Hrest)%run_bind_Done.
  apply run_bind_Done in Hrest as ([[g2 w2] attempted] & Hatt & [= <- <- <-]).
  unfold tick_attempt in Hatt. unfold cached_when_failed.
  destruct (transition_current g1) as [t|] eqn:Hc.
  2:{ by injection Hatt as <- <- <-. }
  destruct (h !! t) as [tr|]; [|done].
  destruct (attempt tr t w) as [[] w1]; injection Hatt as <- <- <-; cbn;
    by rewrite Hc.
Qed.

Lemma add_transition_keeps g t e g' :
  GOFSM_AddTransition g t = Done (e, g') →
  transitions_capacity g' = transitions_capacity g
  ∧ transition_current g' = transition_current g
  ∧ is_transition_failure g' = is_transition_failure g
  ∧ (count_within_capacity g → count_within_capacity g')
  ∧ (e = GOFSM_Error_OwerstackTransitions
     ↔ transitions_count g = transitions_capacity g).
Proof.
  unfold GOFSM_AddTransition, count_within_capacity.
  destruct (Z.eqb_spec (transitions_count g) (transitions_capacity g))
    as [Heq|Hne].
  { by intros [= <- <-]. }
  case_decide; [|done]. intros [= <- <-]. cbn. split_and!; try done.
  intros ?. pose proof (u8_le (transitions_count g + 1)). lia.
Qed.

Lemma remove_scan_keeps g t e g' :
  ∀ n i,
    remove_scan g t n i = Done (e, g') →
    transitions_capacity g' = transitions_capacity g
    ∧ transition_current g' = transition_current g
    ∧ is_transition_failure g' = is_transition_failure g
    ∧ is_target_change g' = is_target_change g
    ∧ is_graph_reconfigured g' = is_graph_reconfigured g.
Proof.
  induction n as [|n IH]; intros i; cbn.
  { by intros [= <- <-]. }
  destruct (transitions g !! Z.to_nat i) as [slot|]; [|done].
  case_decide; [|apply IH].
  by intros (slots & _ & [= <- <-])%run_bind_Done.
Qed.

Lemma remove_scan_count g t e g' :
  ∀ n i,
    0 ≤ i →
    Z.of_nat n + i = transitions_count g →
    remove_scan g t n i = Done (e, g') →
    count_within_capacity g → count_within_capacity g'.
Proof.
  unfold count_within_capacity.
  induction n as [|n IH]; intros i Hi Hn; cbn.
  { by intros [= <- <-]. }
  destruct (transitions g !! Z.to_nat i) as [slot|]; [|done].
  case_decide.
  - intros (slots & _ & [= <- <-])%run_bind_Done. cbn.
    intros ?. pose proof (u8_le (transitions_count g - 1)). lia.
  - apply IH; lia.
Qed.

Lemma remove_transition_count g t e g' :
  GOFSM_RemoveTransition g t = Done (e, g') →
  count_within_capacity g → count_within_capacity g'.
Proof.
  intros Hrun Hc. unfold GOFSM_RemoveTransition in Hrun.
  eapply remove_scan_count; [| |exact Hrun|exact Hc];
    unfold count_within_capacity in Hc; lia.
Qed.

(** Every call keeps the invariants of the engine. *)
Lemma exec_keeps (c : call World) (m m' : machine World) :
  exec c m = Done m' →
  transitions_capacity (m_engine m') = transitions_capacity (m_engine m)
  ∧ (count_within_capacity (m_engine m) →
     count_within_capacity (m_engine m'))
  ∧ (cached_when_failed (m_engine m) → cached_when_failed (m_engine m')).
Proof.
  destruct m as [h w g]. destruct c; cbn.
  - by intros [= <-].
  - unfold GOFSM_Transition_SetState. destruct (h !! transition); [|done].
    by intros [= <-].
  - intros ([e g'] & Hadd & [= <-])%run_bind_Done. cbn.
    destruct (add_transition_keeps g transition e g' Hadd)
      as (? & Hc & Hf & ? & _).
    unfold cached_when_failed. rewrite Hc, Hf. done.
  - intros ([e g'] & Hrem & [= <-])%run_bind_Done. cbn.
    destruct (remove_scan_keeps g transition e g' _ _ Hrem)
      as (? & Hc & Hf & _).
    unfold cached_when_failed. rewrite Hc, Hf. split_and!; try done.
    by apply (remove_transition_count g transition e g').
  - by intros [= <-].
  - by intros [= <-].
  - intros ([[g' w'] tr] & Htick & [= <-])%run_bind_Done. cbn.
    destruct (tick_keeps h w w' g g' tr Htick) as (Hn & Hcap & _).
    unfold count_within_capacity. rewrite Hn, Hcap. split_and!; try done.
    intros ?. by eapply tick_cached_when_failed.
Qed.

Lemma exec_all_keeps (cs : list (call World)) :
  ∀ m m' : machine World,
    exec_all cs m = Done m' →
    transitions_capacity (m_engine m') = transitions_capacity (m_engine m)
    ∧ (count_within_capacity (m_engine m) →
       count_within_capacity (m_engine m'))
    ∧ (cached_when_failed (m_engine m) → cached_when_failed (m_engine m')).
Proof.
  induction cs as [|c cs IH]; intros m m'; cbn.
  { by intros [= <-]. }
  intros (m1 & (? & ? & ?)%exec_keeps & (? & ? & ?)%IH)%run_bind_Done.
  split_and!; [congruence|tauto|tauto].
Qed.

Lemma init_static_state g g0 :
  GOFSM_InitStatic g = Done g0 →
  transitions_count g0 = 0
  ∧ transitions_capacity g0 = transitions_capacity g
  ∧ transition_current g0 = None
  ∧ is_transition_failure g0 = false.
Proof.
  unfold GOFSM_InitStatic.
  by intros (slots & _ & [= <-])%run_bind_Done.
Qed.

(** ** Configuration is established once and kept *)

Lemma clear_slots_length :
  ∀ n (slots slots' : list (option positive)) i,
    clear_slots slots n i = Done slots' → length slots' = length slots.
Proof.
  induction n as [|n IH]; intros slots slots' i; cbn.
  { by intros [= <-]. }
  destruct (i <? Z.of_nat (length slots)); [|done].
  intros ->%IH. apply length_insert.
Qed.

Lemma init_static_configured g g0 :
  is_u8 (nodes_capacity g) → is_u8 (transitions_capacity g) →
  length (transitions g) = Z.to_nat (transitions_capacity g) →
  length (alg_nodes_buffer g) = Z.to_nat (nodes_capacity g) →
  GOFSM_InitStatic g = Done g0 →
  configured g0.
Proof.
  intros Hn Ht Hlt Hln. unfold GOFSM_InitStatic.
  intros (slots & Hlen%clear_slots_length & [= <-])%run_bind_Done.
  unfold configured, is_u8 in *. cbn. split_and!; try done; lia.
Qed.

Lemma init_configured g tc nc slots buffer g0 :
  is_u8 tc → is_u8 nc →
  length slots = Z.to_nat tc → length buffer = Z.to_nat nc →
  GOFSM_Init g tc nc (Some slots) (Some buffer) = Done g0 → configured g0.
Proof.
  intros Ht Hn Hslots Hbuffer. unfold GOFSM_Init.
  by apply init_static_configured.
Qed.

Lemma add_transition_configured g t e g' :
  configured g → GOFSM_AddTransition g t = Done (e, g') → configured g'.
Proof.
  intros (Hn & Hc & Hlt & Hln & Hcount). unfold GOFSM_AddTransition.
  destruct (Z.eqb_spec (transitions_count g) (transitions_capacity g)).
  { by intros [= <- <-]. }
  case_decide; [|done]. intros [= <- <-].
  unfold configured, is_u8, u8 in *. cbn. rewrite length_insert.
  rewrite Z.mod_small by lia. split_and!; try done; lia.
Qed.

Lemma remove_scan_configured g t e g' :
  configured g →
  ∀ n i,
    0 ≤ i → Z.of_nat n + i = transitions_count g →
    remove_scan g t n i = Done (e, g') → configured g'.
Proof.
  intros Hconf. pose proof Hconf as (Hn & Hc & Hlt & Hln & Hcount).
  induction n as [|n IH]; intros i Hi Hsum; cbn.
  { by intros [= <- <-]. }
  destruct (transitions g !! Z.to_nat i) as [slot|]; [|done].
  case_decide; [|apply IH; lia].
  unfold memmove. case_decide as Hb; [|done]. cbn. intros [= <- <-].
  unfold configured, is_u8, u8 in *. cbn.
  rewrite !length_app, !length_take, !length_drop.
  rewrite Z.mod_small by lia. split_and!; try done; lia.
Qed.

Lemma tick_configured h (w w' : World) g g' tr :
  configured g → GOFSM_OnTick h w g = Done (g', w', tr) → configured g'.
Proof.
  intros Hconf.
  destruct (configured_bounds g Hconf) as (_ & _ & Hsmall & _).
  unfold GOFSM_OnTick.
  destruct (current_node_index g =? target_node_index g).
  { by intros [= <- <- <-]. }
  intros ([g1 searched] & Hplan & Hrest)%run_bind_Done.
  apply run_bind_Done in Hrest as ([[g2 w2] attempted] & Hatt & [= <- <- <-]).
  assert (configured g1) as Hconf1.
  { unfold tick_plan, GOFSM_SearchNextStep in Hplan.
    destruct (replans g); [|by injection Hplan as <- <-].
    apply run_bind_Done in Hplan as ([t g3] & Hs & [= <- <-]).
    apply run_bind_Done in Hs as ([t' s'] & Hs & [= <- <-]).
    destruct (search_writes_prefix _ _ _ _ _ Hsmall Hs) as (_ & Hlen & _).
    unfold configured in *. cbn. by rewrite Hlen. }
  unfold tick_attempt in Hatt.
  destruct (transition_current g1) as [t|]; [|by injection Hatt as <- <- <-].
  destruct (h !! t) as [tr|]; [|done].
  by destruct (attempt tr t w) as [[] w1]; injection Hatt as <- <- <-.
Qed.

(** Every public call keeps the engine configured. *)
Lemma exec_configured (c : call World) (m m' : machine World) :
  configured (m_engine m) → exec c m = Done m' → configured (m_engine m').
Proof.
  destruct m as [h w g]. cbn [m_engine]. intros Hconf. destruct c; cbn.
  - by intros [= <-].
  - unfold GOFSM_Transition_SetState. destruct (h !! transition); [|done].
    by intros [= <-].
  - intros ([e g'] & Hadd & [= <-])%run_bind_Done. cbn.
    by eapply add_transition_configured.
  - intros ([e g'] & Hrem & [= <-])%run_bind_Done. cbn.
    pose proof Hconf as (_ & _ & _ & _ & Hcount).
    eapply (remove_scan_configured g transition e g' Hconf);
      [| |exact Hrem]; lia.
  - by intros [= <-].
  - by intros [= <-].
  - intros ([[g' w'] tr] & Htick & [= <-])%run_bind_Done. cbn.
    by eapply tick_configured.
Qed.

(** ** C8: the registry never exceeds its capacity *)

Lemma add_transition_appends g t :
  configured g →
  transitions_count g ≠ transitions_capacity g →
  ∃ g',
    GOFSM_AddTransition g t = Done (GOFSM_Error_No, g')
    ∧ registered g' = registered g ++ [Some t]
    ∧ transitions_count g' = transitions_count g + 1
    ∧ is_graph_reconfigured g' = true.
Proof.
  intros (_ & Hcap & Hlen & _ & Hcount) Hne. unfold is_u8 in Hcap.
  unfold GOFSM_AddTransition.
  destruct (Z.eqb_spec (transitions_count g) (transitions_capacity g));
    [done|].
  case_decide; [|lia].
  eexists. split; [reflexivity|]. unfold registered, u8. cbn.
  rewrite Z.mod_small by lia. split_and!; try done.
  replace (Z.to_nat (transitions_count g + 1))
    with (S (Z.to_nat (transitions_count g))) by lia.
  rewrite (take_S_r _ _ (Some t)) by (apply list_lookup_insert_eq; lia).
  by rewrite take_insert_ge.
Qed.

(** C8. [GOFSM_AddTransition] returns [GOFSM_Error_OwerstackTransitions]
    exactly when the count equals the capacity, and then leaves the engine
    as it was; on a configured engine it otherwise appends the transition
    to the registered ones; and after [GOFSM_InitStatic] and any sequence
    of public calls the count is between 0 and the capacity. *)
Theorem add_transition_respects_capacity :
  (∀ g t,
     transitions_count g = transitions_capacity g →
     GOFSM_AddTransition g t = Done (GOFSM_Error_OwerstackTransitions, g))
  ∧ (∀ g t e g',
       GOFSM_AddTransition g t = Done (e, g') →
       (e = GOFSM_Error_OwerstackTransitions
        ↔ transitions_count g = transitions_capacity g))
  ∧ (∀ g t,
       configured g →
       transitions_count g ≠ transitions_capacity g →
       ∃ g',
         GOFSM_AddTransition g t = Done (GOFSM_Error_No, g')
         ∧ registered g' = registered g ++ [Some t]
         ∧ transitions_count g' = transitions_count g + 1)
  ∧ (∀ g g0 h (w : World) cs m',
       0 ≤ transitions_capacity g →
       GOFSM_InitStatic g = Done g0 →
       exec_all cs (mkMachine h w g0) = Done m' →
       0 ≤ transitions_count (m_engine m')
         ≤ transitions_capacity (m_engine m')
       ∧ transitions_capacity (m_engine m') = transitions_capacity g).
Proof.
  split_and!.
  - intros g t Heq. unfold GOFSM_AddTransition. by rewrite Heq, Z.eqb_refl.
  - intros g t e g' Hadd.
    by destruct (add_transition_keeps g t e g' Hadd) as (_ & _ & _ & _ & ?).
  - intros g t Hconf Hne.
    destruct (add_transition_appends g t Hconf Hne) as (g' & ? & ? & ? & _).
    by exists g'.
  - intros g g0 h w cs m' Hcap Hinit Hexec.
    destruct (init_static_state g g0 Hinit) as (Hc0 & Hcap0 & _).
    destruct (exec_all_keeps cs _ _ Hexec) as (Hcap' & Hcount & _).
    cbn in Hcap', Hcount. split; [|congruence].
    apply Hcount. unfold count_within_capacity. lia.
Qed.

(** ** C10: the failure flag is only set while a transition is cached *)

Lemma tick_search_none h (w w' : World) g g' tr :
  GOFSM_OnTick h w g = Done (g', w', tr) →
  EvSearch None ∈ tr →
  transition_current g' = None ∧ is_transition_failure g' = false.
Proof.
  unfold GOFSM_OnTick.
  destruct (current_node_index g =? target_node_index g).
  { intros [= <- <- <-] ?%elem_of_nil. done. }
  intros ([g1 searched] & Hplan & Hrest)%run_bind_Done Hin.
  apply run_bind_Done in Hrest as ([[g2 w2] attempted] & Hatt & [= <- <- <-]).
  assert (EvSearch None ∈ searched) as Hs.
  { apply elem_of_app in Hin as [?|Hin]; [done|]. exfalso.
    unfold tick_attempt in Hatt.
    destruct (transition_current g1) as [t|].
    2:{ injection Hatt as <- <- <-. by apply elem_of_nil in Hin. }
    destruct (h !! t) as [tr|]; [|done].
    destruct (attempt tr t w) as [[] w1]; injection Hatt as <- <- <-;
      by apply list_elem_of_singleton in Hin. }
  unfold tick_plan in Hplan. destruct (replans g).
  2:{ injection Hplan as <- <-. by apply elem_of_nil in Hs. }
  apply run_bind_Done in Hplan as ([found g3] & _ & [= <- <-]).
  apply list_elem_of_singleton in Hs. injection Hs as <-.
  unfold tick_attempt in Hatt. cbn in Hatt. by injection Hatt as <- <- <-.
Qed.

(** C10. [cached_when_failed] - a set failure flag implies a non-NULL
    cached transition - holds after [GOFSM_InitStatic] and after
    [GOFSM_Init] and is kept by every public call. Hence on an engine away
    from its target with nothing cached the replanning condition of
    [GOFSM_OnTick] holds and the tick calls [GOFSM_SearchNextStep] on the
    engine as it is: when the search runs outside the arrays so does the
    tick; when the tick returns, the search has returned, what it returned
    is the cached transition after the tick, the scratch buffer is the one
    the search left and both replanning flags are cleared. A tick that
    replans and whose search returns [NULL] attempts nothing and ends with
    nothing cached and the failure flag clear, so that the next tick
    replans again. *)
Theorem failure_flag_implies_cached :
  (∀ g g0, GOFSM_InitStatic g = Done g0 → cached_when_failed g0)
  ∧ (∀ g tc nc malloc_transitions malloc_alg_nodes_buffer g0,
       GOFSM_Init g tc nc malloc_transitions malloc_alg_nodes_buffer
       = Done g0 →
       cached_when_failed g0)
  ∧ (∀ (c : call World) m m',
       cached_when_failed (m_engine m) →
       exec c m = Done m' →
       cached_when_failed (m_engine m'))
  ∧ (∀ h (w : World) g,
       cached_when_failed g →
       current_node_index g ≠ target_node_index g →
       transition_current g = None →
       replans g = true
       ∧ (GOFSM_SearchNextStep h g = Fault → GOFSM_OnTick h w g = Fault)
       ∧ ∀ g' w' tr,
           GOFSM_OnTick h w g = Done (g', w', tr) →
           ∃ found g1 rest,
             GOFSM_SearchNextStep h g = Done (found, g1)
             ∧ tr = EvSearch found :: rest
             ∧ (∀ r, EvSearch r ∉ rest)
             ∧ transition_current g' = found
             ∧ alg_nodes_buffer g' = alg_nodes_buffer g1
             ∧ is_target_change g' = false
             ∧ is_graph_reconfigured g' = false)
  ∧ (∀ h (w : World) g g1,
       current_node_index g ≠ target_node_index g →
       replans g = true →
       GOFSM_SearchNextStep h g = Done (None, g1) →
       ∃ g',
         GOFSM_OnTick h w g = Done (g', w, [EvSearch None])
         ∧ transition_current g' = None
         ∧ is_transition_failure g' = false
         ∧ alg_nodes_buffer g' = alg_nodes_buffer g1
         ∧ current_node_index g' = current_node_index g
         ∧ cached_when_failed g'
         ∧ replans g' = true)
  ∧ (∀ h (w w' : World) g g' tr,
       GOFSM_OnTick h w g = Done (g', w', tr) →
       EvSearch None ∈ tr →
       transition_current g' = None ∧ is_transition_failure g' = false).
Proof.
  split_and!.
  - intros g g0 (_ & _ & _ & Hf)%init_static_state.
    unfold cached_when_failed. by rewrite Hf.
  - intros g tc nc mt mb g0 (_ & _ & _ & Hf)%init_static_state.
    unfold cached_when_failed. by rewrite Hf.
  - intros c m m' Hinv Hexec.
    by destruct (exec_keeps c m m' Hexec) as (_ & _ & Hkeep); apply Hkeep.
  - intros h w g Hinv Hne Hc.
    assert (replans g = true) as Hre.
    { unfold replans. unfold cached_when_failed in Hinv.
      destruct (is_transition_failure g); [|done]. by destruct Hinv. }
    split; [done|]. unfold GOFSM_OnTick, tick_plan. rewrite Hre.
    destruct (Z.eqb_spec (current_node_index g) (target_node_index g));
      [done|].
    split; [by intros ->|]. intros g' w' tr.
    destruct (GOFSM_SearchNextStep h g) as [[found g1]| |]; [|done..].
    cbn. intros ([[g2 w2] attempted] & Hatt & [= <- <- <-])%run_bind_Done.
    exists found, g1, attempted. split; [done|]. split; [done|].
    unfold tick_attempt in Hatt. cbn in Hatt.
    destruct found as [t|].
    2:{ injection Hatt as <- <- <-. split_and!; try done.
        intros r ?%elem_of_nil. done. }
    destruct (h !! t) as [trt|]; [|done].
    destruct (attempt trt t w) as [[] w1]; injection Hatt as <- <- <-;
      (split_and!; [|done..]); by intros r ?%list_elem_of_singleton.
  - intros h w g g1 Hne Hre Hsearch.
    unfold GOFSM_OnTick, tick_plan. rewrite Hre, Hsearch.
    destruct (Z.eqb_spec (current_node_index g) (target_node_index g));
      [done|].
    cbn. eexists. split; [reflexivity|]. cbn.
    unfold GOFSM_SearchNextStep in Hsearch.
    apply run_bind_Done in Hsearch as ([r s'] & _ & [= _ <-]).
    by split_and!.
  - apply tick_search_none.
Qed.

(** ** C1: which registry mutations mark the topology as changed *)

Lemma set_state_marks_topology h g t st h' g' :
  GOFSM_Transition_SetState h g t st = Done (h', g') →
  is_graph_reconfigured g' = true.
Proof.
  unfold GOFSM_Transition_SetState. destruct (h !! t); [|done].
  by intros [= <- <-].
Qed.

Lemma add_transition_marks_topology g t g' :
  GOFSM_AddTransition g t = Done (GOFSM_Error_No, g') →
  is_graph_reconfigured g' = true.
Proof.
  unfold GOFSM_AddTransition.
  destruct (transitions_count g =? transitions_capacity g); [done|].
  case_decide; [|done]. by intros [= <-].
Qed.

Lemma marked_topology_replans h (w w' : World) g g' tr :
  is_graph_reconfigured g = true →
  current_node_index g ≠ target_node_index g →
  GOFSM_OnTick h w g = Done (g', w', tr) →
  ∃ found rest, tr = EvSearch found :: rest.
Proof.
  intros Hflag Hne. unfold GOFSM_OnTick.
  destruct (Z.eqb_spec (current_node_index g) (target_node_index g));
    [done|].
  intros ([g1 searched] & Hplan & Hrest)%run_bind_Done.
  apply run_bind_Done in Hrest as ([[g2 w2] attempted] & _ & [= <- <- <-]).
  unfold tick_plan, replans in Hplan. rewrite Hflag, orb_true_r in Hplan.
  apply run_bind_Done in Hplan as ([found g3] & _ & [= <- <-]).
  by exists found, attempted.
Qed.

(** A successful [GOFSM_RemoveTransition] takes the first registration of
    the transition out of the registry and keeps the order of the others. *)
Lemma remove_scan_removes g t after :
  configured g →
  ∀ middle before,
    registered g = before ++ middle ++ Some t :: after →
    Some t ∉ middle →
    ∃ g',
      remove_scan g t (length middle + S (length after))
        (Z.of_nat (length before))
      = Done (GOFSM_Error_No, g')
      ∧ registered g' = before ++ middle ++ after
      ∧ transitions_count g' = transitions_count g - 1.
Proof.
  intros Hconf. pose proof Hconf as (_ & Hcap & Hlen & _ & Hcount).
  unfold is_u8 in Hcap.
  assert (length (registered g) = Z.to_nat (transitions_count g)) as Hreglen
    by (apply registered_length; lia).
  induction middle as [|x middle IH]; intros before Hreg Hnot.
  - cbn [app length Nat.add remove_scan]. rewrite Nat2Z.id.
    rewrite Hreg, !length_app in Hreglen. cbn in Hreglen.
    assert (transitions g !! length before = Some (Some t)) as ->.
    { assert (registered g !! length before = Some (Some t)) as Hl
        by (rewrite Hreg; by apply list_lookup_middle).
      unfold registered in Hl. by apply lookup_take_Some in Hl as [? _]. }
    rewrite decide_True by done. unfold memmove.
    case_decide as Hbounds; [|exfalso; apply Hbounds; lia]. cbn.
    eexists. split; [reflexivity|]. unfold registered, u8. cbn.
    rewrite Z.mod_small by lia. split; [|done].
    set (T := transitions g) in *. cbn in Hreg. unfold registered in Hreg.
    fold T in Hreg.
    assert (take (length before) T = before) as Hb.
    { transitivity (take (length before)
                      (take (Z.to_nat (transitions_count g)) T)).
      - rewrite take_take. f_equal. lia.
      - rewrite Hreg. apply take_app_length. }
    assert (take (Z.to_nat (transitions_count g - Z.of_nat (length before) - 1))
              (drop (Z.to_nat (Z.of_nat (length before) + 1)) T) = after)
      as Ha.
    { rewrite take_drop_commute.
      replace (Z.to_nat (Z.of_nat (length before) + 1)
               + Z.to_nat (transitions_count g
                           - Z.of_nat (length before) - 1))%nat
        with (Z.to_nat (transitions_count g)) by lia.
      rewrite Hreg.
      replace (before ++ Some t :: after)
        with ((before ++ [Some t]) ++ after) by solve_app.
      apply drop_app_length'. rewrite length_app. cbn. lia. }
    rewrite Nat2Z.id, Hb, Ha, app_assoc.
    rewrite take_app_length'; [done|]. rewrite length_app. lia.
  - cbn [length Nat.add remove_scan]. rewrite Nat2Z.id.
    assert (transitions g !! length before = Some x) as ->.
    { assert (registered g !! length before = Some x) as Hl
        by (rewrite Hreg; by apply list_lookup_middle).
      unfold registered in Hl. by apply lookup_take_Some in Hl as [? _]. }
    rewrite decide_False.
    2:{ intros ->. apply Hnot. left. }
    replace (Z.of_nat (length before) + 1)
      with (Z.of_nat (length (before ++ [x])))
      by (rewrite length_app; cbn; lia).
    destruct (IH (before ++ [x])) as (g' & Hrun & Hreg' & Hc).
    { rewrite Hreg. solve_app. }
    { intros Hin. apply Hnot. by right. }
    exists g'. split_and!; [done| |done]. rewrite Hreg'. solve_app.
Qed.

Lemma remove_transition_removes g t before after :
  configured g →
  registered g = before ++ Some t :: after →
  Some t ∉ before →
  ∃ g',
    GOFSM_RemoveTransition g t = Done (GOFSM_Error_No, g')
    ∧ registered g' = before ++ after
    ∧ transitions_count g' = transitions_count g - 1
    ∧ is_graph_reconfigured g' = is_graph_reconfigured g.
Proof.
  intros Hconf Hreg Hnot.
  destruct (remove_scan_removes g t after Hconf before [])
    as (g' & Hrun & Hreg' & Hc); [done|done|].
  assert (GOFSM_RemoveTransition g t = Done (GOFSM_Error_No, g')) as Hrem.
  { unfold GOFSM_RemoveTransition. rewrite <- Hrun. f_equal.
    pose proof Hconf as (_ & Hcap & Hlen & _ & Hcount). unfold is_u8 in Hcap.
    rewrite <- (registered_length g) by lia.
    rewrite Hreg, !length_app. cbn. lia. }
  exists g'. split_and!; try done.
  by destruct (remove_scan_keeps g t _ g' _ _ Hrem) as (_ & _ & _ & _ & ?).
Qed.

(** [GOFSM_RemoveTransition] never touches the topology-changed flag. *)
Lemma remove_transition_keeps_topology_flag g t e g' :
  GOFSM_RemoveTransition g t = Done (e, g') →
  is_graph_reconfigured g' = is_graph_reconfigured g.
Proof.
  intros Hrem.
  by destruct (remove_scan_keeps g t e g' _ _ Hrem) as (_ & _ & _ & _ & ?).
Qed.

End Properties.

(** * The properties on concrete engines *)

Section Concrete.

Import Demo.

Local Ltac in_list H :=
  repeat (apply elem_of_cons in H as [H|H]; [injection H as -> ->|]);
  try (apply elem_of_nil in H; destruct H).

Local Ltac fits :=
  let p := fresh "p" in
  let tr := fresh "tr" in
  let H := fresh "H" in
  intros p tr H; in_list H; cbn; lia.

Local Ltac conf := unfold configured, is_u8; cbn; lia.

(** The concrete engines are what the public calls build. *)
Example heap_AB_built :
  GOFSM_Transition_Init
    (GOFSM_Transition_Init ∅ 2%positive 1 2 None) 1%positive 0 1 (Some jam)
  = heap_AB.
Proof. reflexivity. Qed.

Example engine_A_built :
  (g ← GOFSM_Init engine_raw 4 3
          (Some [Some 9%positive; None; Some 2%positive; Some 9%positive])
          (Some [0; 0; 0]);
   '(_, g) ← GOFSM_AddTransition g 1%positive;
   Done (GOFSM_SetTarget g 1))
  = Done engine_A.
Proof. reflexivity. Qed.

Example engine_AB_built :
  (g ← GOFSM_Init engine_raw 4 3
          (Some [Some 9%positive; None; Some 2%positive; Some 9%positive])
          (Some [0; 0; 0]);
   '(_, g) ← GOFSM_AddTransition g 1%positive;
   '(_, g) ← GOFSM_AddTransition g 2%positive;
   Done (GOFSM_SetTarget g 2))
  = Done engine_AB.
Proof. reflexivity. Qed.

Example engine_zero_built :
  (g ← GOFSM_Init engine_raw 0 0 None None; Done (GOFSM_SetCurrent g 1))
  = Done engine_zero.
Proof. reflexivity. Qed.

Example engine_diamond_built :
  (g ← GOFSM_Init engine_raw 4 4
          (Some [Some 9%positive; None; Some 2%positive; Some 9%positive])
          (Some [0; 0; 0; 0]);
   '(_, g) ← GOFSM_AddTransition g 1%positive;
   '(_, g) ← GOFSM_AddTransition g 2%positive;
   '(_, g) ← GOFSM_AddTransition g 3%positive;
   '(_, g) ← GOFSM_AddTransition g 4%positive;
   Done (GOFSM_SetTarget g 3))
  = Done engine_diamond.
Proof. reflexivity. Qed.

(** The scenario of the specification: A and B enabled, from 0 to 2 in two
    ticks, the third tick is idle. Here the action of A is replaced by one
    that succeeds. *)
Example two_ticks_reach_the_target :
  ∃ g,
    ticks 3 (<[1%positive := mkTransition 0 1 (Some pass)
                               GOFSM_Transition_State_Available]> heap_AB)
      0%nat engine_AB
    = Done (g, 1%nat,
            [EvSearch (Some 1%positive);
             EvAttempt 1%positive GOFSM_Transition_Result_Success;
             EvSearch (Some 2%positive);
             EvAttempt 2%positive GOFSM_Transition_Result_Success])
    ∧ current_node_index g = 2.
Proof. eexists. split; [by vm_compute|reflexivity]. Qed.

(** C1. The code at the failing input: A is registered, a tick plans A and
    its action fails; [GOFSM_RemoveTransition] then succeeds and empties
    the registry but leaves the topology-changed flag clear, and the next
    tick attempts the removed transition again without a search. *)
Theorem remove_transition_leaves_stale_plan :
  GOFSM_OnTick heap_AB 0%nat engine_A
  = Done (engine_A_failed, 1%nat,
          [EvSearch (Some 1%positive);
           EvAttempt 1%positive GOFSM_Transition_Result_Failure])
  ∧ ∃ g2,
      GOFSM_RemoveTransition engine_A_failed 1%positive
      = Done (GOFSM_Error_No, g2)
      ∧ registered g2 = []
      ∧ is_graph_reconfigured g2 = false
      ∧ GOFSM_OnTick heap_AB 1%nat g2
        = Done (g2, 2%nat,
                [EvAttempt 1%positive GOFSM_Transition_Result_Failure]).
Proof.
  split; [by vm_compute|].
  eexists. split; [by vm_compute|]. by vm_compute.
Qed.

(** C2, as stated, fails: the call hands back the same, nothing, when the
    search finds no path (B blocked, at node 1, heading for node 2) and
    when the step succeeds (B available). *)
Lemma tick_without_path_reports_nothing :
  GOFSM_OnTick heap_AB_blocked 0%nat engine_AB_at_1
  = Done (engine_AB_stuck, 0%nat, [EvSearch None])
  ∧ (∃ g',
       GOFSM_OnTick heap_AB 0%nat engine_AB_at_1
       = Done (g', 0%nat,
               [EvSearch (Some 2%positive);
                EvAttempt 2%positive GOFSM_Transition_Result_Success]))
  ∧ GOFSM_OnTick_returned heap_AB_blocked 0%nat engine_AB_at_1
    = GOFSM_OnTick_returned heap_AB 0%nat engine_AB_at_1.
Proof.
  split; [by vm_compute|]. split; [|by vm_compute].
  eexists. by vm_compute.
Qed.

Lemma no_path_tick_is_silent_witness :
  current_node_index engine_AB_at_1 ≠ target_node_index engine_AB_at_1
  ∧ tick_plan heap_AB_blocked engine_AB_at_1
    = Done (engine_AB_stuck, [EvSearch None])
  ∧ ∃ g',
      GOFSM_OnTick heap_AB_blocked 7%nat engine_AB_at_1
      = Done (g', 7%nat, [EvSearch None])
      ∧ current_node_index g' = 1
      ∧ is_transition_failure g' = false.
Proof.
  assert (current_node_index engine_AB_at_1
          ≠ target_node_index engine_AB_at_1) as Hne by (cbn; lia).
  assert (tick_plan heap_AB_blocked engine_AB_at_1
          = Done (engine_AB_stuck, [EvSearch None])) as Hplan
    by (vm_compute; reflexivity).
  split; [exact Hne|]. split; [exact Hplan|].
  destruct (no_path_tick_is_silent heap_AB_blocked 7%nat engine_AB_at_1
              engine_AB_stuck [EvSearch None] Hne Hplan eq_refl)
    as (g' & Htick & _ & _ & Hcur & _ & Hf).
  exists g'. split; [exact Htick|]. split; [exact Hcur|exact Hf].
Defined.

Lemma graph_AB : graph heap_AB engine_AB = Some edges_AB.
Proof. vm_compute. reflexivity. Defined.

Lemma reachable_AB : reachable edges_AB 2 0.
Proof.
  exists 2%nat.
  apply (path_step edges_AB 2 1 0 1).
  { exists 1%positive, A. split; [left|]. by split_and!. }
  apply (path_step edges_AB 2 0 1 2).
  { exists 2%positive, B. split; [right; left|]. by split_and!. }
  apply path_here.
Defined.

Lemma search_returns_shortest_first_step_witness :
  graph heap_AB engine_AB = Some edges_AB
  ∧ configured engine_AB
  ∧ node_domain_fits edges_AB (nodes_capacity engine_AB)
  ∧ reachable edges_AB 2 0
  ∧ ∃ t tr n g',
      GOFSM_SearchNextStep heap_AB engine_AB = Done (Some t, g')
      ∧ heap_AB !! t = Some tr
      ∧ source_node_index tr = 0
      ∧ path_to edges_AB 2 n (destination_node_index tr)
      ∧ ∀ m, path_to edges_AB 2 m 0 → (S n ≤ m)%nat.
Proof.
  assert (configured engine_AB) as Hconf by conf.
  assert (node_domain_fits edges_AB (nodes_capacity engine_AB)) as Hfits
    by fits.
  split; [exact graph_AB|]. split; [exact Hconf|]. split; [exact Hfits|].
  split; [exact reachable_AB|].
  destruct (search_returns_shortest_first_step heap_AB engine_AB edges_AB
              graph_AB Hconf Hfits) as (Hfound & _).
  { cbn. lia. }
  { cbn. lia. }
  destruct (Hfound reachable_AB)
    as (t & tr & n & g' & Hrun & _ & Ht & _ & Hsrc & Hpath & Hmin).
  exists t, tr, n, g'. by split_and!.
Defined.

Lemma failed_attempt_is_retried_witness :
  GOFSM_OnTick heap_AB 0%nat engine_A
  = Done (engine_A_failed, 1%nat,
          [EvSearch (Some 1%positive);
           EvAttempt 1%positive GOFSM_Transition_Result_Failure])
  ∧ replans engine_A_failed = false
  ∧ ticks 3 heap_AB 1%nat engine_A_failed
    = Done (engine_A_failed, 4%nat,
            replicate 3
              (EvAttempt 1%positive GOFSM_Transition_Result_Failure))
  ∧ ∃ g',
      GOFSM_OnTick heap_AB 4%nat engine_A_failed
      = Done (g', 5%nat,
              [EvAttempt 1%positive GOFSM_Transition_Result_Failure]).
Proof.
  assert (GOFSM_OnTick heap_AB 0%nat engine_A
          = Done (engine_A_failed, 1%nat,
                  [EvSearch (Some 1%positive);
                   EvAttempt 1%positive GOFSM_Transition_Result_Failure]))
    as Htick by (vm_compute; reflexivity).
  split; [exact Htick|].
  destruct (failed_attempt_is_retried heap_AB 0%nat 1%nat engine_A
              engine_A_failed _ 1%positive Htick)
    as (_ & Hany & tr & Ht & Hretry).
  { right. left. }
  split.
  { by destruct (Hany heap_AB 1%nat engine_A_failed A). }
  assert (heap_AB !! 1%positive = Some A) as HA by reflexivity.
  rewrite HA in Ht. injection Ht as <-.
  destruct (Hretry 3%nat) as (Hticks & g' & Hnext).
  { cbn. by split_and!. }
  split; [exact Hticks|]. exists g'. exact Hnext.
Defined.

Lemma attempt_outcome_witness :
  (∃ g',
     GOFSM_OnTick heap_AB 0%nat engine_AB
     = Done (g', 1%nat,
             [EvSearch (Some 1%positive);
              EvAttempt 1%positive GOFSM_Transition_Result_Failure])
     ∧ transition_current g' = Some 1%positive
     ∧ current_node_index g' = 0
     ∧ is_transition_failure g' = true)
  ∧ (∃ g',
       GOFSM_OnTick heap_pass 0%nat engine_AB
       = Done (g', 1%nat,
               [EvSearch (Some 1%positive);
                EvAttempt 1%positive GOFSM_Transition_Result_Success])
       ∧ transition_current g' = Some 1%positive
       ∧ current_node_index g' = 1
       ∧ is_transition_failure g' = false)
  ∧ (∃ g',
       GOFSM_OnTick heap_AB 5%nat engine_AB_at_1
       = Done (g', 5%nat,
               [EvSearch (Some 2%positive);
                EvAttempt 2%positive GOFSM_Transition_Result_Success])
       ∧ transition_current g' = Some 2%positive
       ∧ current_node_index g' = 2
       ∧ is_transition_failure g' = false)
  ∧ (∃ g',
       GOFSM_OnTick heap_AB 7%nat engine_A_failed
       = Done (g', 8%nat,
               [EvAttempt 1%positive GOFSM_Transition_Result_Failure])
       ∧ transition_current g' = Some 1%positive
       ∧ current_node_index g' = 0
       ∧ is_transition_failure g' = true).
Proof.
  assert (current_node_index engine_AB ≠ target_node_index engine_AB)
    as Hne by (cbn; lia).
  assert (tick_plan heap_AB engine_AB
          = Done (engine_AB_planned, [EvSearch (Some 1%positive)])) as Hjam
    by (vm_compute; reflexivity).
  assert (tick_plan heap_pass engine_AB
          = Done (engine_AB_planned, [EvSearch (Some 1%positive)])) as Hpass
    by (vm_compute; reflexivity).
  assert (current_node_index engine_AB_at_1
          ≠ target_node_index engine_AB_at_1) as Hne1 by (cbn; lia).
  assert (∃ g1, tick_plan heap_AB engine_AB_at_1
                = Done (g1, [EvSearch (Some 2%positive)])
                ∧ transition_current g1 = Some 2%positive)
    as (g1 & Hplan1 & Hc1).
  { eexists. split; [vm_compute; reflexivity|reflexivity]. }
  assert (current_node_index engine_A_failed
          ≠ target_node_index engine_A_failed) as Hne2 by (cbn; lia).
  assert (tick_plan heap_AB engine_A_failed = Done (engine_A_failed, []))
    as Hretry by reflexivity.
  split_and!.
  - destruct (attempt_outcome heap_AB 0%nat engine_AB engine_AB_planned
                [EvSearch (Some 1%positive)] 1%positive A Hne Hjam
                eq_refl eq_refl) as (_ & _ & Hfailure).
    exact (Hfailure jam 1%nat eq_refl eq_refl).
  - destruct (attempt_outcome heap_pass 0%nat engine_AB engine_AB_planned
                [EvSearch (Some 1%positive)] 1%positive A_pass Hne Hpass
                eq_refl eq_refl) as (_ & Hsuccess & _).
    exact (Hsuccess pass 1%nat eq_refl eq_refl).
  - destruct (attempt_outcome heap_AB 5%nat engine_AB_at_1 g1
                [EvSearch (Some 2%positive)] 2%positive B Hne1 Hplan1
                Hc1 eq_refl) as (Hnone & _).
    exact (Hnone eq_refl).
  - destruct (attempt_outcome heap_AB 7%nat engine_A_failed engine_A_failed
                [] 1%positive A Hne2 Hretry eq_refl eq_refl)
      as (_ & _ & Hfailure).
    exact (Hfailure jam 8%nat eq_refl eq_refl).
Defined.

Lemma graph_XY : graph heap_XY engine_XY = Some edges_XY.
Proof. vm_compute. reflexivity. Defined.

Lemma search_scan_order_witness :
  graph heap_XY engine_XY = Some edges_XY
  ∧ configured engine_XY
  ∧ node_domain_fits edges_XY (nodes_capacity engine_XY)
  ∧ (∃ g', GOFSM_SearchNextStep heap_XY engine_XY
           = Done (Some 1%positive, g'))
  ∧ (∀ g', GOFSM_SearchNextStep heap_XY engine_XY
           ≠ Done (Some 2%positive, g'))
  ∧ (∀ t tr g',
       GOFSM_SearchNextStep heap_XY engine_XY = Done (Some t, g') →
       heap_XY !! t = Some tr →
       destination_node_index tr = 1 →
       t = 1%positive)
  ∧ ∀ t tr g',
      GOFSM_SearchNextStep heap_diamond engine_diamond
      = Done (Some t, g') →
      heap_diamond !! t = Some tr →
      destination_node_index tr = 1 →
      t = 3%positive.
Proof.
  assert (configured engine_XY) as Hconf by conf.
  assert (node_domain_fits edges_XY (nodes_capacity engine_XY)) as Hfits
    by fits.
  split; [exact graph_XY|]. split; [exact Hconf|]. split; [exact Hfits|].
  destruct (search_scan_order heap_XY engine_XY edges_XY graph_XY Hconf
              Hfits) as (_ & _ & Horder & Hfirst).
  { cbn. lia. }
  split_and!.
  - eexists. vm_compute. reflexivity.
  - intros g'.
    apply (Horder 1%positive 2%positive X Y []
             [Some 2%positive] g'); try done.
    apply not_elem_of_nil.
  - intros t tr g' Hres Ht Hdst.
    apply (Hfirst 1%positive X [] [Some 2%positive] t tr g'); try done.
    intros q tq Hin. by apply elem_of_nil in Hin.
  - assert (graph heap_diamond engine_diamond = Some edges_diamond)
      as Hgraph by (vm_compute; reflexivity).
    assert (configured engine_diamond) as Hconf' by conf.
    assert (node_domain_fits edges_diamond (nodes_capacity engine_diamond))
      as Hfits' by fits.
    destruct (search_scan_order heap_diamond engine_diamond edges_diamond
                Hgraph Hconf' Hfits') as (_ & _ & _ & Hfirst').
    { cbn. lia. }
    intros t tr g' Hres Ht Hdst.
    apply (Hfirst' 3%positive Q1 [Some 1%positive; Some 2%positive]
             [Some 4%positive] t tr g'); try done.
    intros q tq Hin Hq (_ & Hsrc & _).
    apply elem_of_cons in Hin as [[= ->]|Hin].
    { vm_compute in Hq. injection Hq as <-. cbn in Hsrc. lia. }
    apply elem_of_cons in Hin as [[= ->]|Hin].
    { vm_compute in Hq. injection Hq as <-. cbn in Hsrc. lia. }
    by apply elem_of_nil in Hin.
Defined.

(** C6, as stated, fails: Q1 is registered before Q2, both are Available,
    both start at the current node 0 and lead into the layer that the
    search scans when it returns (their destinations 1 and 2 are the
    sources of P1 and P2, which lead to the target 3), and the search
    returns Q2 (address 4), registered later, because its destination 2
    entered the frontier before the destination 1 of Q1. *)
Lemma later_registration_is_returned :
  graph heap_diamond engine_diamond = Some edges_diamond
  ∧ configured engine_diamond
  ∧ node_domain_fits edges_diamond (nodes_capacity engine_diamond)
  ∧ registered engine_diamond
    = [Some 1%positive; Some 2%positive; Some 3%positive; Some 4%positive]
  ∧ heap_diamond !! 3%positive = Some Q1
  ∧ heap_diamond !! 4%positive = Some Q2
  ∧ Available Q1 ∧ Available Q2
  ∧ source_node_index Q1 = current_node_index engine_diamond
  ∧ source_node_index Q2 = current_node_index engine_diamond
  ∧ edge edges_diamond (destination_node_index Q1)
      (target_node_index engine_diamond)
  ∧ edge edges_diamond (destination_node_index Q2)
      (target_node_index engine_diamond)
  ∧ (∃ g', GOFSM_SearchNextStep heap_diamond engine_diamond
           = Done (Some 4%positive, g'))
  ∧ ∀ g', GOFSM_SearchNextStep heap_diamond engine_diamond
          ≠ Done (Some 3%positive, g').
Proof.
  split; [vm_compute; reflexivity|]. split; [conf|]. split; [fits|].
  do 7 (split; [reflexivity|]).
  split.
  { exists 2%positive, P1. split; [|done]. right. left. }
  split.
  { exists 1%positive, P2. split; [|done]. left. }
  split.
  { eexists. vm_compute. reflexivity. }
  intros g'. vm_compute. discriminate.
Qed.

Lemma search_stays_in_scratch_witness :
  graph heap_AB engine_AB = Some edges_AB
  ∧ configured engine_AB
  ∧ node_domain_fits edges_AB (nodes_capacity engine_AB)
  ∧ ∃ r s',
      search_from search_fuel heap_AB engine_AB = Done (r, s')
      ∧ 0 ≤ visited_length s' ≤ 3
      ∧ NoDup (take (Z.to_nat (visited_length s')) (buf s')).
Proof.
  assert (configured engine_AB) as Hconf by conf.
  assert (node_domain_fits edges_AB (nodes_capacity engine_AB)) as Hfits
    by fits.
  split; [exact graph_AB|]. split; [exact Hconf|]. split; [exact Hfits|].
  destruct (search_stays_in_scratch heap_AB engine_AB edges_AB graph_AB
              Hconf Hfits) as (r & s' & Hrun & _ & Hvl & _ & _ & Hnd).
  { cbn. lia. }
  exists r, s'. split; [exact Hrun|]. split; [exact Hvl|exact Hnd].
Defined.

(** C7, as stated, fails: an engine without nodes and without transitions
    satisfies the precondition, since no registered transition has a node
    at all, and the search writes the target into slot 0 of an empty
    scratch region. *)
Lemma search_leaves_empty_scratch :
  graph (∅ : gmap positive (GOFSM_Transition_t nat)) engine_zero = Some []
  ∧ configured engine_zero
  ∧ node_domain_fits ([] : list (positive * GOFSM_Transition_t nat))
      (nodes_capacity engine_zero)
  ∧ search_from search_fuel (∅ : gmap positive (GOFSM_Transition_t nat))
      engine_zero = Fault
  ∧ GOFSM_SearchNextStep (∅ : gmap positive (GOFSM_Transition_t nat))
      engine_zero = Fault.
Proof.
  split_and!; [done|conf| |done|done].
  intros p tr H. by apply elem_of_nil in H.
Qed.

Lemma idle_tick_changes_nothing_witness :
  current_node_index engine_AB_at_2 = target_node_index engine_AB_at_2
  ∧ GOFSM_OnTick heap_AB 0%nat engine_AB_at_2
    = Done (engine_AB_at_2, 0%nat, []).
Proof.
  split; [reflexivity|].
  apply (idle_tick_changes_nothing heap_AB 0%nat engine_AB_at_2).
  reflexivity.
Defined.

Lemma add_transition_respects_capacity_witness :
  GOFSM_AddTransition engine_full 2%positive
  = Done (GOFSM_Error_OwerstackTransitions, engine_full)
  ∧ (∃ g', GOFSM_AddTransition engine_A 2%positive
           = Done (GOFSM_Error_No, g')
           ∧ registered g' = [Some 1%positive; Some 2%positive])
  ∧ ∀ g0 cs m',
      GOFSM_InitStatic engine_raw = Done g0 →
      exec_all cs (mkMachine heap_AB 0%nat g0) = Done m' →
      0 ≤ transitions_count (m_engine m') ≤ 4.
Proof.
  destruct (add_transition_respects_capacity (World:=nat))
    as (Hfull & _ & Happend & Hbound).
  split; [by apply Hfull|]. split.
  - destruct (Happend engine_A 2%positive) as (g' & Hadd & Hreg & _).
    { conf. }
    { cbn. lia. }
    exists g'. split; [exact Hadd|exact Hreg].
  - intros g0 cs m' Hinit Hexec.
    destruct (Hbound engine_raw g0 heap_AB 0%nat cs m') as [Hc Hcap];
      [cbn; lia|exact Hinit|exact Hexec|].
    rewrite Hcap in Hc. exact Hc.
Defined.

Lemma failure_flag_implies_cached_witness :
  (∀ g0, GOFSM_InitStatic engine_raw = Done g0 → cached_when_failed g0)
  ∧ replans engine_AB_stuck = true
  ∧ (∀ c m',
       exec c (mkMachine heap_AB 0%nat engine_A_failed) = Done m' →
       cached_when_failed (m_engine m'))
  ∧ (∃ g' g1,
       GOFSM_OnTick heap_AB 0%nat engine_AB
       = Done (g', 1%nat,
               [EvSearch (Some 1%positive);
                EvAttempt 1%positive GOFSM_Transition_Result_Failure])
       ∧ GOFSM_SearchNextStep heap_AB engine_AB
         = Done (Some 1%positive, g1)
       ∧ transition_current g' = Some 1%positive
       ∧ alg_nodes_buffer g' = alg_nodes_buffer g1
       ∧ is_target_change g' = false
       ∧ is_graph_reconfigured g' = false)
  ∧ ∃ g',
      GOFSM_OnTick heap_AB_blocked 0%nat engine_AB_stuck
      = Done (g', 0%nat, [EvSearch None])
      ∧ transition_current g' = None
      ∧ is_transition_failure g' = false
      ∧ replans g' = true.
Proof.
  destruct (failure_flag_implies_cached (World:=nat))
    as (Hinit & _ & Hkeep & Hreplan & Hnone & _).
  split; [exact (Hinit engine_raw)|]. split_and!.
  - apply (Hreplan heap_AB 0%nat engine_AB_stuck); [done|cbn; lia|done].
  - intros c m'. apply Hkeep. done.
  - destruct (Hreplan heap_AB 0%nat engine_AB) as (_ & _ & Hsearch);
      [done|cbn; lia|done|].
    assert (∃ g',
              GOFSM_OnTick heap_AB 0%nat engine_AB
              = Done (g', 1%nat,
                      [EvSearch (Some 1%positive);
                       EvAttempt 1%positive
                         GOFSM_Transition_Result_Failure]))
      as [g' Htick] by (eexists; vm_compute; reflexivity).
    destruct (Hsearch g' 1%nat _ Htick)
      as (found & g1 & rest & Hs & Htr & _ & Hc & Hb & Htc & Hgr).
    injection Htr as <- <-.
    exists g', g1. by split_and!.
  - assert (∃ g1, GOFSM_SearchNextStep heap_AB_blocked engine_AB_stuck
                  = Done (None, g1)) as [g1 Hs]
      by (eexists; vm_compute; reflexivity).
    destruct (Hnone heap_AB_blocked 0%nat engine_AB_stuck g1)
      as (g' & Htick & Hc & Hf & _ & _ & _ & Hre);
      [cbn; lia|reflexivity|exact Hs|].
    exists g'. by split_and!.
Defined.

End Concrete.

(** * Further properties of the registry, the construction and whole runs *)

Section Further.

Context {World : Type}.

Implicit Types (h : gmap positive (GOFSM_Transition_t World)) (g : GOFSM_t).
Implicit Types (es : list (positive * GOFSM_Transition_t World)).

(** ** The registry *)

Lemma remove_scan_absent g t :
  configured g →
  Some t ∉ registered g →
  ∀ n i,
    0 ≤ i → Z.of_nat n + i = transitions_count g →
    remove_scan g t n i = Done (GOFSM_Error_NotRegisteredTransition, g).
Proof.
  intros (_ & Hcap & Hlen & _ & Hcount) Hnot. unfold is_u8 in Hcap.
  induction n as [|n IH]; intros i Hi Hsum; [done|]. cbn.
  destruct (transitions g !! Z.to_nat i) as [slot|] eqn:Hslot.
  2:{ apply lookup_ge_None in Hslot. lia. }
  rewrite decide_False; [apply IH; lia|].
  intros ->. apply Hnot. apply list_elem_of_lookup. exists (Z.to_nat i).
  unfold registered. apply lookup_take_Some. split; [done|lia].
Qed.

(** X1. On a configured engine, removing a registered transition takes
    out its first registration and nothing else: the transitions before
    and after it keep their order, the count drops by one, capacity and
    cached transition stay, and the transition is still registered
    afterwards exactly when it had been registered more than once. *)
Theorem remove_takes_first_registration g t before after :
  configured g →
  registered g = before ++ Some t :: after →
  Some t ∉ before →
  ∃ g',
    GOFSM_RemoveTransition g t = Done (GOFSM_Error_No, g')
    ∧ registered g' = before ++ after
    ∧ transitions_count g' = transitions_count g - 1
    ∧ transitions_capacity g' = transitions_capacity g
    ∧ transition_current g' = transition_current g
    ∧ (Some t ∈ registered g' ↔ Some t ∈ after).
Proof.
  intros Hconf Hreg Hnot.
  destruct (remove_transition_removes g t before after Hconf Hreg Hnot)
    as (g' & Hrem & Hreg' & Hc & _).
  destruct (remove_scan_keeps g t _ g' _ _ Hrem) as (Hcap & Hcur & _).
  exists g'. split_and!; try done.
  rewrite Hreg', elem_of_app. tauto.
Qed.

(** X2. On a configured engine [GOFSM_RemoveTransition] always returns:
    with [GOFSM_Error_NotRegisteredTransition] exactly when the transition
    is not registered, and then the engine is untouched; with
    [GOFSM_Error_No] otherwise. *)
Theorem remove_reports_unregistered g t :
  configured g →
  ∃ e g',
    GOFSM_RemoveTransition g t = Done (e, g')
    ∧ (e = GOFSM_Error_NotRegisteredTransition ↔ Some t ∉ registered g)
    ∧ (e = GOFSM_Error_No ↔ Some t ∈ registered g)
    ∧ (Some t ∉ registered g → g' = g).
Proof.
  intros Hconf.
  destruct (decide (Some t ∈ registered g)) as [Hin|Hnot].
  - apply list_elem_of_split_l in Hin as (before & after & Hreg & Hb).
    destruct (remove_transition_removes g t before after Hconf Hreg Hb)
      as (g' & Hrem & _).
    assert (Some t ∈ registered g) as Hin.
    { rewrite Hreg. apply elem_of_app. right. left. }
    exists GOFSM_Error_No, g'. split_and!; try done.
  - exists GOFSM_Error_NotRegisteredTransition, g.
    pose proof Hconf as (_ & _ & _ & _ & Hcount).
    split_and!; try done.
    unfold GOFSM_RemoveTransition. apply remove_scan_absent; try done; lia.
Qed.

(** X3. On a configured engine with a free slot, adding a transition that
    is not registered and removing it again gives back the registered
    transitions and the count; the array keeps the stale address in the
    slot after the last registered one. *)
Theorem add_then_remove_restores_registry g t :
  configured g →
  transitions_count g ≠ transitions_capacity g →
  Some t ∉ registered g →
  ∃ g1 g2,
    GOFSM_AddTransition g t = Done (GOFSM_Error_No, g1)
    ∧ GOFSM_RemoveTransition g1 t = Done (GOFSM_Error_No, g2)
    ∧ registered g2 = registered g
    ∧ transitions_count g2 = transitions_count g
    ∧ transitions g2 !! Z.to_nat (transitions_count g) = Some (Some t)
    ∧ is_graph_reconfigured g2 = true.
Proof.
  intros Hconf Hroom Hnot.
  destruct (add_transition_appends g t Hconf Hroom)
    as (g1 & Hadd & Hreg1 & Hc1 & Hflag1).
  pose proof (add_transition_configured g t _ g1 Hconf Hadd) as Hconf1.
  destruct (remove_transition_removes g1 t (registered g) [] Hconf1 Hreg1
              Hnot) as (g2 & Hrem & Hreg2 & Hc2 & Hflag2).
  exists g1, g2. rewrite app_nil_r in Hreg2.
  split_and!; try done; [lia| |congruence].
  pose proof Hconf as (_ & Hcap & Hlen & _ & Hcount). unfold is_u8 in Hcap.
  unfold GOFSM_AddTransition in Hadd.
  destruct (Z.eqb_spec (transitions_count g) (transitions_capacity g))
    as [|_]; [done|].
  case_decide; [|done]. injection Hadd as <-.
  unfold GOFSM_RemoveTransition in Hrem. cbn in Hrem.
  revert Hrem. unfold u8. rewrite Z.mod_small by lia.
  replace (Z.to_nat (transitions_count g + 1))
    with (S (Z.to_nat (transitions_count g))) by lia.
  intros Hrem.
  assert (∀ n i gx,
            0 ≤ i → Z.of_nat n + i = transitions_count g + 1 →
            remove_scan gx t n i = Done (GOFSM_Error_No, g2) →
            transitions gx !! Z.to_nat (transitions_count g) = Some (Some t) →
            length (transitions gx) = length (transitions g) →
            transitions_count gx = transitions_count g + 1 →
            transitions g2 !! Z.to_nat (transitions_count g)
            = Some (Some t)) as Hstale.
  { clear Hrem. induction n as [|n IH]; intros i gx Hi Hsum; cbn; [done|].
    destruct (transitions gx !! Z.to_nat i) as [slot|]; [|done].
    case_decide; [|apply IH; lia].
    unfold memmove. case_decide as Hb; [|done]. cbn.
    intros [= <-] Hlast Hlenx Hcx. cbn. rewrite Hcx in *.
    rewrite lookup_app_r by (rewrite length_take; lia).
    rewrite lookup_app_r by (rewrite !length_take, length_drop; lia).
    rewrite lookup_drop, <- Hlast. f_equal.
    rewrite !length_take, length_drop. lia. }
  eapply Hstale; [| |exact Hrem| | |]; cbn; try lia.
  - apply list_lookup_insert_eq. lia.
  - apply length_insert.
Qed.

(** ** Construction *)

Lemma clear_slots_spec :
  ∀ n (slots : list (option positive)) (i : nat),
    (i + n ≤ length slots)%nat →
    clear_slots slots n (Z.of_nat i)
    = Done (take i slots ++ replicate n None ++ drop (i + n) slots).
Proof.
  induction n as [|n IH]; intros slots i Hlen; cbn [clear_slots replicate].
  { by rewrite Nat.add_0_r, app_nil_l, take_drop. }
  destruct (Z.ltb_spec (Z.of_nat i) (Z.of_nat (length slots))); [|lia].
  rewrite Nat2Z.id.
  replace (Z.of_nat i + 1) with (Z.of_nat (S i)) by lia.
  rewrite IH by (rewrite length_insert; lia).
  rewrite (take_S_r _ _ None) by (apply list_lookup_insert_eq; lia).
  rewrite take_insert_ge by lia.
  rewrite drop_insert_lt by lia.
  replace (i + S n)%nat with (S i + n)%nat by lia.
  by rewrite <- app_assoc.
Qed.

Lemma clear_slots_overrun :
  ∀ n (slots : list (option positive)) (i : nat),
    (i ≤ length slots < i + n)%nat →
    clear_slots slots n (Z.of_nat i) = Fault.
Proof.
  induction n as [|n IH]; intros slots i Hlen; [lia|]. cbn.
  destruct (Z.ltb_spec (Z.of_nat i) (Z.of_nat (length slots))); [|done].
  replace (Z.of_nat i + 1) with (Z.of_nat (S i)) by lia.
  apply IH. rewrite length_insert. lia.
Qed.

(** X5. [GOFSM_InitStatic] on an instance whose transition array has at
    least [transitions_capacity] slots empties the registry: these slots
    become [NULL], the count, the current node and the cached transition
    are reset, the flags make the first tick replan, while the target
    node, the scratch buffer and the capacities are left as they were.
    When the array is shorter than the capacity says, the clearing loop
    runs past its end. *)
Theorem init_static_resets g :
  ((Z.to_nat (transitions_capacity g) ≤ length (transitions g))%nat →
   ∃ g0,
     GOFSM_InitStatic g = Done g0
     ∧ transitions g0
       = replicate (Z.to_nat (transitions_capacity g)) None
         ++ drop (Z.to_nat (transitions_capacity g)) (transitions g)
     ∧ registered g0 = []
     ∧ transitions_count g0 = 0
     ∧ transition_current g0 = None
     ∧ current_node_index g0 = 0
     ∧ replans g0 = true
     ∧ is_transition_failure g0 = false
     ∧ target_node_index g0 = target_node_index g
     ∧ alg_nodes_buffer g0 = alg_nodes_buffer g
     ∧ transitions_capacity g0 = transitions_capacity g
     ∧ nodes_capacity g0 = nodes_capacity g)
  ∧ ((length (transitions g) < Z.to_nat (transitions_capacity g))%nat →
     GOFSM_InitStatic g = Fault).
Proof.
  unfold GOFSM_InitStatic. split; intros Hlen.
  - rewrite (clear_slots_spec _ _ 0%nat) by lia. cbn.
    eexists. split; [reflexivity|]. by split_and!.
  - rewrite (clear_slots_overrun _ _ 0%nat) by lia. done.
Qed.

Lemma exec_keeps_nodes_capacity (c : call World) (m m' : machine World) :
  exec c m = Done m' →
  nodes_capacity (m_engine m') = nodes_capacity (m_engine m).
Proof.
  destruct m as [h w g]. destruct c; cbn.
  - by intros [= <-].
  - unfold GOFSM_Transition_SetState. destruct (h !! transition); [|done].
    by intros [= <-].
  - intros ([e g'] & Hadd & [= <-])%run_bind_Done. cbn.
    unfold GOFSM_AddTransition in Hadd.
    destruct (transitions_count g =? transitions_capacity g).
    { by injection Hadd as <- <-. }
    case_decide; [|done]. by injection Hadd as <- <-.
  - intros ([e g'] & Hrem & [= <-])%run_bind_Done. cbn.
    unfold GOFSM_RemoveTransition in Hrem. revert Hrem.
    generalize (Z.to_nat (transitions_count g)) 0.
    induction n as [|n IH]; intros i; cbn.
    { by intros [= <- <-]. }
    destruct (transitions g !! Z.to_nat i); [|done].
    case_decide; [|apply IH].
    by intros (slots & _ & [= <- <-])%run_bind_Done.
  - by intros [= <-].
  - by intros [= <-].
  - intros ([[g' w'] tr] & Htick & [= <-])%run_bind_Done. cbn.
    by destruct (tick_keeps h w w' g g' tr Htick) as (_ & _ & _ & ? & _).
Qed.

(** X4. [GOFSM_Init] stores what the two calls of [malloc] returned and
    compares neither with [NULL]. When both calls return a block (of the
    requested [uint8_t] number of elements, with any contents), the call
    yields a configured engine with an empty registry: every transition slot
    is cleared, the scratch buffer is the block as the allocator left it;
    and whatever public calls follow, the engine stays configured with the
    same capacities. When the first call returns [NULL] and the capacity is
    not 0, the clearing loop of [GOFSM_InitStatic] stores through [NULL].
    When only the second call returns [NULL], [GOFSM_Init] returns an
    engine without a scratch buffer, and the first store of a search goes
    through [NULL]. *)
Theorem init_then_calls_stay_configured g tc nc :
  is_u8 tc → is_u8 nc →
  (∀ slots buffer,
     malloc_returns tc (Some slots) → malloc_returns nc (Some buffer) →
     ∃ g0,
       GOFSM_Init g tc nc (Some slots) (Some buffer) = Done g0
       ∧ configured g0
       ∧ registered g0 = []
       ∧ transitions g0 = replicate (Z.to_nat tc) None
       ∧ alg_nodes_buffer g0 = buffer
       ∧ transitions_capacity g0 = tc ∧ nodes_capacity g0 = nc
       ∧ ∀ h (w : World) cs m',
           exec_all cs (mkMachine h w g0) = Done m' →
           configured (m_engine m')
           ∧ transitions_capacity (m_engine m') = tc
           ∧ nodes_capacity (m_engine m') = nc)
  ∧ (∀ malloc_alg_nodes_buffer,
       0 < tc → GOFSM_Init g tc nc None malloc_alg_nodes_buffer = Fault)
  ∧ (∀ slots,
       malloc_returns tc (Some slots) →
       ∃ g0,
         GOFSM_Init g tc nc (Some slots) None = Done g0
         ∧ alg_nodes_buffer g0 = []
         ∧ nodes_capacity g0 = nc
         ∧ (0 < nc → ¬ configured g0)
         ∧ ∀ h, GOFSM_SearchNextStep h g0 = Fault).
Proof.
  intros Ht Hn. split_and!.
  - intros slots buffer Hslots Hbuffer. cbn in Hslots, Hbuffer.
    assert (∃ g0, GOFSM_Init g tc nc (Some slots) (Some buffer) = Done g0
                  ∧ registered g0 = []
                  ∧ transitions g0 = replicate (Z.to_nat tc) None
                  ∧ alg_nodes_buffer g0 = buffer
                  ∧ transitions_capacity g0 = tc ∧ nodes_capacity g0 = nc)
      as (g0 & Hinit & Hreg & Hslots0 & Hbuf & Hc & Hnc).
    { unfold GOFSM_Init, GOFSM_InitStatic. cbn.
      rewrite (clear_slots_spec _ _ 0%nat) by lia. cbn.
      rewrite drop_ge, app_nil_r by lia.
      eexists. split; [reflexivity|]. by split_and!. }
    pose proof (init_configured g tc nc slots buffer g0 Ht Hn Hslots Hbuffer
                  Hinit) as Hconf.
    exists g0. split_and!; try done.
    intros h w cs. clear Hinit Hreg Hslots0 Hbuf. revert h w g0 Hconf Hc Hnc.
    induction cs as [|c cs IH]; intros h w g0 Hconf Hc Hnc m'; cbn.
    { by intros [= <-]. }
    intros (m1 & Hexec & Hrest)%run_bind_Done.
    pose proof (exec_configured c (mkMachine h w g0) m1 Hconf Hexec)
      as Hconf1.
    destruct (exec_keeps c _ m1 Hexec) as (Hc1 & _).
    pose proof (exec_keeps_nodes_capacity c _ m1 Hexec) as Hn1.
    destruct m1 as [h1 w1 g1]. cbn in Hc1, Hn1, Hconf1.
    apply (IH h1 w1 g1); [done|congruence|congruence|done].
  - intros r Hpos. unfold GOFSM_Init, GOFSM_InitStatic. cbn.
    rewrite (clear_slots_overrun _ _ 0%nat) by (cbn; lia). done.
  - intros slots Hslots. cbn in Hslots.
    unfold GOFSM_Init, GOFSM_InitStatic. cbn.
    rewrite (clear_slots_spec _ _ 0%nat) by lia. cbn.
    eexists. split; [reflexivity|]. cbn. split_and!; try done.
    intros Hpos (_ & _ & _ & Hlen & _). cbn in Hlen. lia.
Qed.

(** ** The search on any engine *)

Lemma search_loop_more_fuel h g current :
  ∀ fuel fuel' index_planned s,
    (fuel ≤ fuel')%nat →
    search_loop fuel h g current index_planned s ≠ Timeout →
    search_loop fuel' h g current index_planned s
    = search_loop fuel h g current index_planned s.
Proof.
  induction fuel as [|fuel IH]; intros fuel' index_planned s Hle; [done|].
  destruct fuel' as [|fuel']; [lia|]. cbn [search_loop].
  destruct (planned_length s =? 0); [done|].
  destruct (for_loop _ _ _ _) as [s'| |]; [|done..].
  apply IH. lia.
Qed.

(** X6. Take any engine and heap, cyclic graphs and invalid registries
    included, with a scratch buffer of at most 255 slots. A run of the
    search either makes an access outside an array or through an invalid
    pointer, which is undefined behaviour in C and where the run is
    followed no further, or returns after evaluating the condition of its
    loop at most once more than there are slots: allowing it more
    evaluations than that, or than the 256 of [GOFSM_SearchNextStep], never
    changes the result. On a configured engine whose registry is valid and
    whose node domain fits the scratch region no such access is made, and
    the search returns. *)
Theorem search_loop_terminates h g fuel :
  (length (alg_nodes_buffer g) ≤ 255)%nat →
  (length (alg_nodes_buffer g) < fuel)%nat →
  (search_from fuel h g = Fault
   ∨ ∃ r s', search_from fuel h g = Done (r, s'))
  ∧ search_from fuel h g ≠ Timeout
  ∧ search_from (fuel + 256) h g = search_from fuel h g
  ∧ search_from (fuel + 256) h g = search_from search_fuel h g
  ∧ (∀ es,
       graph h g = Some es →
       configured g →
       node_domain_fits es (nodes_capacity g) →
       1 ≤ nodes_capacity g →
       ∃ r s',
         search_from fuel h g = Done (r, s')
         ∧ GOFSM_SearchNextStep h g
           = Done (r, set_alg_nodes_buffer (buf s') g)).
Proof.
  intros Hlen Hfuel.
  assert (∀ f, (length (alg_nodes_buffer g) < f)%nat →
               search_from f h g ≠ Timeout) as Hends.
  { intros f Hf. unfold search_from.
    destruct (Z.ltb_spec 0 (Z.of_nat (length (alg_nodes_buffer g))));
      [|done].
    pose proof (search_loop_ok h g (current_node_index g)
                  (alg_nodes_buffer g) Hlen f 0
                  (mkScratch
                     (<[Z.to_nat 0 := target_node_index g]>
                        (alg_nodes_buffer g)) 1 1)) as Hok.
    destruct (search_loop _ _ _ _ _ _) as [[r s']| |]; [done..|].
    exfalso.
    assert (Z.of_nat f ≤ Z.of_nat (length (alg_nodes_buffer g)) - 0);
      [|lia].
    apply Hok; [lia|]. unfold scratch_ok. cbn. rewrite length_insert.
    split_and!; try done; try lia.
    by rewrite drop_insert_lt by lia. }
  assert (∀ f f', (f ≤ f')%nat → search_from f h g ≠ Timeout →
                  search_from f' h g = search_from f h g) as Hmore.
  { intros f f' Hle. unfold search_from.
    destruct (0 <? Z.of_nat (length (alg_nodes_buffer g))); [|done].
    by apply search_loop_more_fuel. }
  assert (search_from (fuel + 256) h g = search_from fuel h g) as Hsame
    by (apply Hmore; [lia|by apply Hends]).
  assert (search_from (fuel + 256) h g = search_from search_fuel h g)
    as Hsame'.
  { apply Hmore; [unfold search_fuel; lia|].
    apply Hends. unfold search_fuel. lia. }
  split_and!.
  - pose proof (Hends fuel Hfuel) as Hno.
    destruct (search_from fuel h g) as [[r s']| |]; [|by left|done].
    right. by exists r, s'.
  - by apply Hends.
  - exact Hsame.
  - exact Hsame'.
  - intros es Hgraph Hconf Hfits Hcap.
    destruct (search_from_spec h g es Hgraph Hconf Hfits Hcap)
      as (r & s' & Vf & Hrun & _).
    exists r, s'. split; [congruence|].
    unfold GOFSM_SearchNextStep. by rewrite Hrun.
Qed.

Lemma for_loop_return {St} (P : positive → Prop)
    (body : Z → St → outcome St) :
  ∀ n i (st : St),
    (∀ k (st1 st' : St) t,
       i ≤ k < i + Z.of_nat n → body k st1 = Return t st' → P t) →
    ∀ t (st' : St), for_loop body n i st = Return t st' → P t.
Proof.
  induction n as [|n IH]; intros i st Hbody t st'; cbn; [done|].
  destruct (body i st) as [st1|t1 st1|] eqn:Hb; [| |done].
  - apply IH. intros k st2 st3 t2 Hk. apply Hbody. lia.
  - intros [= <- <-]. apply (Hbody i st st1 t1); [lia|done].
Qed.

Lemma scan_slot_return h current node planned slot s t s' :
  scan_slot h current node planned slot s = Return t s' →
  slot = Some t
  ∧ ∃ tr, h !! t = Some tr ∧ Available tr
          ∧ source_node_index tr = current
          ∧ destination_node_index tr = node.
Proof.
  unfold scan_slot. destruct slot as [p|]; [|done].
  destruct (h !! p) as [tr|] eqn:Hp; [|done].
  destruct (Z.eqb_spec (destination_node_index tr) node); [|done].
  destruct (state tr) eqn:Hst; [done|].
  destruct (Z.eqb_spec (source_node_index tr) current).
  - intros [= <- <-]. split; [done|]. by exists tr.
  - destruct (is_visited _ _ _ _) as [[]|]; [done| |done]. cbn zeta.
    by destruct (_ <? _).
Qed.

Lemma search_loop_result h g current :
  ∀ fuel index_planned s t s',
    search_loop fuel h g current index_planned s = Done (Some t, s') →
    Some t ∈ registered g
    ∧ ∃ tr, h !! t = Some tr ∧ Available tr
            ∧ source_node_index tr = current.
Proof.
  induction fuel as [|fuel IH]; intros index_planned s t s'; [done|].
  cbn [search_loop]. destruct (planned_length s =? 0); [done|].
  destruct (for_loop _ _ _ _) as [s1|t1 s1|] eqn:Hloop; [apply IH| |done].
  intros [= <- <-]. revert Hloop.
  set (P := λ t : positive,
         Some t ∈ registered g
         ∧ ∃ tr, h !! t = Some tr ∧ Available tr
                 ∧ source_node_index tr = current).
  apply (for_loop_return P).
  intros i st1 st2 t2 _. unfold scan_node.
  destruct (buf st1 !! _) as [node|]; [|done].
  apply (for_loop_return P). intros j st3 st4 t3 Hj. unfold scan_transition.
  destruct (transitions g !! Z.to_nat j) as [slot|] eqn:Hslot; [|done].
  intros (-> & tr & ? & ? & ? & _)%scan_slot_return. split; [|by exists tr].
  apply list_elem_of_lookup. exists (Z.to_nat j). unfold registered.
  apply lookup_take_Some. split; [done|lia].
Qed.

Lemma search_next_step_result h g t g' :
  GOFSM_SearchNextStep h g = Done (Some t, g') →
  Some t ∈ registered g
  ∧ (∃ tr, h !! t = Some tr ∧ Available tr
           ∧ source_node_index tr = current_node_index g)
  ∧ g' = set_alg_nodes_buffer (alg_nodes_buffer g') g.
Proof.
  unfold GOFSM_SearchNextStep.
  intros ([r s'] & Hrun & [= -> <-])%run_bind_Done.
  unfold search_from in Hrun.
  destruct (0 <? Z.of_nat (length (alg_nodes_buffer g))); [|done].
  apply search_loop_result in Hrun as [? ?]. by split_and!.
Qed.

(** X7. In any state of engine and heap, a search that returns - a
    transition or [NULL] - leaves every field of the engine but the scratch
    buffer as it was, and the scratch buffer (of at most 255 slots) keeps
    its size; and a transition that it returns is registered, points to a
    live record, is Available and starts at the current node. *)
Theorem search_result_is_enabled_step h g r g' :
  GOFSM_SearchNextStep h g = Done (r, g') →
  g' = set_alg_nodes_buffer (alg_nodes_buffer g') g
  ∧ ((length (alg_nodes_buffer g) ≤ 255)%nat →
     length (alg_nodes_buffer g') = length (alg_nodes_buffer g))
  ∧ ∀ t,
      r = Some t →
      Some t ∈ registered g
      ∧ ∃ tr, h !! t = Some tr ∧ Available tr
              ∧ source_node_index tr = current_node_index g.
Proof.
  intros Hsearch. split_and!.
  - unfold GOFSM_SearchNextStep in Hsearch.
    by apply run_bind_Done in Hsearch as ([r' s'] & _ & [= _ <-]).
  - intros Hlen. unfold GOFSM_SearchNextStep in Hsearch.
    apply run_bind_Done in Hsearch as ([r' s'] & Hrun & [= _ <-]). cbn.
    by destruct (search_writes_prefix _ h g r' s' Hlen Hrun) as (_ & ? & _).
  - intros t ->.
    by destruct (search_next_step_result h g t g' Hsearch) as (? & ? & _).
Qed.

(** ** One tick, case by case *)

Lemma tick_cases h (w w' : World) g g' tr :
  GOFSM_OnTick h w g = Done (g', w', tr) →
  (current_node_index g = target_node_index g
   ∧ g' = g ∧ w' = w ∧ tr = [])
  ∨ ∃ g1 searched attempted,
      current_node_index g ≠ target_node_index g
      ∧ tick_plan h g = Done (g1, searched)
      ∧ tick_attempt h w g1 = Done (g', w', attempted)
      ∧ tr = searched ++ attempted.
Proof.
  unfold GOFSM_OnTick.
  destruct (Z.eqb_spec (current_node_index g) (target_node_index g)).
  { intros [= <- <- <-]. by left. }
  intros ([g1 searched] & Hplan & Hrest)%run_bind_Done.
  apply run_bind_Done in Hrest as ([[g2 w2] attempted] & Hatt & [= <- <- <-]).
  right. by exists g1, searched, attempted.
Qed.

Lemma tick_plan_cases h g g1 searched :
  tick_plan h g = Done (g1, searched) →
  (replans g = false ∧ g1 = g ∧ searched = [])
  ∨ (replans g = true
     ∧ ∃ found g2,
         GOFSM_SearchNextStep h g = Done (found, g2)
         ∧ g1 = set_is_graph_reconfigured false
                  (set_is_target_change false
                     (set_transition_current found g2))
         ∧ searched = [EvSearch found]).
Proof.
  unfold tick_plan. destruct (replans g).
  - intros ([found g2] & Hs & [= <- <-])%run_bind_Done.
    right. split; [done|]. by exists found, g2.
  - intros [= <- <-]. by left.
Qed.

Lemma tick_attempt_cases h (w w' : World) g1 g' attempted :
  tick_attempt h w g1 = Done (g', w', attempted) →
  (transition_current g1 = None
   ∧ g' = set_is_transition_failure false g1 ∧ w' = w ∧ attempted = [])
  ∨ ∃ t tr,
      transition_current g1 = Some t ∧ h !! t = Some tr
      ∧ w' = (attempt tr t w).2
      ∧ attempted = [EvAttempt t (attempt tr t w).1]
      ∧ g' = match (attempt tr t w).1 with
             | GOFSM_Transition_Result_Success =>
                 set_current_node_index (destination_node_index tr)
                   (set_is_transition_failure false g1)
             | GOFSM_Transition_Result_Failure =>
                 set_is_transition_failure true g1
             end.
Proof.
  unfold tick_attempt.
  destruct (transition_current g1) as [t|] eqn:Hc.
  2:{ intros [= <- <- <-]. by left. }
  destruct (h !! t) as [tr|] eqn:Ht; [|done].
  intros Hrun. right. exists t, tr.
  by destruct (attempt tr t w) as [[] w1]; injection Hrun as <- <- <-.
Qed.

Lemma count_attempts_app (tr1 tr2 : list event) :
  count_attempts (tr1 ++ tr2) = (count_attempts tr1 + count_attempts tr2)%nat.
Proof. unfold count_attempts. by rewrite List.filter_app, length_app. Qed.

Lemma count_searches_app (tr1 tr2 : list event) :
  count_searches (tr1 ++ tr2) = (count_searches tr1 + count_searches tr2)%nat.
Proof. unfold count_searches. by rewrite List.filter_app, length_app. Qed.

(** X10. A tick that returns has called the search at most once and then
    attempted at most one transition. It never touches the registered
    transitions, the count, the capacities or the target node. The world
    changes only through an attempt, and the current node changes only
    to the destination of the transition whose attempt succeeded, which
    is then the cached one. *)
Theorem tick_does_one_step h (w w' : World) g g' tr :
  GOFSM_OnTick h w g = Done (g', w', tr) →
  (count_searches tr ≤ 1)%nat ∧ (count_attempts tr ≤ 1)%nat
  ∧ transitions g' = transitions g
  ∧ transitions_count g' = transitions_count g
  ∧ transitions_capacity g' = transitions_capacity g
  ∧ nodes_capacity g' = nodes_capacity g
  ∧ target_node_index g' = target_node_index g
  ∧ (count_attempts tr = 0%nat → w' = w)
  ∧ ((current_node_index g' = current_node_index g
      ∧ ∀ t, EvAttempt t GOFSM_Transition_Result_Success ∉ tr)
     ∨ ∃ t trt,
         EvAttempt t GOFSM_Transition_Result_Success ∈ tr
         ∧ h !! t = Some trt
         ∧ transition_current g' = Some t
         ∧ is_transition_failure g' = false
         ∧ current_node_index g' = destination_node_index trt).
Proof.
  intros Htick.
  destruct (tick_keeps h w w' g g' tr Htick) as (Hn & Hcap & Htr & Hnc & Htg).
  apply tick_cases in Htick
    as [(_ & -> & -> & ->)
       |(g1 & searched & attempted & _ & Hplan & Hatt & ->)].
  { split_and!; try done; try (cbn; lia). left. split; [done|].
    intros t ?%elem_of_nil. done. }
  destruct (tick_plan_keeps h g g1 searched Hplan)
    as (Hcur & _ & _ & _ & _ & _ & _ & Hnoatt).
  assert (count_searches searched ≤ 1 ∧ count_attempts searched = 0)%nat
    as [Hs1 Hs2].
  { apply tick_plan_cases in Hplan
      as [(_ & _ & ->)|(_ & found & g2 & _ & _ & ->)]; cbn; lia. }
  rewrite count_searches_app, count_attempts_app.
  apply tick_attempt_cases in Hatt
    as [(Hc & -> & -> & ->)|(t & trt & Hc & Ht & -> & -> & ->)].
  - cbn. split_and!; try done; try lia. left. split; [done|].
    intros t Hin. rewrite app_nil_r in Hin. by apply Hnoatt in Hin.
  - cbn. split_and!; try done; try lia.
    destruct (attempt trt t w).1 eqn:Hres; cbn.
    + left. split; [done|]. intros t' [Hin|Hin]%elem_of_app.
      * by apply Hnoatt in Hin.
      * by apply list_elem_of_singleton in Hin.
    + right. exists t, trt. split_and!; try done.
      apply elem_of_app. right. left.
Qed.

(** ** Goal changes and blocked transitions *)


Lemma tick_skips_blocked h (w w' : World) g g' tr t trb :
  h !! t = Some trb → ¬ Available trb →
  (transition_current g ≠ Some t ∨ is_graph_reconfigured g = true) →
  GOFSM_OnTick h w g = Done (g', w', tr) →
  (∀ r, EvAttempt t r ∉ tr)
  ∧ (transition_current g' ≠ Some t ∨ is_graph_reconfigured g' = true).
Proof.
  intros Ht Hblocked HJ Htick.
  apply tick_cases in Htick
    as [(_ & -> & -> & ->)
       |(g1 & searched & attempted & _ & Hplan & Hatt & ->)].
  { split; [|done]. intros r ?%elem_of_nil. done. }
  destruct (tick_plan_keeps h g g1 searched Hplan)
    as (_ & _ & _ & _ & _ & _ & _ & Hnoatt).
  assert (transition_current g1 ≠ Some t) as Hc1.
  { apply tick_plan_cases in Hplan
      as [(Hre & -> & _)|(_ & found & g2 & Hs & -> & _)].
    - destruct HJ as [?|Hflag]; [done|].
      unfold replans in Hre. by rewrite Hflag, orb_true_r in Hre.
    - cbn. intros ->.
      apply search_next_step_result in Hs as (_ & (tr0 & Ht0 & Hav & _) & _).
      rewrite Ht in Ht0. injection Ht0 as <-. done. }
  apply tick_attempt_cases in Hatt
    as [(Hc & -> & -> & ->)|(t' & trt & Hc & _ & -> & -> & ->)].
  - split; [|by left]. intros r Hin. rewrite app_nil_r in Hin.
    by apply Hnoatt in Hin.
  - split.
    + intros r [Hin|Hin]%elem_of_app; [by apply Hnoatt in Hin|].
      apply list_elem_of_singleton in Hin. injection Hin as -> _.
      by rewrite Hc in Hc1.
    + left. by destruct (attempt trt t' w).1.
Qed.

(** X8. Blocking takes effect at once and lasts: after
    [GOFSM_Transition_SetState] has set a transition to Blocked, no tick
    attempts it, however many ticks follow and whatever was cached or
    had failed before. *)
Theorem blocked_transition_is_not_attempted h g t h' g' :
  GOFSM_Transition_SetState h g t GOFSM_Transition_State_Blocked
  = Done (h', g') →
  ∀ n (w w'' : World) g'' tr,
    ticks n h' w g' = Done (g'', w'', tr) →
    ∀ r, EvAttempt t r ∉ tr.
Proof.
  unfold GOFSM_Transition_SetState.
  destruct (h !! t) as [tr0|] eqn:Ht0; [|done]. intros [= <- <-].
  set (trb := mkTransition (source_node_index tr0)
                (destination_node_index tr0) (function tr0)
                GOFSM_Transition_State_Blocked).
  assert (<[t:=trb]> h !! t = Some trb) as Ht by apply lookup_insert_eq.
  assert (¬ Available trb) as Hblocked by done.
  assert (∀ n (w w'' : World) g1 g'' tr,
            (transition_current g1 ≠ Some t
             ∨ is_graph_reconfigured g1 = true) →
            ticks n (<[t:=trb]> h) w g1 = Done (g'', w'', tr) →
            ∀ r, EvAttempt t r ∉ tr) as Hall.
  { induction n as [|n IH]; intros w w'' g1 g'' tr HJ; cbn.
    { intros [= <- <- <-] r ?%elem_of_nil. done. }
    intros ([[g2 w2] tr1] & Htick & Hrest)%run_bind_Done.
    apply run_bind_Done in Hrest as ([[g3 w3] tr2] & Hticks & [= <- <- <-]).
    destruct (tick_skips_blocked _ _ _ _ _ _ _ _ Ht Hblocked HJ Htick)
      as [Hno HJ2].
    intros r [Hin|Hin]%elem_of_app; [by apply Hno in Hin|].
    by apply (IH _ _ _ _ _ HJ2 Hticks r). }
  intros n w w'' g'' tr. apply Hall. by right.
Qed.

(** ** Whole runs *)

Lemma well_formed_same_frame h g g' es :
  well_formed h g es →
  transitions g' = transitions g →
  transitions_count g' = transitions_count g →
  transitions_capacity g' = transitions_capacity g →
  nodes_capacity g' = nodes_capacity g →
  length (alg_nodes_buffer g') = length (alg_nodes_buffer g) →
  (∀ t, transition_current g' = Some t → is_Some (h !! t)) →
  well_formed h g' es.
Proof.
  intros (Hgraph & Hconf & Hfits & Hcap & _) Ht Hc Htc Hnc Hlen Hlive.
  unfold well_formed, graph, registered, configured in *.
  rewrite Ht, Hc, Htc, Hnc, Hlen.
  split; [done|]. split; [done|]. split; [done|]. by split.
Qed.

Lemma plan_well_formed h g es :
  well_formed h g es →
  ∃ g1 searched,
    tick_plan h g = Done (g1, searched) ∧ well_formed h g1 es.
Proof.
  intros Hwf. pose proof Hwf as (Hgraph & Hconf & Hfits & Hcap & Hlive).
  unfold tick_plan. destruct (replans g); [|by exists g, []].
  destruct (search_next_step_spec h g es Hgraph Hconf Hfits Hcap)
    as (r & b & Vf & -> & Hlen & Hspec).
  cbn. eexists _, _. split; [reflexivity|].
  apply (well_formed_same_frame h g); try done.
  cbn. intros t ->.
  apply spec_search_first in Hspec as (n & es1 & tr & es2 & -> & _).
  destruct (graph_elem h g _ t tr Hgraph) as [_ Ht].
  { apply elem_of_app. right. left. }
  by exists tr.
Qed.

Lemma tick_well_formed h (w : World) g es :
  well_formed h g es →
  ∃ g' w' tr,
    GOFSM_OnTick h w g = Done (g', w', tr) ∧ well_formed h g' es.
Proof.
  intros Hwf. unfold GOFSM_OnTick.
  destruct (current_node_index g =? target_node_index g).
  { by exists g, w, []. }
  destruct (plan_well_formed h g es Hwf) as (g1 & searched & -> & Hwf1).
  cbn. pose proof Hwf1 as (_ & _ & _ & _ & Hlive).
  unfold tick_attempt. destruct (transition_current g1) as [t|] eqn:Hc.
  - destruct (Hlive t eq_refl) as [tr ->].
    destruct (attempt tr t w) as [[] w1]; cbn; eexists _, _, _;
      (split; [reflexivity|]);
      apply (well_formed_same_frame h g1); try done;
      cbn; intros t' Ht'; apply Hlive; congruence.
  - cbn. eexists _, _, _. split; [reflexivity|].
    apply (well_formed_same_frame h g1); try done.
    cbn. intros t' Ht'. congruence.
Qed.

(** X11. Ticks are safe on an engine that is ready to tick (valid
    registry, configured arrays, node domain within the scratch region,
    live cached transition): any number of ticks in a row completes
    without an access outside the arrays or through a bad pointer,
    whatever the actions report, and leaves the engine ready to tick
    with the same registry and target. *)
Theorem ticks_never_fault h g es :
  well_formed h g es →
  ∀ n (w : World),
    ∃ g' w' tr,
      ticks n h w g = Done (g', w', tr)
      ∧ well_formed h g' es
      ∧ registered g' = registered g
      ∧ target_node_index g' = target_node_index g.
Proof.
  intros Hwf n. revert g Hwf. induction n as [|n IH]; intros g Hwf w.
  { by exists g, w, []. }
  destruct (tick_well_formed h w g es Hwf) as (g1 & w1 & tr1 & Htick & Hwf1).
  destruct (IH g1 Hwf1 w1) as (g2 & w2 & tr2 & Hticks & Hwf2 & Hreg & Htg).
  destruct (tick_keeps h w w1 g g1 tr1 Htick) as (Hc & _ & Ht & _ & Htg1).
  exists g2, w2, (tr1 ++ tr2). cbn [ticks]. rewrite Htick. cbn.
  rewrite Hticks. cbn. split_and!; try done; [|congruence].
  rewrite Hreg. unfold registered. by rewrite Hc, Ht.
Qed.

Lemma tick_advances h (w : World) g es d :
  well_formed h g es →
  is_transition_failure g = false →
  always_succeeds es →
  distance es (target_node_index g) (S d) (current_node_index g) →
  ∃ g' w' tr,
    GOFSM_OnTick h w g = Done (g', w', tr)
    ∧ well_formed h g' es
    ∧ is_transition_failure g' = false
    ∧ target_node_index g' = target_node_index g
    ∧ distance es (target_node_index g) d (current_node_index g')
    ∧ count_attempts tr = 1%nat.
Proof.
  intros Hwf Hf Hok [Hpath Hmin].
  pose proof Hwf as (Hgraph & Hconf & Hfits & Hcap & Hlive).
  assert (current_node_index g ≠ target_node_index g) as Hne.
  { intros Heq. rewrite Heq in Hmin.
    specialize (Hmin 0%nat (path_here _ _)). lia. }
  assert (replans g = true) as Hre by (unfold replans; by rewrite Hf).
  destruct (search_next_step_spec h g es Hgraph Hconf Hfits Hcap)
    as (r & b & Vf & Hrun & Hlen & Hspec).
  pose proof (spec_search_correct es (target_node_index g)
                (current_node_index g) search_fuel 0 _ _ r Vf
                (bfs_inv_init es _ _ Hne) Hspec) as Hcorrect.
  destruct r as [p|]; [|destruct Hcorrect; by exists (S d)].
  destruct Hcorrect as (tr & n & Hin & Hav & Hsrc & Hpn & Hminp).
  assert (n = d) as ->.
  { specialize (Hminp _ Hpath).
    assert (path_to es (target_node_index g) (S n) (current_node_index g))
      as Hp' by (econstructor; [by exists p, tr|done]).
    specialize (Hmin _ Hp'). lia. }
  destruct (graph_elem h g es p tr Hgraph Hin) as [_ Hp].
  set (g1 := set_is_graph_reconfigured false
               (set_is_target_change false
                  (set_transition_current (Some p)
                     (set_alg_nodes_buffer b g)))).
  assert (tick_plan h g = Done (g1, [EvSearch (Some p)])) as Hplan.
  { unfold tick_plan. by rewrite Hre, Hrun. }
  rewrite (tick_unfold h w g g1 _ Hne Hplan).
  rewrite (tick_attempt_cached h w g1 p tr eq_refl Hp).
  rewrite (Hok p tr w Hin). cbn.
  eexists _, _, _. split; [reflexivity|]. split_and!; try done.
  - apply (well_formed_same_frame h g); try done.
    cbn. intros t [= <-]. by exists tr.
  - split; [done|]. intros m Hm.
    assert (path_to es (target_node_index g) (S m) (current_node_index g))
      as Hp' by (econstructor; [by exists p, tr|done]).
    specialize (Hmin _ Hp'). lia.
Qed.

Lemma ticks_advance h es :
  always_succeeds es →
  ∀ k d g (w : World),
    well_formed h g es →
    is_transition_failure g = false →
    distance es (target_node_index g) d (current_node_index g) →
    (k ≤ d)%nat →
    ∃ g' w' tr,
      ticks k h w g = Done (g', w', tr)
      ∧ target_node_index g' = target_node_index g
      ∧ distance es (target_node_index g) (d - k) (current_node_index g')
      ∧ count_attempts tr = k.
Proof.
  intros Hok. induction k as [|k IH]; intros d g w Hwf Hf Hd Hk.
  { exists g, w, []. by rewrite Nat.sub_0_r. }
  destruct d as [|d]; [lia|].
  destruct (tick_advances h w g es d Hwf Hf Hok Hd)
    as (g1 & w1 & tr1 & Htick & Hwf1 & Hf1 & Htg1 & Hd1 & Hn1).
  rewrite <- Htg1 in Hd1.
  destruct (IH d g1 w1 Hwf1 Hf1 Hd1) as (g2 & w2 & tr2 & Hticks & Htg2 & Hd2
                                         & Hn2); [lia|].
  exists g2, w2, (tr1 ++ tr2). cbn [ticks]. rewrite Htick. cbn.
  rewrite Hticks. cbn. rewrite count_attempts_app, Hn1, Hn2.
  rewrite Htg1 in Hd2. split_and!; try done. congruence.
Qed.

(** X12. The engine arrives, and by a shortest way: when the current node
    is [d] enabled transitions away from the target and no nearer, the
    engine is ready to tick with the failure flag clear, and every attempt
    of a registered transition succeeds, then [d] ticks bring the current
    node to the target with exactly [d] attempts, and after fewer ticks
    the engine is not yet there. *)
Theorem ticks_reach_target h g es d (w : World) :
  well_formed h g es →
  is_transition_failure g = false →
  always_succeeds es →
  distance es (target_node_index g) d (current_node_index g) →
  (∃ g' w' tr,
     ticks d h w g = Done (g', w', tr)
     ∧ current_node_index g' = target_node_index g'
     ∧ target_node_index g' = target_node_index g
     ∧ count_attempts tr = d)
  ∧ ∀ k, (k < d)%nat →
      ∃ g' w' tr,
        ticks k h w g = Done (g', w', tr)
        ∧ current_node_index g' ≠ target_node_index g'.
Proof.
  intros Hwf Hf Hok Hd. split.
  - destruct (ticks_advance h es Hok d d g w Hwf Hf Hd)
      as (g' & w' & tr & Hticks & Htg & [Hpath _] & Hn); [lia|].
    exists g', w', tr. split_and!; try done.
    rewrite Nat.sub_diag in Hpath. inversion Hpath. congruence.
  - intros k Hk.
    destruct (ticks_advance h es Hok k d g w Hwf Hf Hd)
      as (g' & w' & tr & Hticks & Htg & [_ Hmin] & _); [lia|].
    exists g', w', tr. split; [done|]. intros Heq.
    rewrite Heq, Htg in Hmin. specialize (Hmin 0%nat (path_here _ _)). lia.
Qed.

End Further.

(** * The further properties on concrete engines *)

Section FurtherConcrete.

Import Demo.

Local Ltac in_list H :=
  repeat (apply elem_of_cons in H as [H|H]; [injection H as -> ->|]);
  try (apply elem_of_nil in H; destruct H).

Local Ltac fits :=
  let p := fresh "p" in
  let tr := fresh "tr" in
  let H := fresh "H" in
  intros p tr H; in_list H; cbn; lia.

Local Ltac conf := unfold configured, is_u8; cbn; lia.

Local Ltac not_in :=
  let H := fresh "H" in
  intros H; cbn in H;
  repeat (apply elem_of_cons in H as [H|H]; [discriminate H|]);
  apply elem_of_nil in H; destruct H.

Lemma remove_takes_first_registration_witness :
  configured engine_ABA
  ∧ ∃ g',
      GOFSM_RemoveTransition engine_ABA 1%positive
      = Done (GOFSM_Error_No, g')
      ∧ registered g' = [Some 2%positive; Some 1%positive]
      ∧ transitions_count g' = 2
      ∧ Some 1%positive ∈ registered g'.
Proof.
  assert (configured engine_ABA) as Hconf by conf.
  split; [exact Hconf|].
  destruct (remove_takes_first_registration engine_ABA 1%positive []
              [Some 2%positive; Some 1%positive] Hconf eq_refl)
    as (g' & Hrem & Hreg & Hc & _ & _ & Hstill).
  { apply not_elem_of_nil. }
  exists g'. split; [exact Hrem|]. split; [exact Hreg|].
  split; [exact Hc|]. apply Hstill. right. left.
Defined.

Lemma remove_reports_unregistered_witness :
  configured engine_AB
  ∧ GOFSM_RemoveTransition engine_AB 3%positive
    = Done (GOFSM_Error_NotRegisteredTransition, engine_AB).
Proof.
  assert (configured engine_AB) as Hconf by conf.
  split; [exact Hconf|].
  destruct (remove_reports_unregistered engine_AB 3%positive Hconf)
    as (e & g' & Hrem & [_ He] & _ & Hsame).
  assert (Some 3%positive ∉ registered engine_AB) as Hnot by not_in.
  rewrite Hrem, (He Hnot), (Hsame Hnot). reflexivity.
Defined.

Lemma add_then_remove_restores_registry_witness :
  configured engine_AB
  ∧ ∃ g1 g2,
      GOFSM_AddTransition engine_AB 3%positive = Done (GOFSM_Error_No, g1)
      ∧ GOFSM_RemoveTransition g1 3%positive = Done (GOFSM_Error_No, g2)
      ∧ registered g2 = [Some 1%positive; Some 2%positive]
      ∧ transitions g2 !! 2%nat = Some (Some 3%positive).
Proof.
  assert (configured engine_AB) as Hconf by conf.
  split; [exact Hconf|].
  destruct (add_then_remove_restores_registry engine_AB 3%positive Hconf)
    as (g1 & g2 & Hadd & Hrem & Hreg & _ & Hstale & _).
  { cbn. lia. }
  { not_in. }
  exists g1, g2. split; [exact Hadd|]. split; [exact Hrem|].
  split; [exact Hreg|exact Hstale].
Defined.

Lemma init_then_calls_stay_configured_witness :
  is_u8 4 ∧ is_u8 3
  ∧ (∃ g0,
       GOFSM_Init engine_raw 4 3
         (Some [Some 9%positive; None; Some 2%positive; Some 9%positive])
         (Some [217; 223; 211])
       = Done g0
       ∧ configured g0
       ∧ transitions g0 = [None; None; None; None]
       ∧ alg_nodes_buffer g0 = [217; 223; 211]
       ∧ ∀ cs m',
           exec_all cs (mkMachine heap_AB 0%nat g0) = Done m' →
           configured (m_engine m'))
  ∧ GOFSM_Init engine_raw 4 3 None (Some [217; 223; 211]) = Fault
  ∧ ∃ g0,
      GOFSM_Init engine_raw 4 3
        (Some [Some 9%positive; None; Some 2%positive; Some 9%positive])
        None
      = Done g0
      ∧ ¬ configured g0
      ∧ GOFSM_SearchNextStep heap_AB g0 = Fault.
Proof.
  assert (is_u8 4) as H4 by (unfold is_u8; lia).
  assert (is_u8 3) as H3 by (unfold is_u8; lia).
  split; [exact H4|]. split; [exact H3|].
  destruct (init_then_calls_stay_configured (World:=nat) engine_raw 4 3
              H4 H3) as (Hblocks & Hnull & Hscratch).
  split_and!.
  - destruct (Hblocks
                [Some 9%positive; None; Some 2%positive; Some 9%positive]
                [217; 223; 211] eq_refl eq_refl)
      as (g0 & Hinit & Hconf & _ & Hslots & Hbuf & _ & _ & Hkeep).
    exists g0. split; [exact Hinit|]. split; [exact Hconf|].
    split; [exact Hslots|]. split; [exact Hbuf|].
    intros cs m' Hexec.
    destruct (Hkeep heap_AB 0%nat cs m' Hexec) as [Hc _]. exact Hc.
  - apply Hnull. lia.
  - destruct (Hscratch
                [Some 9%positive; None; Some 2%positive; Some 9%positive]
                eq_refl)
      as (g0 & Hinit & _ & _ & Hnot & Hsearch).
    exists g0. split; [exact Hinit|]. split; [apply Hnot; lia|].
    apply Hsearch.
Defined.

Lemma init_static_resets_witness :
  (Z.to_nat (transitions_capacity engine_ABA)
   ≤ length (transitions engine_ABA))%nat
  ∧ ∃ g0,
      GOFSM_InitStatic engine_ABA = Done g0
      ∧ transitions g0 = [None; None; None; None]
      ∧ registered g0 = []
      ∧ target_node_index g0 = 2.
Proof.
  assert (Z.to_nat (transitions_capacity engine_ABA)
          ≤ length (transitions engine_ABA))%nat as Hlen by (cbn; lia).
  split; [exact Hlen|].
  destruct (init_static_resets engine_ABA) as [Hreset _].
  destruct (Hreset Hlen)
    as (g0 & Hinit & Hslots & Hreg & _ & _ & _ & _ & _ & Htg & _).
  exists g0. split; [exact Hinit|]. split; [exact Hslots|].
  split; [exact Hreg|exact Htg].
Defined.

Lemma search_loop_terminates_witness :
  (length (alg_nodes_buffer engine_diamond) ≤ 255)%nat
  ∧ search_from 5 heap_diamond engine_diamond ≠ Timeout
  ∧ search_from (5 + 256) heap_diamond engine_diamond
    = search_from search_fuel heap_diamond engine_diamond
  ∧ ∃ r s',
      search_from 5 heap_diamond engine_diamond = Done (r, s')
      ∧ GOFSM_SearchNextStep heap_diamond engine_diamond
        = Done (r, set_alg_nodes_buffer (buf s') engine_diamond).
Proof.
  assert (length (alg_nodes_buffer engine_diamond) ≤ 255)%nat as Hlen
    by (cbn; lia).
  split; [exact Hlen|].
  destruct (search_loop_terminates heap_diamond engine_diamond 5 Hlen)
    as (_ & Hends & _ & Hsame & Hreturns).
  { cbn. lia. }
  split; [exact Hends|]. split; [exact Hsame|].
  apply (Hreturns edges_diamond).
  - vm_compute. reflexivity.
  - conf.
  - fits.
  - cbn. lia.
Defined.

Lemma search_result_is_enabled_step_witness :
  (∃ g',
     GOFSM_SearchNextStep heap_AB engine_AB = Done (Some 1%positive, g')
     ∧ g' = set_alg_nodes_buffer (alg_nodes_buffer g') engine_AB
     ∧ length (alg_nodes_buffer g') = 3%nat
     ∧ Some 1%positive ∈ registered engine_AB
     ∧ ∃ tr, heap_AB !! 1%positive = Some tr ∧ Available tr
             ∧ source_node_index tr = 0)
  ∧ ∃ g',
      GOFSM_SearchNextStep heap_AB_blocked engine_AB_at_1 = Done (None, g')
      ∧ g' = set_alg_nodes_buffer (alg_nodes_buffer g') engine_AB_at_1
      ∧ length (alg_nodes_buffer g') = 3%nat.
Proof.
  split.
  - eexists. split; [vm_compute; reflexivity|].
    destruct (search_result_is_enabled_step heap_AB engine_AB
                (Some 1%positive) _ eq_refl) as (Hframe & Hlen & Hstep).
    split; [exact Hframe|]. split; [apply Hlen; cbn; lia|].
    exact (Hstep 1%positive eq_refl).
  - eexists. split; [vm_compute; reflexivity|].
    destruct (search_result_is_enabled_step heap_AB_blocked engine_AB_at_1
                None _ eq_refl) as (Hframe & Hlen & _).
    split; [exact Hframe|]. apply Hlen. cbn. lia.
Defined.

Lemma blocked_transition_is_not_attempted_witness :
  ∃ h' g' g'' w'' tr,
    GOFSM_Transition_SetState heap_AB engine_A_failed 1%positive
      GOFSM_Transition_State_Blocked = Done (h', g')
    ∧ ticks 2 h' 1%nat g' = Done (g'', w'', tr)
    ∧ ∀ r, EvAttempt 1%positive r ∉ tr.
Proof.
  set (h' := <[1%positive := mkTransition 0 1 (Some jam)
                               GOFSM_Transition_State_Blocked]> heap_AB).
  set (g' := set_is_graph_reconfigured true engine_A_failed).
  assert (GOFSM_Transition_SetState heap_AB engine_A_failed 1%positive
            GOFSM_Transition_State_Blocked = Done (h', g')) as Hset
    by reflexivity.
  exists h', g'.
  destruct (ticks 2 h' 1%nat g') as [[[g'' w''] tr]| |] eqn:Hticks;
    [|vm_compute in Hticks; discriminate Hticks..].
  exists g'', w'', tr. split; [exact Hset|]. split; [reflexivity|].
  exact (blocked_transition_is_not_attempted heap_AB engine_A_failed
           1%positive h' g' Hset 2%nat 1%nat w'' g'' tr Hticks).
Defined.


Lemma tick_does_one_step_witness :
  GOFSM_OnTick heap_pass 0%nat engine_AB
  = Done (set_current_node_index 1
            (set_is_transition_failure false engine_AB_planned),
          1%nat,
          [EvSearch (Some 1%positive);
           EvAttempt 1%positive GOFSM_Transition_Result_Success])
  ∧ (count_searches
       [EvSearch (Some 1%positive);
        EvAttempt 1%positive GOFSM_Transition_Result_Success] ≤ 1)%nat
  ∧ (count_attempts
       [EvSearch (Some 1%positive);
        EvAttempt 1%positive GOFSM_Transition_Result_Success] ≤ 1)%nat.
Proof.
  assert (GOFSM_OnTick heap_pass 0%nat engine_AB
          = Done (set_current_node_index 1
                    (set_is_transition_failure false engine_AB_planned),
                  1%nat,
                  [EvSearch (Some 1%positive);
                   EvAttempt 1%positive GOFSM_Transition_Result_Success]))
    as Htick by (vm_compute; reflexivity).
  split; [exact Htick|].
  destruct (tick_does_one_step heap_pass 0%nat 1%nat engine_AB _ _ Htick)
    as (Hs & Ha & _).
  split; [exact Hs|exact Ha].
Defined.

Lemma well_formed_AB : well_formed heap_AB engine_AB edges_AB.
Proof.
  split; [vm_compute; reflexivity|]. split; [conf|]. split; [fits|].
  split; [cbn; lia|]. intros t Ht. discriminate Ht.
Defined.

Lemma ticks_never_fault_witness :
  well_formed heap_AB engine_AB edges_AB
  ∧ ∃ g' w' tr,
      ticks 5 heap_AB 0%nat engine_AB = Done (g', w', tr)
      ∧ well_formed heap_AB g' edges_AB.
Proof.
  split; [exact well_formed_AB|].
  destruct (ticks_never_fault heap_AB engine_AB edges_AB well_formed_AB
              5%nat 0%nat) as (g' & w' & tr & Hticks & Hwf & _).
  exists g', w', tr. split; [exact Hticks|exact Hwf].
Defined.

Lemma well_formed_pass : well_formed heap_pass engine_AB edges_pass.
Proof.
  split; [vm_compute; reflexivity|]. split; [conf|]. split; [fits|].
  split; [cbn; lia|]. intros t Ht. discriminate Ht.
Defined.

Lemma always_succeeds_pass : always_succeeds edges_pass.
Proof. intros p tr w H. in_list H; reflexivity. Defined.

Lemma distance_pass : distance edges_pass 2 2 0.
Proof.
  split.
  - apply (path_step edges_pass 2 1 0 1).
    { exists 1%positive, A_pass. split; [left|]. by split_and!. }
    apply (path_step edges_pass 2 0 1 2).
    { exists 2%positive, B. split; [right; left|]. by split_and!. }
    apply path_here.
  - intros m Hp. destruct m as [|[|m]]; [|exfalso|lia].
    + inversion Hp.
    + inversion Hp as [|n u v Hedge Hv]; subst.
      inversion Hv; subst.
      destruct Hedge as (p & tr & Hin & _ & Hs & Hd).
      in_list Hin; cbn in Hs, Hd; lia.
Defined.

Lemma ticks_reach_target_witness :
  well_formed heap_pass engine_AB edges_pass
  ∧ always_succeeds edges_pass
  ∧ distance edges_pass 2 2 0
  ∧ (∃ g' w' tr,
       ticks 2 heap_pass 0%nat engine_AB = Done (g', w', tr)
       ∧ current_node_index g' = 2
       ∧ count_attempts tr = 2%nat)
  ∧ ∃ g' w' tr,
      ticks 1 heap_pass 0%nat engine_AB = Done (g', w', tr)
      ∧ current_node_index g' ≠ target_node_index g'.
Proof.
  split; [exact well_formed_pass|]. split; [exact always_succeeds_pass|].
  split; [exact distance_pass|].
  destruct (ticks_reach_target heap_pass engine_AB edges_pass 2 0%nat
              well_formed_pass eq_refl always_succeeds_pass distance_pass)
    as [(g' & w' & tr & Hticks & Hcur & Htg & Hn) Hbefore].
  split.
  - exists g', w', tr. split; [exact Hticks|]. split; [|exact Hn].
    rewrite Hcur, Htg. reflexivity.
  - apply Hbefore. lia.
Defined.

End FurtherConcrete.
